(** * mcp-android-emulator: the UI dump scanners and the locator tools

    A shallow embedding of the parts of [src/index.ts] that read a
    [uiautomator] dump: the regular expressions built by the tools, the
    [while ((match = regex.exec(xml)) !== null)] scans, the index guards of
    [get_element_bounds] and [tap_element], [extractUIFingerprint] and the
    polling loop of [wait_for_ui_stable]; and of the other tools that
    compute on the output of a shell command: [tap_text], [type_text],
    [list_packages], [get_screen_size], [tap_safe], [wait_for_element],
    [wait_for_element_gone], [scroll_to_text], [get_focused_element],
    [assert_screen_contains] and [get_clickable_elements].

    Modelling conventions.
    - A JavaScript string is a [list ascii]: the model covers dumps and
      queries made of 8-bit characters (the code points 0 to 255), and
      case folding (the flag [i], [toLowerCase]) is the one of these
      characters: the letters a-z and the accented letters.
    - [RegExp] is a built-in of the host language; the fragment of its
      pattern syntax and of its backtracking semantics that the tools rely
      on is embedded below ([RegExp_new], [exec_from]).  A pattern outside
      the fragment compiles to [PUnsupported] and nothing is claimed of it.
    - A number is an exact integer or [NaN]; the floating point rounding of
      integers above 2^53 is outside the model.
    - The device is not modelled: a tool is a function of the dump text the
      shell call returned, and a tool that polls the device is a function
      of the dumps it gets, in order, with the times read around each.
    - A number that need not be an integer (the coordinates of [tap_safe],
      [maxScrolls]) is a rational or [NaN]; infinities and the rounding of
      floating point numbers are outside the model.
    - [trim] removes the white space among the 8-bit characters. *)

From Stdlib Require Import Ascii String ZArith Bool Lia Arith QArith Qround List.
From Stdlib Require Import Permutation Sorted.
Import ListNotations.

Local Close Scope Q_scope.
Local Open Scope list_scope.

(** ** Strings *)

Abbreviation str := (list ascii).

Definition dquote : ascii := "034"%char.
Definition LF : ascii := "010"%char.
Definition CR : ascii := "013"%char.

(** [js "..."] is a string literal of the source; inside it the apostrophe
    stands for the double quote character (no literal of the modelled code
    contains an apostrophe). *)
Definition js (x : string) : str :=
  map (fun c => if Ascii.eqb c "'"%char then dquote else c) (list_ascii_of_string x).

Definition code (c : ascii) : N := N_of_ascii c.

Definition in_range (lo hi c : ascii) : bool :=
  (N.leb (code lo) (code c) && N.leb (code c) (code hi))%bool.

Definition is_digit (c : ascii) : bool := in_range "0" "9" c.

(** ** Numbers *)

Inductive number := NaN | Int (z : Z).

Definition num_add (a b : number) : number :=
  match a, b with Int x, Int y => Int (x + y) | _, _ => NaN end.

Definition num_sub (a b : number) : number :=
  match a, b with Int x, Int y => Int (x - y) | _, _ => NaN end.

(** [Math.round]: the nearest integer, ties towards +infinity. *)
Definition Math_round (q : Q) : Z := Qfloor (q + (1 # 2))%Q.

(** [Math.round((a + b) / 2)] *)
Definition round_half_sum (a b : number) : number :=
  match num_add a b with
  | Int s => Int (Math_round (inject_Z s / inject_Z 2)%Q)
  | NaN => NaN
  end.

Definition is_space (c : ascii) : bool :=
  existsb (Ascii.eqb c) ["009"; "010"; "011"; "012"; "013"; " "]%char.

Fixpoint skip_spaces (s : str) : str :=
  match s with
  | c :: s' => if is_space c then skip_spaces s' else s
  | [] => []
  end.

Definition digit_value (radix : Z) (c : ascii) : option Z :=
  let v :=
    if in_range "0" "9" c then Some (Z.of_N (code c) - 48)%Z
    else if in_range "a" "z" c then Some (Z.of_N (code c) - 87)%Z
    else if in_range "A" "Z" c then Some (Z.of_N (code c) - 55)%Z
    else None in
  match v with
  | Some d => if (d <? radix)%Z then Some d else None
  | None => None
  end.

(** The longest prefix of digits, as a number; [None] when it is empty. *)
Fixpoint parse_digits (radix : Z) (acc : option Z) (s : str) : option Z :=
  match s with
  | c :: s' =>
      match digit_value radix c with
      | Some d =>
          parse_digits radix
            (Some (match acc with Some a => a * radix + d | None => d end)%Z) s'
      | None => acc
      end
  | [] => acc
  end.

(** [parseInt(x)] with no radix argument; [None] is [undefined]. *)
Definition parseInt (x : option str) : number :=
  match x with
  | None => NaN
  | Some s =>
      let s1 := skip_spaces s in
      let '(sign, s2) :=
        match s1 with
        | "-"%char :: r => ((-1)%Z, r)
        | "+"%char :: r => (1%Z, r)
        | _ => (1%Z, s1)
        end in
      let '(radix, s3) :=
        match s2 with
        | "0"%char :: "x"%char :: r => (16%Z, r)
        | "0"%char :: "X"%char :: r => (16%Z, r)
        | _ => (10%Z, s2)
        end in
      match parse_digits radix None s3 with
      | Some v => Int (sign * v)
      | None => NaN
      end
  end.

(** ** Regular expressions: abstract syntax *)

Inductive charset :=
| CLit (c : ascii)                          (* a pattern character *)
| CAny                                      (* .  *)
| CDigit                                    (* \d *)
| CClass (neg : bool) (members : list ascii). (* [abc] and [^abc] *)

Inductive regex :=
| REmpty
| RChar (cs : charset)
| RSeq (r1 r2 : regex)
| RRepeat (min1 greedy : bool) (cs : charset)   (* c*  c+  c*?  c+? *)
| RGroup (cap : option nat) (r : regex)         (* ( r ) numbered, (?: r ) *)
| ROpt (greedy : bool) (r : regex).             (* r?  r?? *)

Definition seq_of (items : list regex) : regex := fold_right RSeq REmpty items.

Record compiled := { re : regex; ncaps : nat }.

(** ** Regular expressions: the pattern parser *)

Inductive presult (A : Type) :=
| POk (a : A)
| PSyntaxError          (* [new RegExp] throws a SyntaxError *)
| PUnsupported.         (* syntax outside the modelled fragment *)
Arguments POk {A} a.
Arguments PSyntaxError {A}.
Arguments PUnsupported {A}.

Inductive pmode :=
| PNormal
| PEscape                                 (* after a backslash *)
| PClassOpen                              (* after [ *)
| PClass (neg : bool) (acc : list ascii)  (* inside [...] , members reversed *)
| PGroupOpen                              (* after ( *)
| PGroupQ.                                (* after (? *)

Inductive plast := LNothing | LChar | LGroup | LQuant.

Record frame := { fr_cap : option nat; fr_items : list regex }.

(** [ps_items] holds the terms of the alternative being read, latest first. *)
Record pstate := {
  ps_stack : list frame;
  ps_items : list regex;
  ps_last : plast;
  ps_ncap : nat;
  ps_mode : pmode
}.

Definition pinit : pstate :=
  {| ps_stack := []; ps_items := []; ps_last := LNothing; ps_ncap := 0; ps_mode := PNormal |}.

Definition mem (c : ascii) (l : list ascii) : bool := existsb (Ascii.eqb c) l.

(** The characters that [\ ] turns into themselves (SyntaxCharacter and /). *)
Definition syntax_chars : list ascii :=
  ["^"; "$"; "\"; "."; "*"; "+"; "?"; "("; ")"; "["; "]"; "{"; "}"; "|"; "/"]%char.

Definition push_char (st : pstate) (c : charset) : pstate :=
  {| ps_stack := ps_stack st; ps_items := RChar c :: ps_items st; ps_last := LChar;
     ps_ncap := ps_ncap st; ps_mode := PNormal |}.

Definition set_mode (st : pstate) (m : pmode) : pstate :=
  {| ps_stack := ps_stack st; ps_items := ps_items st; ps_last := ps_last st;
     ps_ncap := ps_ncap st; ps_mode := m |}.

Definition open_group (capturing : bool) (st : pstate) : pstate :=
  {| ps_stack := {| fr_cap := if capturing then Some (ps_ncap st) else None;
                    fr_items := ps_items st |} :: ps_stack st;
     ps_items := []; ps_last := LNothing;
     ps_ncap := if capturing then S (ps_ncap st) else ps_ncap st;
     ps_mode := PNormal |}.

Definition close_group (st : pstate) : presult pstate :=
  match ps_stack st with
  | [] => PSyntaxError
  | fr :: stk =>
      POk {| ps_stack := stk;
             ps_items := RGroup (fr_cap fr) (seq_of (rev (ps_items st))) :: fr_items fr;
             ps_last := LGroup; ps_ncap := ps_ncap st; ps_mode := PNormal |}
  end.

Definition with_items (st : pstate) (items : list regex) (l : plast) : pstate :=
  {| ps_stack := ps_stack st; ps_items := items; ps_last := l;
     ps_ncap := ps_ncap st; ps_mode := PNormal |}.

Inductive quantifier := QStar | QPlus | QOpt.

Definition make_lazy (r : regex) : regex :=
  match r with
  | RRepeat m _ c => RRepeat m false c
  | ROpt _ r1 => ROpt false r1
  | _ => r
  end.

Definition quantify (st : pstate) (q : quantifier) : presult pstate :=
  match ps_last st, ps_items st with
  | LChar, RChar c :: its =>
      match q with
      | QStar => POk (with_items st (RRepeat false true c :: its) LQuant)
      | QPlus => POk (with_items st (RRepeat true true c :: its) LQuant)
      | QOpt => POk (with_items st (ROpt true (RChar c) :: its) LQuant)
      end
  | LGroup, it :: its =>
      match q with
      | QOpt => POk (with_items st (ROpt true it :: its) LQuant)
      | _ => PUnsupported
      end
  | LQuant, it :: its =>
      match q with
      | QOpt => POk (with_items st (make_lazy it :: its) LNothing)
      | _ => PSyntaxError
      end
  | _, _ => PSyntaxError
  end.

Definition normal_step (st : pstate) (a : ascii) : presult pstate :=
  if Ascii.eqb a "\" then POk (set_mode st PEscape)
  else if Ascii.eqb a "." then POk (push_char st CAny)
  else if Ascii.eqb a "[" then POk (set_mode st PClassOpen)
  else if Ascii.eqb a "(" then POk (set_mode st PGroupOpen)
  else if Ascii.eqb a ")" then close_group st
  else if Ascii.eqb a "*" then quantify st QStar
  else if Ascii.eqb a "+" then quantify st QPlus
  else if Ascii.eqb a "?" then quantify st QOpt
  else if mem a ["|"; "^"; "$"; "{"]%char then PUnsupported
  else POk (push_char st (CLit a)).

Definition class_step (st : pstate) (neg : bool) (acc : list ascii) (a : ascii)
  : presult pstate :=
  if Ascii.eqb a "]" then
    match acc with
    | [] => PUnsupported
    | _ => POk (push_char st (CClass neg (rev acc)))
    end
  else if mem a ["\"; "-"]%char then PUnsupported
  else POk (set_mode st (PClass neg (a :: acc))).

Definition pstep (st : pstate) (a : ascii) : presult pstate :=
  match ps_mode st with
  | PNormal => normal_step st a
  | PEscape =>
      if Ascii.eqb a "d" then POk (push_char st CDigit)
      else if mem a syntax_chars then POk (push_char st (CLit a))
      else PUnsupported
  | PClassOpen =>
      if Ascii.eqb a "^" then POk (set_mode st (PClass true []))
      else class_step st false [] a
  | PClass neg acc => class_step st neg acc a
  | PGroupOpen =>
      if Ascii.eqb a "?" then POk (set_mode st PGroupQ)
      else normal_step (open_group true st) a
  | PGroupQ =>
      if Ascii.eqb a ":" then POk (open_group false st) else PUnsupported
  end.

Definition pfinish (st : pstate) : presult compiled :=
  match ps_mode st, ps_stack st with
  | PNormal, [] => POk {| re := seq_of (rev (ps_items st)); ncaps := ps_ncap st |}
  | _, _ => PSyntaxError
  end.

Definition pbind {A B} (x : presult A) (f : A -> presult B) : presult B :=
  match x with
  | POk a => f a
  | PSyntaxError => PSyntaxError
  | PUnsupported => PUnsupported
  end.

Fixpoint psteps (st : pstate) (p : str) : presult pstate :=
  match p with
  | [] => POk st
  | a :: p' => pbind (pstep st a) (fun st' => psteps st' p')
  end.

(** [new RegExp(pattern, flags)]: the flags are passed to the matcher. *)
Definition RegExp_new (pattern : str) : presult compiled :=
  pbind (psteps pinit pattern) pfinish.

(** ** Regular expressions: the backtracking matcher *)

(** Canonicalize of the flag [i] (without the flag [u]), on the 8-bit
    characters: the letters a-z and the accented letters of the codes 224
    to 254, the division sign (247) apart, go to their upper case, 32
    below.  The other characters stay: the sharp s (223), whose upper case
    is two characters, and the micro sign (181) and the y with diaeresis
    (255), whose upper case is no 8-bit character and is the upper case of
    no other 8-bit character. *)
Definition upper (c : ascii) : ascii :=
  if in_range "a" "z" c || (in_range "224" "254" c && negb (Ascii.eqb c "247"))
  then ascii_of_N (code c - 32) else c.

Definition canon (icase : bool) (c : ascii) : ascii := if icase then upper c else c.

Definition accepts (icase : bool) (cs : charset) (a : ascii) : bool :=
  match cs with
  | CLit c => Ascii.eqb (canon icase c) (canon icase a)
  | CAny => negb (mem a [LF; CR])
  | CDigit => is_digit a
  | CClass neg l =>
      xorb neg (existsb (fun c => Ascii.eqb (canon icase c) (canon icase a)) l)
  end.

Definition caps := list (option str).
Definition mresult : Type := caps * str.

Fixpoint set_nth (i : nat) (v : option str) (cs : caps) : caps :=
  match i, cs with
  | O, _ :: t => v :: t
  | S j, h :: t => h :: set_nth j v t
  | _, [] => []
  end.

(** The text between two positions, given by the remaining inputs. *)
Definition consumed (s s' : str) : str := firstn (length s - length s') s.

Definition or_else {A} (x y : option A) : option A :=
  match x with Some _ => x | None => y end.

Fixpoint rep_greedy (ok : ascii -> bool) (s : str) (k : str -> option mresult)
  : option mresult :=
  match s with
  | c :: s' => if ok c then or_else (rep_greedy ok s' k) (k s) else k s
  | [] => k s
  end.

Fixpoint rep_lazy (ok : ascii -> bool) (s : str) (k : str -> option mresult)
  : option mresult :=
  or_else (k s)
    match s with
    | c :: s' => if ok c then rep_lazy ok s' k else None
    | [] => None
    end.

Fixpoint rmatch (icase : bool) (r : regex) (s : str) (cs : caps)
  (k : str -> caps -> option mresult) : option mresult :=
  match r with
  | REmpty => k s cs
  | RChar c =>
      match s with
      | a :: s' => if accepts icase c a then k s' cs else None
      | [] => None
      end
  | RSeq r1 r2 => rmatch icase r1 s cs (fun s' cs' => rmatch icase r2 s' cs' k)
  | RRepeat min1 greedy c =>
      let rest s0 :=
        (if greedy then rep_greedy else rep_lazy) (accepts icase c) s0 (fun s' => k s' cs) in
      if min1 then
        match s with
        | a :: s' => if accepts icase c a then rest s' else None
        | [] => None
        end
      else rest s
  | RGroup cap r1 =>
      rmatch icase r1 s cs
        (fun s' cs' =>
           k s' match cap with
                | Some i => set_nth i (Some (consumed s s')) cs'
                | None => cs'
                end)
  | ROpt greedy r1 =>
      (* an iteration that consumes nothing is rejected *)
      let take :=
        rmatch icase r1 s cs
          (fun s' cs' => if Nat.eqb (length s') (length s) then None else k s' cs') in
      if greedy then or_else take (k s cs) else or_else (k s cs) take
  end.

(** [regex.exec(xml)] from the position whose remaining input is [s]: the
    captures [match[1..]] and the input that follows the match. *)
Fixpoint exec_from (icase : bool) (c : compiled) (s : str) : option mresult :=
  match rmatch icase (re c) s (repeat None (ncaps c)) (fun s' cs' => Some (cs', s')) with
  | Some x => Some x
  | None =>
      match s with
      | _ :: s' => exec_from icase c s'
      | [] => None
      end
  end.

(** [while ((match = regex.exec(xml)) !== null) { ... }] with flag [g]:
    [lastIndex] moves to the end of each match.  [None]: the fuel ran out
    (a match that consumes nothing would be found again and again). *)
Fixpoint exec_loop (fuel : nat) (icase : bool) (c : compiled) (s : str)
  : option (list caps) :=
  match fuel with
  | O => None
  | S f =>
      match exec_from icase c s with
      | None => Some []
      | Some (cs, rest) => option_map (cons cs) (exec_loop f icase c rest)
      end
  end.

Definition exec_all (icase : bool) (c : compiled) (xml : str) : option (list caps) :=
  exec_loop (S (length xml)) icase c xml.

(** ** The tools *)

Inductive error := SyntaxError | TypeError.

Inductive outcome (A : Type) :=
| Returned (a : A)
| Throws (e : error)
| Loops                  (* the scan never ends *)
| Unmodelled.            (* the pattern is outside the modelled fragment *)
Arguments Returned {A} a.
Arguments Throws {A}.
Arguments Loops {A}.
Arguments Unmodelled {A}.

(** A value used as a condition: [undefined] and the empty string are falsy. *)
Definition truthy (x : option str) : bool :=
  match x with Some (_ :: _) => true | _ => false end.

(** A value spliced into a template literal. *)
Definition spliced (x : option str) : str :=
  match x with Some s => s | None => js "undefined" end.

(** [text.replace(/[.*+?^${}()|[\]\\]/g, "\\$&")] *)
Definition escaped_chars : list ascii :=
  ["."; "*"; "+"; "?"; "^"; "$"; "{"; "}"; "("; ")"; "|"; "["; "]"; "\"]%char.

Definition escapedText (text : str) : str :=
  flat_map (fun c => if mem c escaped_chars then ["\"%char; c] else [c]) text.

Definition bounds_pattern : str := js "bounds='\[(\d+),(\d+)\]\[(\d+),(\d+)\]'".

(** [match[i]] for [i >= 1]. *)
Definition group (m : caps) (i : nat) : option str := nth (i - 1) m None.

Record rect := { x1 : number; y1 : number; x2 : number; y2 : number }.

(** [{ x1: parseInt(match[1]), y1: parseInt(match[2]), x2: ..., y2: ... }] *)
Definition rect_of (m : caps) : rect :=
  {| x1 := parseInt (group m 1); y1 := parseInt (group m 2);
     x2 := parseInt (group m 3); y2 := parseInt (group m 4) |}.

(** [new RegExp(pattern, "gi")] followed by the loop that fills [matches]. *)
Definition collect_matches (pattern xml : str) : outcome (list rect) :=
  match RegExp_new pattern with
  | PSyntaxError => Throws SyntaxError
  | PUnsupported => Unmodelled
  | POk c =>
      match exec_all true c xml with
      | Some ms => Returned (map rect_of ms)
      | None => Loops
      end
  end.

(** [matches[index]]: [None] is [undefined]. *)
Definition array_get {A} (l : list A) (index : Z) : option A :=
  if (index <? 0)%Z then None else nth_error l (Z.to_nat index).

Definition default_index (index : option Z) : Z :=
  match index with Some i => i | None => 0%Z end.

(** *** get_element_bounds *)

Inductive geb_reply :=
| GebMustProvide    (* { error: "Must provide text or resourceId" } *)
| GebNotFound       (* { found: false, error: "Element not found" } *)
| GebOutOfRange (index : Z) (count : nat)
    (* { found: false, error: `Index ${index} out of range. Found ${matches.length} matches.` } *)
| GebFound (matchCount : nat) (index : Z) (x y width height : number)
    (centerX centerY : number).

Definition geb_pattern (text resourceId : option str) : str :=
  if truthy text then
    js "text='[^']*" ++ escapedText (spliced text) ++ js "[^']*'.*?" ++ bounds_pattern
  else
    js "resource-id='" ++ spliced resourceId ++ js "'.*?" ++ bounds_pattern.

Definition get_element_bounds (text resourceId : option str) (index : option Z)
  (xml : str) : outcome geb_reply :=
  let index := default_index index in
  if negb (truthy text) && negb (truthy resourceId) then Returned GebMustProvide
  else
    match collect_matches (geb_pattern text resourceId) xml with
    | Returned matches =>
        if Nat.eqb (length matches) 0 then Returned GebNotFound
        else if (index >=? Z.of_nat (length matches))%Z then
          Returned (GebOutOfRange index (length matches))
        else
          match array_get matches index with
          | None => Throws TypeError       (* [m.x1] with [m] undefined *)
          | Some m =>
              Returned
                (GebFound (length matches) index (x1 m) (y1 m)
                   (num_sub (x2 m) (x1 m)) (num_sub (y2 m) (y1 m))
                   (round_half_sum (x1 m) (x2 m)) (round_half_sum (y1 m) (y2 m)))
          end
    | Throws e => Throws e
    | Loops => Loops
    | Unmodelled => Unmodelled
    end.

(** *** tap_element *)

Inductive search_type :=
| ByResourceId (resourceId : str)     (* `resource-id="${resourceId}"` *)
| ByExactText (text : str)            (* `text="${text}"` *)
| ByContainedText (text : str).       (* `text containing "${text}"` *)

Inductive tap_reply :=
| TapMustProvide    (* "Error: Must provide either text or resourceId" *)
| TapNotFound (what : search_type)
| TapOutOfRange (index : Z) (count : nat) (what : search_type)
| Tapped (what : search_type) (centerX centerY : number)
    (position : option (Z * nat)).  (* ` [match ${index + 1}/${matches.length}]` *)

Definition tap_pattern (text resourceId : option str) (exact : bool) : str :=
  if truthy resourceId then
    js "resource-id='" ++ spliced resourceId ++ js "'[^>]*" ++ bounds_pattern
  else if exact then
    js "text='" ++ escapedText (spliced text) ++ js "'[^>]*" ++ bounds_pattern
  else
    js "text='[^']*" ++ escapedText (spliced text) ++ js "[^']*'[^>]*" ++ bounds_pattern.

Definition tap_search_type (text resourceId : option str) (exact : bool) : search_type :=
  if truthy resourceId then ByResourceId (spliced resourceId)
  else if exact then ByExactText (spliced text)
  else ByContainedText (spliced text).

(** [Tapped] stands for the [input tap] command followed by the reply. *)
Definition tap_element (text resourceId : option str) (index : option Z)
  (exact : option bool) (xml : str) : outcome tap_reply :=
  let index := default_index index in
  let exact := match exact with Some b => b | None => false end in
  if negb (truthy text) && negb (truthy resourceId) then Returned TapMustProvide
  else
    let searchType := tap_search_type text resourceId exact in
    match collect_matches (tap_pattern text resourceId exact) xml with
    | Returned matches =>
        if Nat.eqb (length matches) 0 then Returned (TapNotFound searchType)
        else if (index >=? Z.of_nat (length matches))%Z then
          Returned (TapOutOfRange index (length matches) searchType)
        else
          match array_get matches index with
          | None => Throws TypeError       (* [m.x1] with [m] undefined *)
          | Some m =>
              Returned
                (Tapped searchType
                   (round_half_sum (x1 m) (x2 m)) (round_half_sum (y1 m) (y2 m))
                   (if Nat.ltb 1 (length matches)
                    then Some ((index + 1)%Z, length matches) else None))
          end
    | Throws e => Throws e
    | Loops => Loops
    | Unmodelled => Unmodelled
    end.

(** *** is_element_visible *)

Record visible_bounds := {
  vb_x : number; vb_y : number; vb_width : number; vb_height : number;
  vb_centerX : number; vb_centerY : number
}.

Inductive visible_reply :=
| VisMustProvide   (* { visible: false, error: "Must provide text or resourceId" } *)
| VisResult (visible : bool) (bounds : option visible_bounds).

Definition visible_bounds_of (m : caps) : visible_bounds :=
  let r := rect_of m in
  {| vb_x := x1 r; vb_y := y1 r;
     vb_width := num_sub (x2 r) (x1 r); vb_height := num_sub (y2 r) (y1 r);
     vb_centerX := round_half_sum (x1 r) (x2 r);
     vb_centerY := round_half_sum (y1 r) (y2 r) |}.

(** [new RegExp(pattern, "i").exec(xml)]: the first match only. *)
Definition first_match (pattern xml : str) : outcome (option caps) :=
  match RegExp_new pattern with
  | PSyntaxError => Throws SyntaxError
  | PUnsupported => Unmodelled
  | POk c => Returned (option_map fst (exec_from true c xml))
  end.

Definition is_element_visible (text resourceId : option str) (xml : str)
  : outcome visible_reply :=
  if negb (truthy text) && negb (truthy resourceId) then Returned VisMustProvide
  else
    let by_text :=
      if truthy text then
        first_match
          (js "text='[^']*" ++ escapedText (spliced text) ++ js "[^']*'.*?" ++ bounds_pattern) xml
      else Returned None in
    match by_text with
    | Returned m1 =>
        let found := match m1 with Some _ => true | None => false end in
        let by_id :=
          if truthy resourceId && negb found then
            first_match (js "resource-id='" ++ spliced resourceId ++ js "'.*?" ++ bounds_pattern) xml
          else Returned None in
        match by_id with
        | Returned m2 =>
            Returned
              match m2, m1 with
              | Some m, _ => VisResult true (Some (visible_bounds_of m))
              | None, Some m => VisResult true (Some (visible_bounds_of m))
              | None, None => VisResult false None
              end
        | Throws e => Throws e
        | Loops => Loops
        | Unmodelled => Unmodelled
        end
    | Throws e => Throws e
    | Loops => Loops
    | Unmodelled => Unmodelled
    end.

(** *** The scans with a regular expression literal *)

(** A regular expression literal of the source; the three literals below
    compile ([regex_literals_compile]). *)
Definition regex_literal (pattern : str) : compiled :=
  match RegExp_new pattern with
  | POk c => c
  | _ => {| re := REmpty; ncaps := 0 |}
  end.

(** [get_ui_tree]: the entries ["${text}" at (${centerX}, ${centerY})]. *)
Definition get_ui_tree_regex : compiled :=
  regex_literal (js "text='([^']*)'.*?bounds='\[(\d+),(\d+)\]\[(\d+),(\d+)\]'").

Record text_entry := { te_text : str; te_centerX : number; te_centerY : number }.

Definition entry_of (text : str) (m : caps) : text_entry :=
  {| te_text := text;
     te_centerX := round_half_sum (parseInt (group m 2)) (parseInt (group m 4));
     te_centerY := round_half_sum (parseInt (group m 3)) (parseInt (group m 5)) |}.

Definition get_ui_tree (xml : str) : option (list text_entry) :=
  option_map
    (flat_map (fun m => if truthy (group m 1) then [entry_of (spliced (group m 1)) m] else []))
    (exec_all false get_ui_tree_regex xml).

(** [get_all_text]: the array [texts] after the loop, then sorted. *)
Definition get_all_text_regex : compiled :=
  regex_literal (js "text='([^']*)'[^>]*bounds='\[(\d+),(\d+)\]\[(\d+),(\d+)\]'").

Definition get_all_text_scan (includeEmpty : bool) (xml : str) : option (list text_entry) :=
  option_map
    (flat_map (fun m =>
       if truthy (group m 1) || includeEmpty then
         [entry_of (if truthy (group m 1) then spliced (group m 1) else js "(empty)") m]
       else []))
    (exec_all false get_all_text_regex xml).

(** [(a, b) => a.centerY - b.centerY || a.centerX - b.centerX] *)
Definition by_position (a b : text_entry) : Z :=
  let dx := match num_sub (te_centerX a) (te_centerX b) with Int d => d | NaN => 0%Z end in
  match num_sub (te_centerY a) (te_centerY b) with
  | Int d => if (d =? 0)%Z then dx else d
  | NaN => dx
  end.

Section Sort.
Variable A : Type.
Variable cmp : A -> A -> Z.

(** [Array.prototype.sort] is stable: [x] goes after the entries that do
    not compare greater. *)
Fixpoint insert_sorted (x : A) (l : list A) : list A :=
  match l with
  | [] => [x]
  | y :: l' => if (cmp y x <=? 0)%Z then y :: insert_sorted x l' else x :: l
  end.

Definition array_sort (l : list A) : list A := fold_left (fun acc x => insert_sorted x acc) l [].
End Sort.
Arguments insert_sorted {A} cmp x l.
Arguments array_sort {A} cmp l.

Definition get_all_text (includeEmpty : bool) (xml : str) : option (list text_entry) :=
  option_map (array_sort by_position) (get_all_text_scan includeEmpty xml).

(** *** extractUIFingerprint *)

Definition fingerprint_regex : compiled :=
  regex_literal
    (js "(?:text='([^']*)')?[^>]*(?:class='([^']*)')?[^>]*bounds='\[(\d+),(\d+)\]\[(\d+),(\d+)\]'").

(** The order of the default [sort()]: by code units. *)
Fixpoint str_compare (a b : str) : Z :=
  match a, b with
  | [], [] => 0
  | [], _ :: _ => -1
  | _ :: _, [] => 1
  | x :: a', y :: b' =>
      if Ascii.eqb x y then str_compare a' b'
      else if N.ltb (code x) (code y) then -1 else 1
  end%Z.

Fixpoint join (sep : str) (l : list str) : str :=
  match l with
  | [] => []
  | [x] => x
  | x :: l' => x ++ sep ++ join sep l'
  end.

(** [`${text || ""}|${className || ""}|${x1},${y1},${x2},${y2}`] *)
Definition or_empty (x : option str) : str := if truthy x then spliced x else [].

Definition fingerprint_record (m : caps) : str :=
  or_empty (group m 1) ++ js "|" ++ or_empty (group m 2) ++ js "|"
  ++ spliced (group m 3) ++ js "," ++ spliced (group m 4) ++ js ","
  ++ spliced (group m 5) ++ js "," ++ spliced (group m 6).

Definition fingerprint_elements (xml : str) : option (list str) :=
  option_map
    (flat_map (fun m =>
       if truthy (group m 1) || truthy (group m 2) then [fingerprint_record m] else []))
    (exec_all false fingerprint_regex xml).

Definition extractUIFingerprint (xml : str) : option str :=
  option_map (fun elements => join [LF] (array_sort str_compare elements))
    (fingerprint_elements xml).

(** *** wait_for_ui_stable *)

(** What one turn of the loop observes: the clock read by the loop
    condition, the dump, and the clock read when stability is declared. *)
Record poll := { checked_at : Z; currentXml : str; returned_at : Z }.

(** [ticks] counts the dumps taken before the tool returns, the first one
    being tick 0. *)
Inductive stable_reply :=
| UiStable (tick : nat) (elapsed : Z)   (* `UI stable after ...` *)
| UiTimeout (ticks : nat)               (* `Timeout: UI did not stabilize within ${timeout}ms` *)
| UiScanLoops
| UiPending.                            (* the observations ran out *)

Definition str_eqb (a b : str) : bool := (str_compare a b =? 0)%Z.

Fixpoint stable_loop (startTime timeout : Z) (lastFingerprint : str) (stableCount : nat)
  (tick : nat) (polls : list poll) : stable_reply :=
  match polls with
  | [] => UiPending
  | p :: later =>
      if (checked_at p - startTime <? timeout)%Z then
        match extractUIFingerprint (currentXml p) with
        | None => UiScanLoops
        | Some currentFingerprint =>
            if str_eqb currentFingerprint lastFingerprint then
              let stableCount := S stableCount in
              if Nat.leb 2 stableCount then UiStable tick (returned_at p - startTime)
              else stable_loop startTime timeout lastFingerprint stableCount (S tick) later
            else
              stable_loop startTime timeout currentFingerprint 0 (S tick) later
        end
      else UiTimeout tick
  end.

Definition wait_for_ui_stable (timeout : option Z) (startTime : Z) (polls : list poll)
  : stable_reply :=
  let timeout := match timeout with Some t => t | None => 5000%Z end in
  stable_loop startTime timeout [] 0 0 polls.

(** ** Well-formed dumps

    The shape of the text that [uiautomator dump] writes, for stating what
    the scans compute on it: a sequence of [node] tags, opening or
    self-closing, and of closing tags.  A node carries its attributes in
    the order of the tool: some attributes ([index], [NAF]), then [text],
    [resource-id] and [class], then more attributes ([package],
    [content-desc], the flags), then [bounds]. *)

Record element := {
  el_lead : list (str * str);   (* the attributes in front of [text] *)
  el_text : str;
  el_id : str;
  el_class : str;
  el_more : list (str * str);   (* the attributes between [class] and [bounds] *)
  el_x1 : N; el_y1 : N; el_x2 : N; el_y2 : N
}.

Inductive item :=
| Node (leaf : bool) (e : element)   (* a [node] tag, self-closing when [leaf] *)
| Close.                             (* a closing [node] tag *)

Definition digit_char (d : N) : ascii := ascii_of_N (48 + d).

Fixpoint dec_digits (fuel : nat) (n : N) (acc : str) : str :=
  match fuel with
  | O => acc
  | S f =>
      let acc' := digit_char (n mod 10) :: acc in
      if (n / 10 =? 0)%N then acc' else dec_digits f (n / 10)%N acc'
  end.

(** The decimal numeral of [n]. *)
Definition dec (n : N) : str := dec_digits (S (N.to_nat n)) n [].

Definition attr_xml (a : str * str) : str :=
  js " " ++ fst a ++ js "='" ++ snd a ++ js "'".

Definition attrs_xml (l : list (str * str)) : str := concat (map attr_xml l).

Definition bounds_attr (e : element) : str :=
  js "bounds='[" ++ dec (el_x1 e) ++ js "," ++ dec (el_y1 e) ++ js "]["
  ++ dec (el_x2 e) ++ js "," ++ dec (el_y2 e) ++ js "]'".

(** What follows the value of [resource-id], up to the [bounds] attribute. *)
Definition after_id (e : element) : str :=
  js " class='" ++ el_class e ++ js "'" ++ attrs_xml (el_more e) ++ js " ".

(** What follows the value of [text], up to the [bounds] attribute. *)
Definition after_text (e : element) : str :=
  js " resource-id='" ++ el_id e ++ js "'" ++ after_id e.

Definition tag_end (leaf : bool) : str := if leaf then js " />" else js ">".

Definition node_xml (leaf : bool) (e : element) : str :=
  js "<node" ++ attrs_xml (el_lead e) ++ js " text='" ++ el_text e ++ js "'"
  ++ after_text e ++ bounds_attr e ++ tag_end leaf.

Definition item_xml (it : item) : str :=
  match it with
  | Node leaf e => node_xml leaf e
  | Close => js "</node>"
  end.

Definition xml_header : str :=
  list_ascii_of_string "<?xml version='1.0' encoding='UTF-8' standalone='yes' ?>"
  ++ js "<hierarchy rotation='0'>".

Definition dump_xml (items : list item) : str :=
  xml_header ++ concat (map item_xml items) ++ js "</hierarchy>".

(** The nodes of a dump, in document order. *)
Definition elements (items : list item) : list element :=
  flat_map (fun it => match it with Node _ e => [e] | Close => [] end) items.

(** The characters of an attribute value: the serializer escapes the double
    quote, [>] and the line breaks. *)
Definition value_char (c : ascii) : bool := negb (mem c [dquote; ">"; LF; CR]%char).

Fixpoint ends_with_eq (v : str) : bool :=
  match v with
  | [] => false
  | [c] => Ascii.eqb c "="
  | _ :: v' => ends_with_eq v'
  end.

(** A value whose last character is [=] is left out of the statements: the
    quote that closes it reads like the start of an attribute. *)
Definition value_ok (v : str) : bool := forallb value_char v && negb (ends_with_eq v).

(** The literal prefixes of the patterns that the tools scan with. *)
Definition scanned_prefixes : list str :=
  [js "text='"; js "resource-id='"; js "bounds='["].

(** [p] and [u] differ at a position both have. *)
Fixpoint clash (ic : bool) (p u : str) : bool :=
  match p, u with
  | a :: p', c :: u' =>
      if Ascii.eqb (canon ic a) (canon ic c) then clash ic p' u' else true
  | _, _ => false
  end.

(** [p] differs from [u] within [u], at every position of [u]. *)
Fixpoint clash_all (ic : bool) (p u : str) : bool :=
  match u with
  | [] => true
  | _ :: u' => clash ic p u && clash_all ic p u'
  end.

(** The name of an attribute other than [text], [resource-id] and [bounds]:
    none of the scanned prefixes can be read in it. *)
Definition name_ok (n : str) : bool :=
  forallb (fun c => value_char c && negb (Ascii.eqb c "=")) n
  && forallb (fun p => clash_all true p (js " " ++ n ++ js "='")
                       && clash_all false p (js " " ++ n ++ js "='"))
       scanned_prefixes.

Definition attr_ok (a : str * str) : bool := name_ok (fst a) && value_ok (snd a).

Definition wf_element (e : element) : bool :=
  value_ok (el_text e) && value_ok (el_id e) && value_ok (el_class e)
  && forallb attr_ok (el_lead e) && forallb attr_ok (el_more e).

Definition wf_item (it : item) : bool :=
  match it with Node _ e => wf_element e | Close => true end.

Definition wf_dump (items : list item) : bool := forallb wf_item items.

Definition el_rect (e : element) : rect :=
  {| x1 := Int (Z.of_N (el_x1 e)); y1 := Int (Z.of_N (el_y1 e));
     x2 := Int (Z.of_N (el_x2 e)); y2 := Int (Z.of_N (el_y2 e)) |}.

(** ** Comparisons of the statements *)

Fixpoint prefix_ci (q t : str) : bool :=
  match q, t with
  | [], _ => true
  | a :: q', b :: t' => Ascii.eqb (upper a) (upper b) && prefix_ci q' t'
  | _ :: _, [] => false
  end.

(** Equality up to the case of letters. *)
Fixpoint eq_ci (q t : str) : bool :=
  match q, t with
  | [], [] => true
  | a :: q', b :: t' => Ascii.eqb (upper a) (upper b) && eq_ci q' t'
  | _, _ => false
  end.

(** [q] occurs in [t], up to the case of letters. *)
Fixpoint contains_ci (q t : str) : bool :=
  prefix_ci q t || match t with [] => false | _ :: t' => contains_ci q t' end.

Definition no_quote (q : str) : bool := forallb (fun c => negb (Ascii.eqb c dquote)) q.

(** A resourceId that holds no character with a meaning in a pattern. *)
Definition plain_char (c : ascii) : bool :=
  negb (mem c (dquote :: escaped_chars)).

Definition plain_id (q : str) : bool := forallb plain_char q.

(** ** Notions of the statements *)

(** The occurrences of the [bounds] attribute in a dump, found with the
    pattern that [get_clickable_elements] applies to a node. *)
Definition bounds_regex : compiled := regex_literal bounds_pattern.

Definition bounds_occurrences (xml : str) : option (list caps) :=
  exec_all false bounds_regex xml.

(** The entry of [get_all_text] and [get_ui_tree] for a node. *)
Definition el_entry (e : element) : text_entry :=
  {| te_text := match el_text e with [] => js "(empty)" | _ => el_text e end;
     te_centerX := round_half_sum (Int (Z.of_N (el_x1 e))) (Int (Z.of_N (el_x2 e)));
     te_centerY := round_half_sum (Int (Z.of_N (el_y1 e))) (Int (Z.of_N (el_y2 e))) |}.

Definition has_text (e : element) : bool :=
  match el_text e with [] => false | _ => true end.

(** The text criterion of [tap_element]. *)
Definition text_matches (exact : bool) (q : str) (e : element) : bool :=
  if exact then eq_ci q (el_text e) else contains_ci q (el_text e).


(** The captures of a match at a node: the numerals of its bounds, after
    its text for the patterns that capture it. *)
Definition rect_caps (e : element) : caps :=
  [Some (dec (el_x1 e)); Some (dec (el_y1 e)); Some (dec (el_x2 e)); Some (dec (el_y2 e))].

Definition text_rect_caps (e : element) : caps := Some (el_text e) :: rect_caps e.

(** ** Auxiliary notions for the proofs *)

Definition lit (c : ascii) : regex := RChar (CLit c).

Definition digits_group (i : nat) : regex :=
  RGroup (Some i) (RSeq (RRepeat true true CDigit) REmpty).

(** The terms of [bounds_pattern], the first group being numbered [b]. *)
Definition tail_items (b : nat) : list regex :=
  map lit (js "bounds='[")
  ++ [digits_group b; lit ","; digits_group (b + 1); lit "]"; lit "[";
      digits_group (b + 2); lit ","; digits_group (b + 3); lit "]"; lit dquote].

Definition star_not (c : ascii) : regex := RRepeat false true (CClass true [c]).
Definition lazy_dots : regex := RRepeat false false CAny.

(** The two ways in which the patterns reach the [bounds] attribute. *)
Definition is_gap (g : regex) : Prop := g = lazy_dots \/ g = star_not ">".

(** The compiled patterns of the tools, for a query [q] read literally. *)
Definition text_contains_items (gap : regex) (q : str) : list regex :=
  map lit (js "text='") ++ star_not dquote :: map lit q
  ++ star_not dquote :: lit dquote :: gap :: tail_items 0.

Definition text_exact_items (gap : regex) (q : str) : list regex :=
  map lit (js "text='") ++ map lit q ++ lit dquote :: gap :: tail_items 0.

Definition id_items (gap : regex) (q : str) : list regex :=
  map lit (js "resource-id='") ++ map lit q ++ lit dquote :: gap :: tail_items 0.

Definition text_capture_items (gap : regex) : list regex :=
  map lit (js "text='")
  ++ RGroup (Some 0) (RSeq (star_not dquote) REmpty) :: lit dquote :: gap :: tail_items 1.

(** Removing a literal prefix, as a run of pattern characters does. *)
Fixpoint strip (ic : bool) (p s : str) : option str :=
  match p, s with
  | [], _ => Some s
  | a :: p', c :: s' =>
      if Ascii.eqb (canon ic a) (canon ic c) then strip ic p' s' else None
  | _ :: _, [] => None
  end.

(** [p] matches at no position of [u ++ rest] that lies in [u]. *)
Fixpoint nowhere (ic : bool) (p u rest : str) : Prop :=
  match u with
  | [] => True
  | c :: u' => strip ic p (c :: u' ++ rest) = None /\ nowhere ic p u' rest
  end.

Definition final : str -> caps -> option mresult := fun s cs => Some (cs, s).


(** The captures that the pattern of [bounds] sets. *)
Definition bounds_caps (b : nat) (d1 d2 d3 d4 : str) (cs : caps) : caps :=
  set_nth (b + 3) (Some d4) (set_nth (b + 2) (Some d3)
    (set_nth (b + 1) (Some d2) (set_nth b (Some d1) cs))).

Definition el_bounds_caps (b : nat) (e : element) (cs : caps) : caps :=
  bounds_caps b (dec (el_x1 e)) (dec (el_y1 e)) (dec (el_x2 e)) (dec (el_y2 e)) cs.

Definition is_numeral (d : str) : Prop :=
  exists c u, d = c :: u /\ is_digit c = true /\ forallb is_digit u = true.

Definition differs (ic : bool) (a c : ascii) : bool :=
  negb (Ascii.eqb (canon ic a) (canon ic c)).

(** A node cut in front of its [text] attribute. *)
Definition text_pre (e : element) : str := js "<node" ++ attrs_xml (el_lead e) ++ js " ".

Definition text_core (leaf : bool) (e : element) : str :=
  js "text='" ++ el_text e ++ js "'" ++ after_text e ++ bounds_attr e ++ tag_end leaf.

(** A node cut in front of its [resource-id] attribute. *)
Definition id_pre (e : element) : str :=
  js "<node" ++ attrs_xml (el_lead e) ++ js " text='" ++ el_text e ++ js "' ".

Definition id_core (leaf : bool) (e : element) : str :=
  js "resource-id='" ++ el_id e ++ js "'" ++ after_id e ++ bounds_attr e ++ tag_end leaf.

(** A node cut in front of its [bounds] attribute. *)
Definition bounds_pre (e : element) : str :=
  js "<node" ++ attrs_xml (el_lead e) ++ js " text='" ++ el_text e ++ js "'" ++ after_text e.

Definition bounds_core (leaf : bool) (e : element) : str := bounds_attr e ++ tag_end leaf.

Definition push_lits (st : pstate) (q : str) : pstate :=
  fold_left (fun st c => push_char st (CLit c)) q st.

(** The state of the parser between the fixed parts of a pattern. *)
Definition pmid (items : list regex) (l : plast) (n : nat) : pstate :=
  {| ps_stack := []; ps_items := items; ps_last := l; ps_ncap := n; ps_mode := PNormal |}.

(** [p] matches at no position of the fixed texts, whatever follows them. *)
Definition glue_clashes (ic : bool) (p : str) (glue : list str) : bool :=
  forallb (clash_all ic p) glue.

(** The center of a rectangle, as [Math.round((a + b) / 2)] gives it. *)
Definition center (a b : N) : Z :=
  Math_round (inject_Z (Z.of_N a + Z.of_N b) / inject_Z 2)%Q.

(** The terms of the pattern of [extractUIFingerprint]. *)
Definition opt_attr (name : str) (i : nat) : regex :=
  ROpt true (RGroup None (seq_of
    (map lit (name ++ js "='")
     ++ [RGroup (Some i) (RSeq (star_not dquote) REmpty); lit dquote]))).

Definition fingerprint_items : list regex :=
  opt_attr (js "text") 0 :: star_not ">" :: opt_attr (js "class") 1 :: star_not ">"
  :: tail_items 2.

(** What the pattern of [extractUIFingerprint] captures at a node: neither
    the text nor the class. *)
Definition fp_caps (e : element) : caps := None :: None :: rect_caps e.

(** The element whose bottom edge is one unit lower. *)
Definition lowered (e : element) : element :=
  {| el_lead := el_lead e; el_text := el_text e; el_id := el_id e; el_class := el_class e;
     el_more := el_more e;
     el_x1 := el_x1 e; el_y1 := el_y1 e; el_x2 := el_x2 e; el_y2 := el_y2 e + 1 |}.

(** ** Dumps of the examples *)

Definition dump_without_text : str := js "<node index='0' bounds='[1,2][3,4]' />".

Definition dump_two_ok : str :=
  js "<node index='0' text='OK' bounds='[0,0][10,10]' /><node index='1' text='OK' bounds='[0,20][10,30]' />".


Definition dump_submit : str := js "text='Submit' bounds='[100,200][300,250]'".


Definition dump_a_b : str :=
  js "<node index='0' text='A' resource-id='id_a' bounds='[0,0][10,10]' /><node index='1' text='B' resource-id='id_b' bounds='[0,20][10,30]' />".

Definition dump_upper_id : str :=
  js "<node index='0' text='Login' resource-id='com_app:id/login' bounds='[0,0][10,10]' />".

(** The attributes that [uiautomator] writes between [class] and [bounds]. *)
Definition flags (clickable : string) : list (str * str) :=
  [(js "package", js "com.app"); (js "content-desc", js "");
   (js "checkable", js "false"); (js "checked", js "false");
   (js "clickable", js clickable); (js "enabled", js "true");
   (js "focusable", js "true"); (js "focused", js "false");
   (js "scrollable", js "false"); (js "long-clickable", js "false");
   (js "password", js "false"); (js "selected", js "false")].

Definition widget (class text id : string) (index top : N) : element :=
  {| el_lead := [(js "index", dec index)]; el_text := js text; el_id := js id;
     el_class := js class; el_more := flags "true";
     el_x1 := 100; el_y1 := top; el_x2 := 300; el_y2 := top + 50 |}.

Definition button (text id : string) (index top : N) : element :=
  widget "android.widget.Button" text id index top.

Definition root_frame : element :=
  {| el_lead := [(js "index", js "0")]; el_text := []; el_id := [];
     el_class := js "android.widget.FrameLayout"; el_more := flags "false";
     el_x1 := 0; el_y1 := 0; el_x2 := 1080; el_y2 := 1920 |}.

(** A frame that contains the given widgets. *)
Definition screen (es : list element) : list item :=
  Node false root_frame :: map (Node true) es ++ [Close].

Definition two_ok : list item :=
  screen [button "OK" "com.app:id/first" 0 200; button "OK" "com.app:id/second" 1 400].

Definition login_screen : list item :=
  screen [button "Login" "com.app:id/login" 0 200; button "log" "com.app:id/log" 1 400].

Definition two_ids : list item :=
  screen [button "Login" "login_button" 0 200; button "Login again" "login_button_2" 1 400].

Definition submit_screen : list item :=
  screen [button "Submit" "com.app:id/submit" 0 200].

Definition poll_at (t : Z) (xml : str) : poll :=
  {| checked_at := t; currentXml := xml; returned_at := (t + 40)%Z |}.

Definition screen_loading : str := js "text='Loading' bounds='[0,0][100,40]'".

Definition screen_ready : str := js "text='Ready' bounds='[0,0][100,40]'".

(** A screen whose input field has the focus. *)
Definition focused_flags : list (str * str) :=
  [(js "package", js "com.app"); (js "content-desc", js "");
   (js "checkable", js "false"); (js "checked", js "false");
   (js "clickable", js "true"); (js "enabled", js "true");
   (js "focusable", js "true"); (js "focused", js "true");
   (js "scrollable", js "false"); (js "long-clickable", js "false");
   (js "password", js "false"); (js "selected", js "false")].

Definition focused_field : element :=
  {| el_lead := [(js "index", js "0")]; el_text := js "hello"; el_id := js "com.app:id/name";
     el_class := js "android.widget.EditText"; el_more := focused_flags;
     el_x1 := 100; el_y1 := 200; el_x2 := 300; el_y2 := 250 |}.

Definition focused_screen : list item := screen [focused_field].

(** Two buttons whose ids differ where the first has a dot. *)
Definition two_packages : list item :=
  screen [button "Login" "com.app:id/login" 0 200; button "Login" "comXapp:id/login" 1 400].

(** A screen with a node that can be pressed long but not clicked. *)
Definition long_press_flags : list (str * str) :=
  [(js "package", js "com.app"); (js "content-desc", js "");
   (js "checkable", js "false"); (js "checked", js "false");
   (js "clickable", js "false"); (js "enabled", js "true");
   (js "focusable", js "true"); (js "focused", js "false");
   (js "scrollable", js "false"); (js "long-clickable", js "true");
   (js "password", js "false"); (js "selected", js "false")].

Definition long_press_label : element :=
  {| el_lead := [(js "index", js "0")]; el_text := js "Hold me"; el_id := js "com.app:id/hold";
     el_class := js "android.widget.TextView"; el_more := long_press_flags;
     el_x1 := 100; el_y1 := 600; el_x2 := 300; el_y2 := 650 |}.

Definition long_press_screen : list item :=
  screen [long_press_label; button "Login" "com.app:id/login" 1 200].

(** A tag with an attribute whose name ends with [text] in front of
    [text]. *)
Definition dump_hint_text : str :=
  js "<node index='0' hint-text='Type here' text='hello' resource-id='' class='android.widget.EditText' bounds='[0,0][10,10]' />".


(** Two nodes whose texts are one accented letter, in the lower and in
    the upper case. *)
Definition accented (c : ascii) (index top : N) : element :=
  {| el_lead := [(js "index", dec index)]; el_text := [c]; el_id := js "com.app:id/e";
     el_class := js "android.widget.TextView"; el_more := flags "true";
     el_x1 := 100; el_y1 := top; el_x2 := 300; el_y2 := top + 50 |}.

Definition accented_screen : list item :=
  screen [accented "233" 0 200; accented "201" 1 400].

(** ** More tools *)

(** *** tap_text *)

Inductive tap_text_reply :=
| TextNotFound                             (* `Element with text "${text}" not found` *)
| TextTapped (centerX centerY : number).   (* [input tap], `Tapped on "${text}" at (...)` *)

Definition tap_text_pattern (text : str) (exact : bool) : str :=
  if exact then js "text='" ++ escapedText text ++ js "'.*?" ++ bounds_pattern
  else js "text='[^']*" ++ escapedText text ++ js "[^']*'.*?" ++ bounds_pattern.

(** [text] is a required argument; the pattern is applied with the flag
    [i], once. *)
Definition tap_text (text : str) (exact : option bool) (xml : str)
  : outcome tap_text_reply :=
  let exact := match exact with Some b => b | None => false end in
  match first_match (tap_text_pattern text exact) xml with
  | Returned None => Returned TextNotFound
  | Returned (Some m) =>
      Returned (TextTapped
                  (round_half_sum (parseInt (group m 1)) (parseInt (group m 3)))
                  (round_half_sum (parseInt (group m 2)) (parseInt (group m 4))))
  | Throws e => Throws e
  | Loops => Loops
  | Unmodelled => Unmodelled
  end.

(** *** The size of the screen *)

(** [s.match(regex)] with a regular expression without the flag [g]: the
    captures of the first match. *)
Definition String_match (c : compiled) (s : str) : option caps :=
  option_map fst (exec_from false c s).

Definition size_regex : compiled := regex_literal (js "(\d+)x(\d+)").
Definition density_regex : compiled := regex_literal (js "(\d+)").

(** [sizeMatch ? parseInt(sizeMatch[1]) : w] and [sizeMatch ?
    parseInt(sizeMatch[2]) : h], for the output of [wm size]. *)
Definition screen_size (default : number * number) (sizeOutput : str) : number * number :=
  match String_match size_regex sizeOutput with
  | Some sizeMatch => (parseInt (group sizeMatch 1), parseInt (group sizeMatch 2))
  | None => default
  end.

(** *** get_screen_size *)

Record screen_reply := { sr_width : number; sr_height : number; sr_density : number }.

Definition get_screen_size (sizeOutput densityOutput : str) : screen_reply :=
  let (width, height) := screen_size (Int 0, Int 0) sizeOutput in
  {| sr_width := width; sr_height := height;
     sr_density := match String_match density_regex densityOutput with
                   | Some densityMatch => parseInt (group densityMatch 1)
                   | None => Int 0
                   end |}.

(** *** tap_safe *)

(** The coordinates are numbers that need not be integers: a finite number
    is a rational here, and [None] is [NaN].  The operations below are
    exact on finite floating point numbers. *)
Definition float := option Q.

Definition of_number (n : number) : float :=
  match n with Int z => Some (inject_Z z) | NaN => None end.

Definition float_lt (a b : float) : bool :=
  match a, b with
  | Some x, Some y => negb (Qle_bool y x)
  | _, _ => false
  end.

Definition Math_min (a b : float) : float :=
  match a, b with
  | Some x, Some y => Some (if Qle_bool x y then x else y)
  | _, _ => None
  end.

Definition Math_max (a b : float) : float :=
  match a, b with
  | Some x, Some y => Some (if Qle_bool x y then y else x)
  | _, _ => None
  end.

Inductive bar := StatusBar | NavBar.

(** [adjustments] holds `status bar (${y} -> ${safeY})` and
    `nav bar (${y} -> ${safeY})`. *)
Record safe_tap := {
  safeX : float;
  safeY : float;
  adjustments : list (bar * float * float)
}.

Definition tap_safe (x y : Q) (avoidStatusBar avoidNavBar : option bool) (sizeOutput : str)
  : safe_tap :=
  let avoidStatusBar := match avoidStatusBar with Some b => b | None => true end in
  let avoidNavBar := match avoidNavBar with Some b => b | None => true end in
  let (screenWidth, screenHeight) := screen_size (Int 1080, Int 2400) sizeOutput in
  let statusBarHeight := 50%Z in
  let navBarHeight := 120%Z in
  let safeY0 := Some y in
  let adjustments0 := [] in
  let '(safeY1, adjustments1) :=
    if avoidStatusBar && float_lt (Some y) (Some (inject_Z statusBarHeight)) then
      let safeY := Some (inject_Z (statusBarHeight + 10)) in
      (safeY, adjustments0 ++ [(StatusBar, Some y, safeY)])
    else (safeY0, adjustments0) in
  let '(safeY2, adjustments2) :=
    if avoidNavBar
       && float_lt (of_number (num_sub screenHeight (Int navBarHeight))) (Some y) then
      let safeY := of_number (num_sub (num_sub screenHeight (Int navBarHeight)) (Int 10)) in
      (safeY, adjustments1 ++ [(NavBar, Some y, safeY)])
    else (safeY1, adjustments1) in
  {| safeX := Math_max (Some (inject_Z 10))
                (Math_min (Some x) (of_number (num_sub screenWidth (Int 10))));
     safeY := safeY2;
     adjustments := adjustments2 |}.

(** *** type_text *)

Definition apostrophe : ascii := "039"%char.

(** [text.replace(/ /g, "%s")] *)
Definition escape_spaces (text : str) : str :=
  flat_map (fun c => if Ascii.eqb c " " then ["%"; "s"]%char else [c]) text.

(** [.replace(/'/g, "\\'")]: a backslash in front of every apostrophe. *)
Definition escape_apostrophes (text : str) : str :=
  flat_map (fun c => if Ascii.eqb c apostrophe then ["\"%char; apostrophe] else [c]) text.

Definition escaped_input (text : str) : str := escape_apostrophes (escape_spaces text).

(** The command that [type_text] passes to [shell], [input text "${escaped}"]. *)
Definition type_text (text : str) : str :=
  js "input text '" ++ escaped_input text ++ js "'".

(** *** list_packages *)

(** The characters that [trim] removes, among the 8-bit ones. *)
Definition is_white (c : ascii) : bool :=
  mem c ["009"; "010"; "011"; "012"; "013"; " "; "160"]%char.

Fixpoint trim_start (s : str) : str :=
  match s with
  | c :: s' => if is_white c then trim_start s' else s
  | [] => []
  end.

Definition trim (s : str) : str := rev (trim_start (rev (trim_start s))).

(** [s.split(sep)] with a separator of one character. *)
Fixpoint split (sep : ascii) (s : str) : list str :=
  match s with
  | [] => [[]]
  | c :: s' =>
      if Ascii.eqb c sep then [] :: split sep s'
      else match split sep s' with
           | piece :: pieces => (c :: piece) :: pieces
           | [] => [[c]]
           end
  end.

(** [s.replace(pat, by)] with a string [pat]: the first occurrence only. *)
Fixpoint replace_first (pat by_ s : str) : str :=
  match strip false pat s with
  | Some rest => by_ ++ rest
  | None =>
      match s with
      | c :: s' => c :: replace_first pat by_ s'
      | [] => []
      end
  end.

Definition nonempty (s : str) : bool := match s with [] => false | _ => true end.

(** The command, [pm list packages] and the optional [grep]. *)
Definition list_packages_cmd (filter : option str) : str :=
  js "pm list packages"
  ++ (if truthy filter then js " | grep -i '" ++ spliced filter ++ js "'" else []).

(** [adb] trims the output of the command; the tool splits it into lines,
    removes [package:] from each line and drops the empty lines. *)
Definition list_packages (stdout : str) : list str :=
  let result := trim stdout in
  filter nonempty (map (replace_first (js "package:") []) (split LF result)).

(** *** The text of the screen *)

Fixpoint starts_with (s p : str) : bool :=
  match p, s with
  | [], _ => true
  | a :: p', c :: s' => Ascii.eqb a c && starts_with s' p'
  | _ :: _, [] => false
  end.

(** [s.includes(p)] *)
Fixpoint includes (s p : str) : bool :=
  starts_with s p || match s with [] => false | _ :: s' => includes s' p end.

(** [s.toLowerCase()] on 8-bit characters: the letters A-Z and the
    accented capital letters of the codes 192 to 222, the multiplication
    sign (215) apart, go to their lower case, 32 above; the lower case of
    an 8-bit character is an 8-bit character. *)
Definition lower (c : ascii) : ascii :=
  if in_range "A" "Z" c || (in_range "192" "222" c && negb (Ascii.eqb c "215"))
  then ascii_of_N (code c + 32) else c.

Definition toLowerCase (s : str) : str := map lower s.

(** *** assert_screen_contains *)

(** The value of [found]; the assertion is [PASS] when it is true. *)
Definition assert_screen_contains (text : str) (exact : option bool) (xml : str) : bool :=
  let exact := match exact with Some b => b | None => false end in
  if exact then includes xml (js "text='" ++ text ++ js "'")
  else includes (toLowerCase xml) (toLowerCase text).

(** *** wait_for_element *)

(** [tick] counts the dumps taken before the reply, from 0; [timeout] is a
    whole number of seconds. *)
Inductive wait_reply :=
| WaitFound (tick : nat) (seconds : Z)
    (* `Element "${text}" found after ${Math.round((Date.now() - startTime) / 1000)}s` *)
| WaitTimeout (ticks : nat)
| WaitPending.     (* the observations ran out *)

Fixpoint wait_for_element_loop (text : str) (startTime timeoutMs : Z) (tick : nat)
  (polls : list poll) : wait_reply :=
  match polls with
  | [] => WaitPending
  | p :: later =>
      if (checked_at p - startTime <? timeoutMs)%Z then
        if includes (toLowerCase (currentXml p)) (toLowerCase text) then
          WaitFound tick
            (Math_round (inject_Z (returned_at p - startTime) / inject_Z 1000)%Q)
        else wait_for_element_loop text startTime timeoutMs (S tick) later
      else WaitTimeout tick
  end.

Definition wait_for_element (text : str) (timeout : option Z) (startTime : Z)
  (polls : list poll) : wait_reply :=
  let timeout := match timeout with Some t => t | None => 10%Z end in
  let timeoutMs := (timeout * 1000)%Z in
  wait_for_element_loop text startTime timeoutMs 0 polls.

(** *** wait_for_element_gone *)

(** [timeout] is in milliseconds here. *)
Fixpoint wait_for_element_gone_loop (text : str) (startTime timeout : Z) (tick : nat)
  (polls : list poll) : wait_reply :=
  match polls with
  | [] => WaitPending
  | p :: later =>
      if (checked_at p - startTime <? timeout)%Z then
        if negb (includes (toLowerCase (currentXml p)) (toLowerCase text)) then
          WaitFound tick
            (Math_round (inject_Z (returned_at p - startTime) / inject_Z 1000)%Q)
        else wait_for_element_gone_loop text startTime timeout (S tick) later
      else WaitTimeout tick
  end.

Definition wait_for_element_gone (text : str) (timeout : option Z) (startTime : Z)
  (polls : list poll) : wait_reply :=
  let timeout := match timeout with Some t => t | None => 10000%Z end in
  wait_for_element_gone_loop text startTime timeout 0 polls.

(** *** scroll_to_text *)




(** *** get_focused_element *)

Definition focused_regex : compiled :=
  regex_literal
    (js "focused='true'[^>]*text='([^']*)'[^>]*bounds='\[(\d+),(\d+)\]\[(\d+),(\d+)\]'").

Definition focused_alt_regex : compiled :=
  regex_literal
    (js "bounds='\[(\d+),(\d+)\]\[(\d+),(\d+)\]'[^>]*focused='true'[^>]*text='([^']*)'").

Inductive focused_reply :=
| NotFocused                       (* { focused: false, element: null } *)
| Focused (text : option str) (x y width height : number) (centerX centerY : number).

(** [regex.exec(xml)] for a regular expression without flags. *)
Definition RegExp_exec (c : compiled) (xml : str) : option caps :=
  option_map fst (exec_from false c xml).

Definition get_focused_element (xml : str) : focused_reply :=
  match RegExp_exec focused_regex xml with
  | None =>
      match RegExp_exec focused_alt_regex xml with
      | None => NotFocused
      | Some altMatch =>
          let x1 := parseInt (group altMatch 1) in
          let y1 := parseInt (group altMatch 2) in
          let x2 := parseInt (group altMatch 3) in
          let y2 := parseInt (group altMatch 4) in
          Focused (group altMatch 5) x1 y1 (num_sub x2 x1) (num_sub y2 y1)
            (round_half_sum x1 x2) (round_half_sum y1 y2)
      end
  | Some m =>
      let x1 := parseInt (group m 2) in
      let y1 := parseInt (group m 3) in
      let x2 := parseInt (group m 4) in
      let y2 := parseInt (group m 5) in
      Focused (group m 1) x1 y1 (num_sub x2 x1) (num_sub y2 y1)
        (round_half_sum x1 x2) (round_half_sum y1 y2)
  end.

(** *** get_clickable_elements *)

Definition clickable_regex : compiled :=
  regex_literal (js "<node[^>]*clickable='true'[^>]*>").

Definition text_attr_regex : compiled := regex_literal (js "text='([^']*)'").
Definition id_attr_regex : compiled := regex_literal (js "resource-id='([^']*)'").
Definition class_attr_regex : compiled := regex_literal (js "class='([^']*)'").

(** [regex.exec(xml)] as [exec_from], giving the text of the match,
    [match[0]], and the input that follows it. *)
Fixpoint exec_text_from (icase : bool) (c : compiled) (s : str) : option (str * str) :=
  match rmatch icase (re c) s (repeat None (ncaps c)) (fun s' cs' => Some (cs', s')) with
  | Some (_, s') => Some (consumed s s', s')
  | None =>
      match s with
      | _ :: s' => exec_text_from icase c s'
      | [] => None
      end
  end.

(** The texts [match[0]] of the loop [while ((match = regex.exec(xml)) !== null)]. *)
Fixpoint exec_text_loop (fuel : nat) (icase : bool) (c : compiled) (s : str)
  : option (list str) :=
  match fuel with
  | O => None
  | S f =>
      match exec_text_from icase c s with
      | None => Some []
      | Some (m, rest) => option_map (cons m) (exec_text_loop f icase c rest)
      end
  end.

Definition exec_all_text (icase : bool) (c : compiled) (xml : str) : option (list str) :=
  exec_text_loop (S (length xml)) icase c xml.

Record clickable := {
  ck_text : str;
  ck_resourceId : str;
  ck_className : str;
  ck_centerX : number;
  ck_centerY : number;
  ck_bounds : str
}.

(** What the body of the loop pushes for the tag [node]. *)
Definition clickable_of (node : str) : list clickable :=
  let textMatch := String_match text_attr_regex node in
  let resourceIdMatch := String_match id_attr_regex node in
  let classMatch := String_match class_attr_regex node in
  match String_match bounds_regex node with
  | Some boundsMatch =>
      let x1 := group boundsMatch 1 in
      let y1 := group boundsMatch 2 in
      let x2 := group boundsMatch 3 in
      let y2 := group boundsMatch 4 in
      [{| ck_text := match textMatch with Some m => spliced (group m 1) | None => [] end;
          ck_resourceId :=
            match resourceIdMatch with Some m => spliced (group m 1) | None => [] end;
          ck_className :=
            match classMatch with
            | Some m => last (split "." (spliced (group m 1))) []
            | None => []
            end;
          ck_centerX := round_half_sum (parseInt x1) (parseInt x2);
          ck_centerY := round_half_sum (parseInt y1) (parseInt y2);
          ck_bounds := js "[" ++ spliced x1 ++ js "," ++ spliced y1 ++ js "]["
                       ++ spliced x2 ++ js "," ++ spliced y2 ++ js "]" |}]
  | None => []
  end.

(** [(a, b) => a.centerY - b.centerY || a.centerX - b.centerX] *)
Definition by_center (a b : clickable) : Z :=
  let dx := match num_sub (ck_centerX a) (ck_centerX b) with Int d => d | NaN => 0%Z end in
  match num_sub (ck_centerY a) (ck_centerY b) with
  | Int d => if (d =? 0)%Z then dx else d
  | NaN => dx
  end.

(** The array [elements] after the sort; the reply lists it in this order. *)
Definition get_clickable_elements (includeDisabled : option bool) (xml : str)
  : option (list clickable) :=
  let includeDisabled := match includeDisabled with Some b => b | None => false end in
  option_map
    (fun nodes =>
       array_sort by_center
         (flat_map (fun node =>
            if negb includeDisabled && includes node (js "enabled='false'") then []
            else clickable_of node) nodes))
    (exec_all_text false clickable_regex xml).

(** ** More notions of the statements *)

(** The point that a tool taps for a node. *)
Definition el_centerX (e : element) : number := Int (center (el_x1 e) (el_x2 e)).
Definition el_centerY (e : element) : number := Int (center (el_y1 e) (el_y2 e)).

(** The bounds that [is_element_visible] reports for a node. *)
Definition el_visible_bounds (e : element) : visible_bounds :=
  {| vb_x := Int (Z.of_N (el_x1 e)); vb_y := Int (Z.of_N (el_y1 e));
     vb_width := Int (Z.of_N (el_x2 e) - Z.of_N (el_x1 e));
     vb_height := Int (Z.of_N (el_y2 e) - Z.of_N (el_y1 e));
     vb_centerX := el_centerX e; vb_centerY := el_centerY e |}.

(** The first node, in document order, that passes a test. *)
Definition first_node (test : element -> bool) (items : list item) : option element :=
  find test (elements items).

(** What a call of a tapping tool comes to. *)
Inductive tap_summary :=
| TapsAt (x y : number)
| FindsNothing
| OtherReply.

Definition summary_of_tap_text (r : outcome tap_text_reply) : tap_summary :=
  match r with
  | Returned (TextTapped x y) => TapsAt x y
  | Returned TextNotFound => FindsNothing
  | _ => OtherReply
  end.

Definition summary_of_tap_element (r : outcome tap_reply) : tap_summary :=
  match r with
  | Returned (Tapped _ x y _) => TapsAt x y
  | Returned (TapNotFound _) => FindsNothing
  | _ => OtherReply
  end.

(** A text in one tag and bounds in the next one. *)
Definition dump_split_tags : str :=
  js "<node index='0' text='OK' /><node index='1' bounds='[0,0][10,10]' />".

(** Top to bottom, then left to right. *)
Definition te_before (a b : text_entry) : Prop :=
  match te_centerY a, te_centerY b, te_centerX a, te_centerX b with
  | Int ya, Int yb, Int xa, Int xb => (ya < yb \/ (ya = yb /\ xa <= xb))%Z
  | _, _, _, _ => False
  end.

(** The nodes that [get_all_text] lists. *)
Definition listed (includeEmpty : bool) (e : element) : bool := has_text e || includeEmpty.

(** An entry whose center is made of two integers. *)
Definition int_entry (a : text_entry) : Prop :=
  (exists x, te_centerX a = Int x) /\ (exists y, te_centerY a = Int y).

(** The fingerprint that a turn of the loop of [wait_for_ui_stable] computes. *)
Definition fingerprint_at (p : poll) : option str := extractUIFingerprint (currentXml p).

(** What [wait_for_ui_stable] has seen when it declares stability at tick
    [t]: three equal fingerprints in a row, or two empty ones at the start
    (the variable [lastFingerprint] starts empty). *)
Definition settled (polls : list poll) (t : nat) : Prop :=
  (t = 1 /\ exists p0 p1,
     nth_error polls 0 = Some p0 /\ nth_error polls 1 = Some p1
     /\ fingerprint_at p0 = Some [] /\ fingerprint_at p1 = Some [])
  \/ (2 <= t /\ exists p2 p1 p f,
        nth_error polls (t - 2) = Some p2 /\ nth_error polls (t - 1) = Some p1
        /\ nth_error polls t = Some p
        /\ fingerprint_at p2 = Some f /\ fingerprint_at p1 = Some f
        /\ fingerprint_at p = Some f).

(** The state of the loop after the polls [seen]. *)
Definition loop_state (seen : list poll) (last : str) (count : nat) : Prop :=
  match count with
  | 0 => (seen = [] /\ last = [])
         \/ (exists s p, seen = s ++ [p] /\ fingerprint_at p = Some last)
  | 1 => (exists p, seen = [p] /\ fingerprint_at p = Some [] /\ last = [])
         \/ (exists s p1 p2, seen = s ++ [p1; p2] /\ fingerprint_at p1 = Some last
                             /\ fingerprint_at p2 = Some last)
  | _ => False
  end.

(** Every apostrophe comes after a backslash; [escaped] tells whether the
    character before the string is a backslash. *)
Fixpoint apostrophes_escaped (escaped : bool) (s : str) : bool :=
  match s with
  | [] => true
  | c :: s' =>
      (if Ascii.eqb c apostrophe then escaped else true)
      && apostrophes_escaped (Ascii.eqb c "\") s'
  end.

(** The name of a package: not empty, no white space. *)
Definition package_name (n : str) : bool :=
  nonempty n && forallb (fun c => negb (is_white c)) n.

(** The output of [pm list packages] for the packages [names]. *)
Definition pm_output (names : list str) : str :=
  join [LF] (map (app (js "package:")) names) ++ [LF].

(** Equality of strings, character by character. *)
Fixpoint str_same (a b : str) : bool :=
  match a, b with
  | [], [] => true
  | x :: a', y :: b' => Ascii.eqb x y && str_same a' b'
  | _, _ => false
  end.

(** The test that [wait_for_element], [wait_for_element_gone],
    [scroll_to_text] and [assert_screen_contains] make on a dump. *)
Definition on_screen (text xml : str) : bool :=
  includes (toLowerCase xml) (toLowerCase text).

(** What the two waiting tools report as elapsed time. *)
Definition seconds_at (startTime : Z) (p : poll) : Z :=
  Math_round (inject_Z (returned_at p - startTime) / inject_Z 1000)%Q.

(** The terms of the two patterns of [get_focused_element]. *)
Definition focused_items : list regex :=
  map lit (js "focused='true'") ++ star_not ">" :: map lit (js "text='")
  ++ RGroup (Some 0) (RSeq (star_not dquote) REmpty) :: lit dquote :: star_not ">"
  :: tail_items 1.

Definition focused_alt_items : list regex :=
  tail_items 0 ++ star_not ">" :: map lit (js "focused='true'") ++ star_not ">"
  :: map lit (js "text='")
  ++ [RGroup (Some 4) (RSeq (star_not dquote) REmpty); lit dquote].

(** The attributes in front of [text] do not read [focused="true"]:
    [uiautomator] writes [focused] after [text]. *)
Definition focus_after_text (e : element) : bool :=
  clash_all false (js "focused='true'") (attrs_xml (el_lead e)).

(** The pattern fails at every position of [u], followed by [rest]. *)
Fixpoint dead (ic : bool) (c : compiled) (u rest : str) : Prop :=
  match u with
  | [] => True
  | a :: u' =>
      rmatch ic (re c) (a :: u' ++ rest) (repeat None (ncaps c)) final = None
      /\ dead ic c u' rest
  end.

(** A resourceId as the applications have them: characters without a
    meaning in a pattern, and dots, which the pattern reads as "any
    character".  No space, and no two dots in a row. *)
Definition id_charset (c : ascii) : charset := if Ascii.eqb c "." then CAny else CLit c.

Definition dotted_char (c : ascii) : bool :=
  (Ascii.eqb c "." || plain_char c) && negb (Ascii.eqb c " ").

Fixpoint no_dot_pair (q : str) : bool :=
  match q with
  | a :: (b :: _) as q' => negb (Ascii.eqb a "." && Ascii.eqb b ".") && no_dot_pair q'
  | _ => true
  end.

Definition dotted_id (q : str) : bool := forallb dotted_char q && no_dot_pair q.

(** The resource-id [w] is read by the resourceId [q]: same length, and at
    each position the same character up to case, or a dot in [q]. *)
Fixpoint id_matches (q w : str) : bool :=
  match q, w with
  | [], [] => true
  | a :: q', c :: w' => accepts true (id_charset a) c && id_matches q' w'
  | _, _ => false
  end.

Definition id_item (c : ascii) : regex := RChar (id_charset c).

Definition dotted_id_items (gap : regex) (q : str) : list regex :=
  map lit (js "resource-id='") ++ map id_item q ++ lit dquote :: gap :: tail_items 0.

Definition push_id_chars (st : pstate) (q : str) : pstate :=
  fold_left (fun st c => push_char st (id_charset c)) q st.

(** The name [s] ends with [n]. *)
Fixpoint has_suffix (s n : str) : bool :=
  str_same n s || match s with [] => false | _ :: s' => has_suffix s' n end.

(** The text of an attribute with the name [n] and the value [v], without
    the space in front of it. *)
Definition attr_text (n v : str) : str := n ++ "="%char :: dquote :: v ++ [dquote].

(** An attribute whose name ends with [n] and whose value is [v]. *)
Definition attr_reads (n v : str) (a : str * str) : bool :=
  has_suffix (fst a) n && str_same v (snd a).

(** The attributes of a node, in the order of the dump, [bounds] apart. *)
Definition el_attrs (e : element) : list (str * str) :=
  el_lead e
  ++ (js "text", el_text e) :: (js "resource-id", el_id e) :: (js "class", el_class e)
  :: el_more e.

(** The nodes that [get_clickable_elements] lists. *)
Definition reads_clickable (e : element) : bool :=
  existsb (attr_reads (js "clickable") (js "true")) (el_attrs e).

Definition reads_disabled (e : element) : bool :=
  existsb (attr_reads (js "enabled") (js "false")) (el_attrs e).

Definition clickable_listed (includeDisabled : bool) (e : element) : bool :=
  reads_clickable e && (includeDisabled || negb (reads_disabled e)).

(** The entry of [get_clickable_elements] for a node. *)
Definition el_clickable (e : element) : clickable :=
  {| ck_text := el_text e;
     ck_resourceId := el_id e;
     ck_className := last (split "." (el_class e)) [];
     ck_centerX := el_centerX e;
     ck_centerY := el_centerY e;
     ck_bounds := js "[" ++ dec (el_x1 e) ++ js "," ++ dec (el_y1 e) ++ js "]["
                  ++ dec (el_x2 e) ++ js "," ++ dec (el_y2 e) ++ js "]" |}.

(** The attributes in front of [text] do not read as a [class]
    attribute: [uiautomator] writes [index] there. *)
Definition class_after_text (e : element) : bool :=
  clash_all false (js "class='") (attrs_xml (el_lead e)).

(** Top to bottom, then left to right. *)
Definition ck_before (a b : clickable) : Prop :=
  match ck_centerY a, ck_centerY b, ck_centerX a, ck_centerX b with
  | Int ya, Int yb, Int xa, Int xb => (ya < yb \/ (ya = yb /\ xa <= xb))%Z
  | _, _, _, _ => False
  end.

Definition no_eq (s : str) : bool := forallb (fun c => negb (Ascii.eqb c "=")) s.

Definition no_space (s : str) : bool := forallb (fun c => negb (Ascii.eqb c " ")) s.

Definition name_char (c : ascii) : bool := value_char c && negb (Ascii.eqb c "=").

(** An attribute as the dump writes it: no [=] in the name, a value
    without a quote. *)
Definition plain_attr (a : str * str) : bool :=
  forallb name_char (fst a) && value_ok (snd a).

(** The end of a tag, the final [>] apart. *)
Definition tag_close (leaf : bool) : str := if leaf then js " /" else [].

(** A tag between [<node] and its final [>]. *)
Definition tag_body (leaf : bool) (e : element) : str :=
  attrs_xml (el_attrs e) ++ " "%char :: bounds_attr e ++ tag_close leaf.

(** A node cut in front of its [class] attribute. *)
Definition class_pre (e : element) : str :=
  js "<node" ++ attrs_xml (el_lead e) ++ js " text='" ++ el_text e ++ js "'"
  ++ js " resource-id='" ++ el_id e ++ js "' ".

(** The tags that the scan of [get_clickable_elements] finds. *)
Definition clickable_tags (items : list item) : list str :=
  flat_map (fun it =>
    match it with
    | Node leaf e => if reads_clickable e then [node_xml leaf e] else []
    | Close => []
    end) items.

(** The name [n] ends with [s], up to the case of letters. *)
Fixpoint ends_ci (n s : str) : bool :=
  eq_ci s n || match n with [] => false | _ :: n' => ends_ci n' s end.

(** The test by which a tool resolves a query, on the nodes of a dump. *)
Definition geb_criterion (text resourceId : option str) (e : element) : bool :=
  if truthy text then contains_ci (spliced text) (el_text e)
  else eq_ci (spliced resourceId) (el_id e).

Definition tap_criterion (text resourceId : option str) (exact : bool) (e : element) : bool :=
  if truthy resourceId then eq_ci (spliced resourceId) (el_id e)
  else text_matches exact (spliced text) e.

(** The queries that the statements read literally: the text that a tool
    goes by holds no double quote, the resourceId that it goes by holds no
    character with a meaning in a pattern. *)
Definition geb_query_ok (text resourceId : option str) : bool :=
  if truthy text then no_quote (spliced text)
  else truthy resourceId && plain_id (spliced resourceId).

Definition tap_query_ok (text resourceId : option str) : bool :=
  if truthy resourceId then plain_id (spliced resourceId)
  else truthy text && no_quote (spliced text).

(** The center of the bounds of a node, [round] being [Math.round]. *)
Definition el_center (e : element) : number * number :=
  (Int (Math_round (inject_Z (Z.of_N (el_x1 e) + Z.of_N (el_x2 e)) / inject_Z 2)%Q),
   Int (Math_round (inject_Z (Z.of_N (el_y1 e) + Z.of_N (el_y2 e)) / inject_Z 2)%Q)).






(** * Properties *)

(** ** The regular expression literals compile *)

Lemma regex_literals_compile :
  RegExp_new (js "text='([^']*)'.*?bounds='\[(\d+),(\d+)\]\[(\d+),(\d+)\]'")
    = POk get_ui_tree_regex
  /\ RegExp_new (js "text='([^']*)'[^>]*bounds='\[(\d+),(\d+)\]\[(\d+),(\d+)\]'")
    = POk get_all_text_regex
  /\ RegExp_new
       (js "(?:text='([^']*)')?[^>]*(?:class='([^']*)')?[^>]*bounds='\[(\d+),(\d+)\]\[(\d+),(\d+)\]'")
    = POk fingerprint_regex.
Proof. split; [|split]; vm_compute; reflexivity. Qed.

(** ** Characters *)

Ltac by_cases_on c :=
  destruct c as [[] [] [] [] [] [] [] []]; vm_compute; congruence.

(** The case of the accented letters: [upper] and [lower] fold them, the
    division and multiplication signs, the sharp s and the y with
    diaeresis apart. *)
Lemma case_of_accented_letters :
  upper "e" = "E"%char /\ upper "233" = "201"%char /\ upper "254" = "222"%char
  /\ upper "247" = "247"%char /\ upper "223" = "223"%char /\ upper "255" = "255"%char
  /\ lower "E" = "e"%char /\ lower "201" = "233"%char /\ lower "222" = "254"%char
  /\ lower "215" = "215"%char.
Proof. repeat split. Qed.

Lemma canon_dquote_l ic c : Ascii.eqb (canon ic dquote) (canon ic c) = Ascii.eqb dquote c.
Proof. destruct ic; by_cases_on c. Qed.

Lemma canon_dquote_r ic c : Ascii.eqb (canon ic c) (canon ic dquote) = Ascii.eqb c dquote.
Proof. destruct ic; by_cases_on c. Qed.

Lemma canon_eq_l ic c : Ascii.eqb (canon ic "=") (canon ic c) = Ascii.eqb "=" c.
Proof. destruct ic; by_cases_on c. Qed.

Lemma canon_gt_l ic c : Ascii.eqb (canon ic ">") (canon ic c) = Ascii.eqb ">" c.
Proof. destruct ic; by_cases_on c. Qed.

Lemma digit_not_b ic c : is_digit c = true -> Ascii.eqb (canon ic "b") (canon ic c) = false.
Proof. destruct ic; by_cases_on c. Qed.

Lemma digit_not_comma ic c :
  is_digit c = true -> Ascii.eqb (canon ic ",") (canon ic c) = false.
Proof. destruct ic; by_cases_on c. Qed.

Lemma digit_not_bracket ic c :
  is_digit c = true -> Ascii.eqb (canon ic "]") (canon ic c) = false.
Proof. destruct ic; by_cases_on c. Qed.

Lemma canon_refl ic c : Ascii.eqb (canon ic c) (canon ic c) = true.
Proof. apply Ascii.eqb_refl. Qed.

(** ** The matcher: continuations and sequences *)

Lemma or_else_none {A} (x : option A) : or_else x None = x.
Proof. destruct x; reflexivity. Qed.

Lemma rmatch_cons ic r rs s cs k :
  rmatch ic (seq_of (r :: rs)) s cs k
  = rmatch ic r s cs (fun s' cs' => rmatch ic (seq_of rs) s' cs' k).
Proof. reflexivity. Qed.

Lemma rmatch_lit_cons ic a rs c s cs k :
  rmatch ic (seq_of (lit a :: rs)) (c :: s) cs k
  = if Ascii.eqb (canon ic a) (canon ic c) then rmatch ic (seq_of rs) s cs k else None.
Proof. reflexivity. Qed.

Lemma rmatch_lits ic p rs : forall s cs k,
  rmatch ic (seq_of (map lit p ++ rs)) s cs k
  = match strip ic p s with
    | Some s' => rmatch ic (seq_of rs) s' cs k
    | None => None
    end.
Proof.
  induction p as [|a p IH]; intros s cs k; simpl.
  - reflexivity.
  - destruct s as [|c s]; [reflexivity|].
    destruct (Ascii.eqb (canon ic a) (canon ic c)); [apply IH | reflexivity].
Qed.

(** ** Literal prefixes *)

Lemma strip_same ic p s : strip ic p (p ++ s) = Some s.
Proof.
  induction p as [|x p IH]; simpl; [reflexivity|].
  rewrite canon_refl. exact IH.
Qed.

Lemma clash_strip ic p : forall u rest, clash ic p u = true -> strip ic p (u ++ rest) = None.
Proof.
  induction p as [|a p IH]; intros u rest H; simpl in *.
  - discriminate.
  - destruct u as [|c u]; [discriminate|]. simpl.
    destruct (Ascii.eqb (canon ic a) (canon ic c)); [apply IH; exact H | reflexivity].
Qed.

Lemma clash_all_nowhere ic p u rest : clash_all ic p u = true -> nowhere ic p u rest.
Proof.
  induction u as [|c u IH]; intros H; simpl in *.
  - exact I.
  - apply andb_prop in H. destruct H as [H1 H2]. split.
    + apply (clash_strip ic p (c :: u) rest H1).
    + apply IH. exact H2.
Qed.

Lemma nowhere_app ic p a b rest :
  nowhere ic p a (b ++ rest) -> nowhere ic p b rest -> nowhere ic p (a ++ b) rest.
Proof.
  induction a as [|c a IH]; simpl; intros Ha Hb.
  - exact Hb.
  - destruct Ha as [H1 H2]. split.
    + rewrite <- app_assoc. exact H1.
    + apply IH; assumption.
Qed.

Lemma nowhere_suffix ic p a b rest :
  nowhere ic p (a ++ b) rest -> nowhere ic p b rest.
Proof.
  induction a as [|c a IH]; simpl; intros H.
  - exact H.
  - apply IH. apply H.
Qed.

Lemma nowhere_prefix ic p a b rest :
  nowhere ic p (a ++ b) rest -> nowhere ic p a (b ++ rest).
Proof.
  induction a as [|c a IH]; simpl; intros H.
  - exact I.
  - destruct H as [H1 H2]. split.
    + rewrite <- app_assoc in H1. exact H1.
    + apply IH. exact H2.
Qed.

Lemma nowhere_first ic a p u rest :
  Forall (fun c => Ascii.eqb (canon ic a) (canon ic c) = false) u ->
  nowhere ic (a :: p) u rest.
Proof.
  induction 1 as [|c u Hc _ IH]; simpl.
  - exact I.
  - rewrite Hc. split; [reflexivity | exact IH].
Qed.

(** ** Repetitions *)

(** A greedy repetition takes all it can when what follows cannot start
    with a character of the class. *)
Lemma rep_greedy_all ok k : forall u s,
  (forall c s', ok c = true -> k (c :: s') = None) ->
  forallb ok u = true ->
  match s with c :: _ => ok c = false | [] => True end ->
  rep_greedy ok (u ++ s) k = k s.
Proof.
  intros u s Hk. induction u as [|c u IH]; intros Hu Hs; simpl.
  - destruct s as [|c s]; simpl; [reflexivity|]. rewrite Hs. reflexivity.
  - simpl in Hu. apply andb_prop in Hu. destruct Hu as [Hc Hu].
    rewrite Hc, (IH Hu Hs), (Hk c _ Hc). apply or_else_none.
Qed.

Lemma rep_greedy_pre ok k r : forall u x,
  forallb ok u = true -> rep_greedy ok x k = Some r -> rep_greedy ok (u ++ x) k = Some r.
Proof.
  induction u as [|c u IH]; intros x Hu Hx; simpl.
  - exact Hx.
  - simpl in Hu. apply andb_prop in Hu. destruct Hu as [Hc Hu].
    rewrite Hc, (IH x Hu Hx). reflexivity.
Qed.

(** A lazy repetition stops at the first position at which the
    continuation succeeds. *)
Lemma rep_lazy_skip ok k : forall u x,
  (forall n, n < length u -> k (skipn n u ++ x) = None) ->
  forallb ok u = true ->
  rep_lazy ok (u ++ x) k = rep_lazy ok x k.
Proof.
  induction u as [|c u IH]; intros x Hk Hu.
  - reflexivity.
  - simpl in Hu. apply andb_prop in Hu. destruct Hu as [Hc Hu].
    change (rep_lazy ok ((c :: u) ++ x) k)
      with (or_else (k (c :: u ++ x)) (if ok c then rep_lazy ok (u ++ x) k else None)).
    rewrite Hc. pose proof (Hk 0 ltac:(simpl; lia)) as H0. simpl in H0.
    rewrite H0. simpl.
    apply IH; [|exact Hu]. intros n Hn. apply (Hk (S n)). simpl. lia.
Qed.

Lemma rep_lazy_here ok k x r : k x = Some r -> rep_lazy ok x k = Some r.
Proof. intros H. destruct x; simpl; rewrite H; reflexivity. Qed.

Lemma nowhere_skipn ic p : forall u rest n,
  nowhere ic p u rest -> n < length u -> strip ic p (skipn n u ++ rest) = None.
Proof.
  induction u as [|c u IH]; intros rest n H Hn; simpl in *.
  - lia.
  - destruct n as [|n]; simpl.
    + apply H.
    + apply IH; [apply H | lia].
Qed.

(** ** Decimal numerals *)

Lemma small_cases (d : N) :
  (d < 10)%N ->
  (d = 0 \/ d = 1 \/ d = 2 \/ d = 3 \/ d = 4 \/ d = 5 \/ d = 6 \/ d = 7 \/ d = 8 \/ d = 9)%N.
Proof. lia. Qed.

Lemma digit_char_spec d :
  (d < 10)%N ->
  is_digit (digit_char d) = true /\ digit_value 10 (digit_char d) = Some (Z.of_N d).
Proof.
  intros H. apply small_cases in H.
  repeat (destruct H as [H|H]; [subst d; split; reflexivity|]).
  subst d; split; reflexivity.
Qed.

Lemma dec_digits_all fuel : forall n acc,
  forallb is_digit acc = true -> forallb is_digit (dec_digits fuel n acc) = true.
Proof.
  induction fuel as [|f IH]; intros n acc H; simpl.
  - exact H.
  - assert (Hd : is_digit (digit_char (n mod 10)%N) = true).
    { apply digit_char_spec. apply N.mod_lt. discriminate. }
    destruct (n / 10 =? 0)%N.
    + simpl. rewrite Hd. exact H.
    + apply IH. simpl. rewrite Hd. exact H.
Qed.

Lemma dec_digits_cons fuel : forall n acc,
  exists c u, dec_digits (S fuel) n acc = c :: u.
Proof.
  induction fuel as [|f IH]; intros n acc.
  - simpl. destruct (n / 10 =? 0)%N; eauto.
  - change (dec_digits (S (S f)) n acc)
      with (if (n / 10 =? 0)%N then digit_char (n mod 10)%N :: acc
            else dec_digits (S f) (n / 10)%N (digit_char (n mod 10)%N :: acc)).
    destruct (n / 10 =? 0)%N; eauto.
Qed.

Lemma dec_shape n :
  exists c u, dec n = c :: u /\ is_digit c = true /\ forallb is_digit u = true.
Proof.
  destruct (dec_digits_cons (N.to_nat n) n []) as (c & u & E).
  exists c, u. split; [exact E|].
  pose proof (dec_digits_all (S (N.to_nat n)) n [] eq_refl) as H.
  fold (dec n) in H. unfold dec in E. fold (dec n) in E. rewrite E in H. simpl in H.
  apply andb_prop in H. exact H.
Qed.

Lemma parse_dec_digits fuel : forall n acc,
  N.to_nat n < fuel ->
  parse_digits 10 None (dec_digits fuel n acc) = parse_digits 10 (Some (Z.of_N n)) acc.
Proof.
  induction fuel as [|f IH]; intros n acc Hf.
  - lia.
  - simpl dec_digits.
    destruct (@digit_char_spec (n mod 10)%N) as [_ Hv]; [apply N.mod_lt; discriminate|].
    pose proof (N.div_mod n 10 ltac:(discriminate)) as Hdm.
    destruct (N.eqb_spec (n / 10) 0) as [E|E].
    + simpl. rewrite Hv.
      replace (Z.of_N (n mod 10)) with (Z.of_N n) by (rewrite E in Hdm; lia).
      reflexivity.
    + rewrite IH.
      * simpl. rewrite Hv.
        replace (Z.of_N (n / 10) * 10 + Z.of_N (n mod 10))%Z with (Z.of_N n) by lia.
        reflexivity.
      * assert (Hn : n <> 0%N) by (intro; subst n; apply E; reflexivity).
        assert (H : (n / 10 < n)%N) by (apply N.div_lt; lia).
        clear - H Hf. generalize dependent (n / 10)%N. intros m Hm. lia.
Qed.

Lemma parse_dec n : parse_digits 10 None (dec n) = Some (Z.of_N n).
Proof. unfold dec. rewrite parse_dec_digits; [reflexivity | lia]. Qed.

Lemma parseInt_digits c u :
  is_digit c = true -> forallb is_digit u = true ->
  parseInt (Some (c :: u))
  = match parse_digits 10 None (c :: u) with Some v => Int v | None => NaN end.
Proof.
  intros Hc Hu. unfold parseInt.
  destruct c as [[] [] [] [] [] [] [] []]; vm_compute in Hc; try discriminate Hc;
    cbn [skip_spaces is_space existsb Ascii.eqb Bool.eqb orb andb];
    try (destruct (parse_digits _ _ _); [rewrite Z.mul_1_l|]; reflexivity).
  destruct u as [|c2 u].
  - reflexivity.
  - simpl in Hu. apply andb_prop in Hu. destruct Hu as [Hc2 _].
    destruct c2 as [[] [] [] [] [] [] [] []]; vm_compute in Hc2; try discriminate Hc2;
      (destruct (parse_digits _ _ _); [rewrite Z.mul_1_l|]; reflexivity).
Qed.

Lemma parseInt_dec n : parseInt (Some (dec n)) = Int (Z.of_N n).
Proof.
  destruct (dec_shape n) as (c & u & E & Hc & Hu).
  rewrite E, (parseInt_digits c u Hc Hu), <- E, parse_dec. reflexivity.
Qed.

(** ** The pattern of the [bounds] attribute *)

Lemma consumed_app (d s : str) : consumed (d ++ s) s = d.
Proof.
  unfold consumed. rewrite length_app.
  replace (length d + length s - length s) with (length d) by lia.
  rewrite firstn_app, firstn_all, Nat.sub_diag. simpl. apply app_nil_r.
Qed.

Lemma rmatch_digits ic i c u s cs k :
  is_digit c = true -> forallb is_digit u = true ->
  match s with c' :: _ => is_digit c' = false | [] => True end ->
  (forall c' s' cs', is_digit c' = true -> k (c' :: s') cs' = None) ->
  rmatch ic (digits_group i) ((c :: u) ++ s) cs k = k s (set_nth i (Some (c :: u)) cs).
Proof.
  intros Hc Hu Hs Hk. simpl. rewrite Hc.
  rewrite (rep_greedy_all (accepts ic CDigit) _ u s); try assumption.
  - pose proof (consumed_app (c :: u) s) as E.
    change ((c :: u) ++ s) with (c :: u ++ s) in E. rewrite E. reflexivity.
  - intros c' s' H'. apply Hk. exact H'.
Qed.

Lemma rmatch_tail_gen ic b d1 d2 d3 d4 rest cs k :
  is_numeral d1 -> is_numeral d2 -> is_numeral d3 -> is_numeral d4 ->
  rmatch ic (seq_of (tail_items b))
    (js "bounds='[" ++ d1 ++ ","%char :: d2 ++ "]"%char :: "["%char :: d3
       ++ ","%char :: d4 ++ "]"%char :: dquote :: rest) cs k
  = k rest (bounds_caps b d1 d2 d3 d4 cs).
Proof.
  intros (c1 & u1 & -> & Hc1 & Hu1) (c2 & u2 & -> & Hc2 & Hu2)
         (c3 & u3 & -> & Hc3 & Hu3) (c4 & u4 & -> & Hc4 & Hu4).
  unfold tail_items. rewrite rmatch_lits, strip_same.
  rewrite rmatch_cons, rmatch_digits; try assumption; try reflexivity.
  2:{ intros c' s' cs' H'. rewrite rmatch_lit_cons, (digit_not_comma ic c' H'). reflexivity. }
  rewrite rmatch_lit_cons, canon_refl.
  rewrite rmatch_cons, rmatch_digits; try assumption; try reflexivity.
  2:{ intros c' s' cs' H'. rewrite rmatch_lit_cons, (digit_not_bracket ic c' H'). reflexivity. }
  rewrite rmatch_lit_cons, canon_refl, rmatch_lit_cons, canon_refl.
  rewrite rmatch_cons, rmatch_digits; try assumption; try reflexivity.
  2:{ intros c' s' cs' H'. rewrite rmatch_lit_cons, (digit_not_comma ic c' H'). reflexivity. }
  rewrite rmatch_lit_cons, canon_refl.
  rewrite rmatch_cons, rmatch_digits; try assumption; try reflexivity.
  2:{ intros c' s' cs' H'. rewrite rmatch_lit_cons, (digit_not_bracket ic c' H'). reflexivity. }
  rewrite rmatch_lit_cons, canon_refl, rmatch_lit_cons, canon_refl.
  reflexivity.
Qed.

(** ** Compiling the patterns that the tools build *)

Lemma psteps_app a : forall st b,
  psteps st (a ++ b) = pbind (psteps st a) (fun st' => psteps st' b).
Proof.
  induction a as [|x a IH]; intros st b; simpl.
  - reflexivity.
  - destruct (pstep st x); simpl; [apply IH | reflexivity | reflexivity].
Qed.

(** A character without a meaning in a pattern stands for itself. *)
Lemma pstep_plain st c :
  ps_mode st = PNormal -> mem c escaped_chars = false ->
  pstep st c = POk (push_char st (CLit c)).
Proof.
  intros Hm Hc. unfold pstep. rewrite Hm. clear Hm.
  destruct c as [[] [] [] [] [] [] [] []]; vm_compute in Hc; try discriminate Hc;
    reflexivity.
Qed.

(** An escaped character stands for itself as well. *)
Lemma pstep_escaped st c :
  ps_mode st = PNormal -> mem c escaped_chars = true ->
  pbind (pstep st "\"%char) (fun st' => pstep st' c) = POk (push_char st (CLit c)).
Proof.
  intros Hm Hc. unfold pstep at 1. rewrite Hm. clear Hm.
  destruct c as [[] [] [] [] [] [] [] []]; vm_compute in Hc; try discriminate Hc;
    reflexivity.
Qed.

Lemma psteps_escapedText q : forall st,
  ps_mode st = PNormal -> psteps st (escapedText q) = POk (push_lits st q).
Proof.
  induction q as [|c q IH]; intros st Hm.
  - reflexivity.
  - unfold escapedText. cbn [flat_map]. fold (escapedText q).
    destruct (mem c escaped_chars) eqn:Hc.
    + cbn [app psteps].
      pose proof (pstep_escaped st c Hm Hc) as H.
      destruct (pstep st "\"%char) as [st1| |]; simpl in H; try discriminate H.
      simpl. rewrite H. simpl. apply IH. reflexivity.
    + cbn [app psteps]. rewrite (pstep_plain st c Hm Hc). simpl. apply IH. reflexivity.
Qed.

Lemma psteps_plain q : forall st,
  ps_mode st = PNormal -> plain_id q = true -> psteps st q = POk (push_lits st q).
Proof.
  induction q as [|c q IH]; intros st Hm Hq.
  - reflexivity.
  - simpl in Hq. apply andb_prop in Hq. destruct Hq as [Hc Hq].
    assert (Hc' : mem c escaped_chars = false).
    { unfold plain_char in Hc. apply negb_true_iff in Hc. unfold mem in *. simpl in Hc.
      apply orb_false_elim in Hc. apply Hc. }
    cbn [psteps]. rewrite (pstep_plain st c Hm Hc'). simpl. apply IH; [reflexivity | exact Hq].
Qed.

Lemma push_lits_pmid q : forall items l n,
  q <> [] ->
  push_lits (pmid items l n) q = pmid (rev (map lit q) ++ items) LChar n.
Proof.
  induction q as [|c q IH]; intros items l n Hq; [congruence|].
  destruct q as [|c' q].
  - reflexivity.
  - change (push_lits (pmid items l n) (c :: c' :: q))
      with (push_lits (pmid (lit c :: items) LChar n) (c' :: q)).
    rewrite IH by discriminate.
    cbn [map rev]. rewrite <- !app_assoc. reflexivity.
Qed.

Lemma RegExp_new_spliced a q b items_a la items_b n :
  q <> [] ->
  psteps pinit a = POk (pmid items_a la 0) ->
  (forall items, psteps (pmid items LChar 0) b = POk (pmid (items_b ++ items) LChar n)) ->
  forall q', psteps (pmid items_a la 0) q' = POk (push_lits (pmid items_a la 0) q) ->
  RegExp_new (a ++ q' ++ b)
  = POk {| re := seq_of (rev items_a ++ map lit q ++ rev items_b); ncaps := n |}.
Proof.
  intros Hq Ha Hb q' Hq'. unfold RegExp_new.
  rewrite psteps_app, Ha. simpl. rewrite psteps_app, Hq'. simpl.
  rewrite (push_lits_pmid q items_a la 0 Hq), Hb. simpl. unfold pfinish. simpl.
  rewrite !rev_app_distr, rev_involutive, <- app_assoc. reflexivity.
Qed.

Lemma compile_geb_text q :
  q <> [] ->
  RegExp_new (js "text='[^']*" ++ escapedText q ++ js "[^']*'.*?" ++ bounds_pattern)
  = POk {| re := seq_of (text_contains_items lazy_dots q); ncaps := 4 |}.
Proof.
  intros Hq.
  rewrite (RegExp_new_spliced (js "text='[^']*") q (js "[^']*'.*?" ++ bounds_pattern)
             (rev (map lit (js "text='") ++ [star_not dquote])) LQuant
             (rev (star_not dquote :: lit dquote :: lazy_dots :: tail_items 0)) 4 Hq).
  - reflexivity.
  - vm_compute; reflexivity.
  - intros items; vm_compute; reflexivity.
  - apply psteps_escapedText. reflexivity.
Qed.

Lemma compile_tap_contains q :
  q <> [] ->
  RegExp_new (js "text='[^']*" ++ escapedText q ++ js "[^']*'[^>]*" ++ bounds_pattern)
  = POk {| re := seq_of (text_contains_items (star_not ">") q); ncaps := 4 |}.
Proof.
  intros Hq.
  rewrite (RegExp_new_spliced (js "text='[^']*") q (js "[^']*'[^>]*" ++ bounds_pattern)
             (rev (map lit (js "text='") ++ [star_not dquote])) LQuant
             (rev (star_not dquote :: lit dquote :: star_not ">" :: tail_items 0)) 4 Hq).
  - reflexivity.
  - vm_compute; reflexivity.
  - intros items; vm_compute; reflexivity.
  - apply psteps_escapedText. reflexivity.
Qed.

Lemma compile_tap_exact q :
  q <> [] ->
  RegExp_new (js "text='" ++ escapedText q ++ js "'[^>]*" ++ bounds_pattern)
  = POk {| re := seq_of (text_exact_items (star_not ">") q); ncaps := 4 |}.
Proof.
  intros Hq.
  rewrite (RegExp_new_spliced (js "text='") q (js "'[^>]*" ++ bounds_pattern)
             (rev (map lit (js "text='"))) LChar
             (rev (lit dquote :: star_not ">" :: tail_items 0)) 4 Hq).
  - reflexivity.
  - vm_compute; reflexivity.
  - intros items; vm_compute; reflexivity.
  - apply psteps_escapedText. reflexivity.
Qed.

Lemma compile_geb_id q :
  q <> [] -> plain_id q = true ->
  RegExp_new (js "resource-id='" ++ q ++ js "'.*?" ++ bounds_pattern)
  = POk {| re := seq_of (id_items lazy_dots q); ncaps := 4 |}.
Proof.
  intros Hq Hp.
  rewrite (RegExp_new_spliced (js "resource-id='") q (js "'.*?" ++ bounds_pattern)
             (rev (map lit (js "resource-id='"))) LChar
             (rev (lit dquote :: lazy_dots :: tail_items 0)) 4 Hq).
  - reflexivity.
  - vm_compute; reflexivity.
  - intros items; vm_compute; reflexivity.
  - apply psteps_plain; [reflexivity | exact Hp].
Qed.

Lemma compile_tap_id q :
  q <> [] -> plain_id q = true ->
  RegExp_new (js "resource-id='" ++ q ++ js "'[^>]*" ++ bounds_pattern)
  = POk {| re := seq_of (id_items (star_not ">") q); ncaps := 4 |}.
Proof.
  intros Hq Hp.
  rewrite (RegExp_new_spliced (js "resource-id='") q (js "'[^>]*" ++ bounds_pattern)
             (rev (map lit (js "resource-id='"))) LChar
             (rev (lit dquote :: star_not ">" :: tail_items 0)) 4 Hq).
  - reflexivity.
  - vm_compute; reflexivity.
  - intros items; vm_compute; reflexivity.
  - apply psteps_plain; [reflexivity | exact Hp].
Qed.

Lemma literal_get_all_text :
  get_all_text_regex = {| re := seq_of (text_capture_items (star_not ">")); ncaps := 5 |}.
Proof. vm_compute; reflexivity. Qed.

Lemma literal_get_ui_tree :
  get_ui_tree_regex = {| re := seq_of (text_capture_items lazy_dots); ncaps := 5 |}.
Proof. vm_compute; reflexivity. Qed.

(** ** The scans terminate *)









(** ** The replies of the locator tools, given the array [matches] *)

Lemma provided text rid :
  (truthy text || truthy rid)%bool = true ->
  (negb (truthy text) && negb (truthy rid))%bool = false.
Proof. destruct (truthy text), (truthy rid); simpl; congruence. Qed.

Section Replies.
Variables (text rid : option str) (xml : str) (ms : list rect) (i : Z).
Hypothesis Hq : (truthy text || truthy rid)%bool = true.

Section Geb.
Hypothesis Hms : collect_matches (geb_pattern text rid) xml = Returned ms.




Lemma geb_negative :
  ms <> [] -> (i < 0)%Z -> get_element_bounds text rid (Some i) xml = Throws TypeError.
Proof.
  intros Hne Hi. unfold get_element_bounds. rewrite (provided _ _ Hq), Hms.
  destruct ms as [|m0 l]; [congruence|]. cbn [length Nat.eqb default_index].
  destruct (Z.geb_spec i (Z.of_nat (S (length l)))) as [C|_]; [lia|].
  unfold array_get. destruct (Z.ltb_spec i 0) as [_|C]; [reflexivity | lia].
Qed.
End Geb.

Section Tap.
Variable exact : option bool.
Let exact' := match exact with Some b => b | None => false end.
Hypothesis Hms : collect_matches (tap_pattern text rid exact') xml = Returned ms.

Lemma tap_not_found index :
  ms = [] ->
  tap_element text rid index exact xml
  = Returned (TapNotFound (tap_search_type text rid exact')).
Proof.
  intros ->. unfold tap_element. fold exact'. rewrite (provided _ _ Hq), Hms. reflexivity.
Qed.


Lemma tap_found m :
  (0 <= i)%Z -> nth_error ms (Z.to_nat i) = Some m ->
  tap_element text rid (Some i) exact xml
  = Returned (Tapped (tap_search_type text rid exact')
                (round_half_sum (x1 m) (x2 m)) (round_half_sum (y1 m) (y2 m))
                (if Nat.ltb 1 (length ms) then Some ((i + 1)%Z, length ms) else None)).
Proof.
  intros Hi Hn. unfold tap_element. fold exact'. rewrite (provided _ _ Hq), Hms.
  assert (Hlt : Z.to_nat i < length ms) by (apply nth_error_Some; congruence).
  destruct ms as [|m0 l]; [simpl in Hlt; lia|]. cbn [length Nat.eqb default_index].
  destruct (Z.geb_spec i (Z.of_nat (S (length l)))) as [C|_];
    [cbn [length] in Hlt; lia|].
  unfold array_get. destruct (Z.ltb_spec i 0) as [C|_]; [lia|].
  rewrite Hn. reflexivity.
Qed.

Lemma tap_negative :
  ms <> [] -> (i < 0)%Z -> tap_element text rid (Some i) exact xml = Throws TypeError.
Proof.
  intros Hne Hi. unfold tap_element. fold exact'. rewrite (provided _ _ Hq), Hms.
  destruct ms as [|m0 l]; [congruence|]. cbn [length Nat.eqb default_index].
  destruct (Z.geb_spec i (Z.of_nat (S (length l)))) as [C|_]; [lia|].
  unfold array_get. destruct (Z.ltb_spec i 0) as [_|C]; [reflexivity | lia].
Qed.
End Tap.
End Replies.

(** ** Attribute values *)

Lemma value_char_spec c :
  value_char c = true ->
  Ascii.eqb dquote c = false /\ Ascii.eqb ">" c = false /\ mem c [LF; CR] = false.
Proof.
  destruct c as [[] [] [] [] [] [] [] []]; vm_compute; intros H;
    repeat split; congruence.
Qed.

Lemma value_ok_chars v : value_ok v = true -> forallb value_char v = true.
Proof. unfold value_ok. intros H. apply andb_prop in H. apply H. Qed.

Lemma value_ok_tail c v : value_ok (c :: v) = true -> value_ok v = true.
Proof.
  unfold value_ok. intros H. apply andb_prop in H. destruct H as [H1 H2].
  simpl in H1. apply andb_prop in H1. destruct H1 as [_ H1]. rewrite H1. simpl.
  destruct v as [|c' v]; [reflexivity | exact H2].
Qed.

Lemma value_ok_forall (f : ascii -> bool) v :
  (forall c, value_char c = true -> f c = true) -> value_ok v = true -> forallb f v = true.
Proof.
  intros H Hv. apply value_ok_chars in Hv.
  induction v as [|c v IH]; simpl; [reflexivity|].
  simpl in Hv. apply andb_prop in Hv. destruct Hv as [Hc Hv].
  rewrite (H c Hc). apply IH. exact Hv.
Qed.

Lemma value_ok_skipn v : forall n, value_ok v = true -> value_ok (skipn n v) = true.
Proof.
  induction v as [|c v IH]; intros [|n] H; simpl; try reflexivity; try exact H.
  apply IH. apply (value_ok_tail c v H).
Qed.

(** A pattern that reads a name, [=] and a quote matches nowhere inside a
    value: the quote of the pattern can only be the one that closes the
    value, and the value does not end with [=]. *)
Lemma strip_in_value ic name p : forall w rest,
  no_quote name = true -> value_ok w = true ->
  strip ic (name ++ "="%char :: dquote :: p) (w ++ dquote :: rest) = None.
Proof.
  induction name as [|a name IH]; intros w rest Hn Hw.
  - destruct w as [|c w]; cbn [app strip].
    + rewrite canon_eq_l. reflexivity.
    + rewrite canon_eq_l. destruct (Ascii.eqb_spec "=" c) as [<-|_]; [|reflexivity].
      destruct w as [|c2 w]; [discriminate Hw|]. cbn [app strip].
      apply value_ok_tail, value_ok_chars in Hw. simpl in Hw.
      apply andb_prop in Hw. destruct Hw as [Hc _].
      apply value_char_spec in Hc. destruct Hc as (Hc & _).
      rewrite canon_dquote_l, Hc. reflexivity.
  - simpl in Hn. apply andb_prop in Hn. destruct Hn as [Ha Hn].
    destruct w as [|c w]; cbn [app strip].
    + rewrite canon_dquote_r. apply negb_true_iff in Ha. rewrite Ha. reflexivity.
    + destruct (Ascii.eqb (canon ic a) (canon ic c)); [|reflexivity].
      apply IH; [exact Hn | apply (value_ok_tail c w Hw)].
Qed.

Lemma nowhere_value ic name p w rest :
  no_quote name = true -> value_ok w = true ->
  nowhere ic (name ++ "="%char :: dquote :: p) w (dquote :: rest).
Proof.
  intros Hn. induction w as [|c w IH]; intros Hw; simpl.
  - exact I.
  - split.
    + apply (strip_in_value ic name p (c :: w) rest Hn Hw).
    + apply IH. apply (value_ok_tail c w Hw).
Qed.

Lemma forallb_pointwise {A} (f g : A -> bool) l :
  (forall x, f x = g x) -> forallb f l = forallb g l.
Proof.
  intros H. induction l as [|x l IH]; simpl; [reflexivity|]. rewrite H, IH. reflexivity.
Qed.

Lemma accepts_not_gt ic c : accepts ic (CClass true [">"%char]) c = negb (Ascii.eqb ">" c).
Proof. simpl. rewrite canon_gt_l, orb_false_r. reflexivity. Qed.

Lemma accepts_not_dquote ic c : accepts ic (CClass true [dquote]) c = negb (Ascii.eqb dquote c).
Proof. simpl. rewrite canon_dquote_l, orb_false_r. reflexivity. Qed.

Lemma value_no_dquote ic v :
  value_ok v = true -> forallb (accepts ic (CClass true [dquote])) v = true.
Proof.
  apply value_ok_forall. intros c Hc. rewrite accepts_not_dquote.
  apply value_char_spec in Hc. destruct Hc as (H & _). rewrite H. reflexivity.
Qed.

(** ** The head of a pattern, read at the [text] or [resource-id] attribute *)

(** The repetition of non-quotes and the quote, after the value [w]. *)
Lemma rmatch_rest_of_value ic w s rs cs k :
  value_ok w = true ->
  rmatch ic (seq_of (star_not dquote :: lit dquote :: rs)) (w ++ dquote :: s) cs k
  = rmatch ic (seq_of rs) s cs k.
Proof.
  intros Hw. rewrite rmatch_cons. unfold star_not. cbn [rmatch].
  rewrite rep_greedy_all.
  - rewrite rmatch_lit_cons, canon_refl. reflexivity.
  - intros c s' Hc. rewrite rmatch_lit_cons, canon_dquote_l.
    rewrite accepts_not_dquote in Hc. apply negb_true_iff in Hc. rewrite Hc. reflexivity.
  - apply value_no_dquote. exact Hw.
  - rewrite accepts_not_dquote. reflexivity.
Qed.

(** The capturing group around the repetition captures the value. *)
Lemma rmatch_capture_value ic i w s rs cs k :
  value_ok w = true ->
  rmatch ic (seq_of (RGroup (Some i) (RSeq (star_not dquote) REmpty) :: lit dquote :: rs))
    (w ++ dquote :: s) cs k
  = rmatch ic (seq_of rs) s (set_nth i (Some w) cs) k.
Proof.
  intros Hw. rewrite rmatch_cons. unfold star_not. cbn [rmatch].
  rewrite rep_greedy_all.
  - rewrite rmatch_lit_cons, canon_refl, consumed_app. reflexivity.
  - intros c s' Hc. rewrite rmatch_lit_cons, canon_dquote_l.
    rewrite accepts_not_dquote in Hc. apply negb_true_iff in Hc. rewrite Hc. reflexivity.
  - apply value_no_dquote. exact Hw.
  - rewrite accepts_not_dquote. reflexivity.
Qed.

(** A literal query followed by the closing quote matches a whole value. *)
Lemma strip_eq_ci q : forall w s,
  no_quote q = true -> value_ok w = true ->
  strip true (q ++ [dquote]) (w ++ dquote :: s) = if eq_ci q w then Some s else None.
Proof.
  induction q as [|a q IH]; intros w s Hq Hw.
  - destruct w as [|c w]; cbn [app strip eq_ci].
    + rewrite canon_refl. reflexivity.
    + pose proof (value_ok_chars _ Hw) as Hw0. simpl in Hw0.
      apply andb_prop in Hw0. destruct Hw0 as [Hc _].
      apply value_char_spec in Hc. destruct Hc as (Hc & _).
      rewrite canon_dquote_l, Hc. reflexivity.
  - simpl in Hq. apply andb_prop in Hq. destruct Hq as [Ha Hq].
    destruct w as [|c w]; cbn [app strip eq_ci].
    + rewrite canon_dquote_r. apply negb_true_iff in Ha. rewrite Ha. reflexivity.
    + apply value_ok_tail in Hw.
      change (canon true a) with (upper a). change (canon true c) with (upper c).
      destruct (Ascii.eqb (upper a) (upper c)); [apply IH; assumption | reflexivity].
Qed.

(** A literal query matches a prefix of a value. *)
Lemma strip_prefix_ci q : forall w s,
  no_quote q = true ->
  strip true q (w ++ dquote :: s)
  = if prefix_ci q w then Some (skipn (length q) w ++ dquote :: s) else None.
Proof.
  induction q as [|a q IH]; intros w s Hq.
  - reflexivity.
  - simpl in Hq. apply andb_prop in Hq. destruct Hq as [Ha Hq].
    destruct w as [|c w]; cbn [app strip prefix_ci length skipn].
    + rewrite canon_dquote_r. apply negb_true_iff in Ha. rewrite Ha. reflexivity.
    + change (canon true a) with (upper a). change (canon true c) with (upper c).
      destruct (Ascii.eqb (upper a) (upper c)); [apply IH; assumption | reflexivity].
Qed.

(** The query between two repetitions of non-quotes succeeds when the
    value contains the query; every way of placing the query leads to the
    same continuation. *)
Lemma rmatch_contains q rs s cs k : forall w,
  no_quote q = true -> value_ok w = true ->
  rmatch true (seq_of (star_not dquote :: map lit q ++ star_not dquote :: lit dquote :: rs))
    (w ++ dquote :: s) cs k
  = if contains_ci q w then rmatch true (seq_of rs) s cs k else None.
Proof.
  intros w Hq Hw. rewrite rmatch_cons. unfold star_not at 1. cbn [rmatch].
  set (K := fun s' : str =>
    rmatch true (seq_of (map lit q ++ star_not dquote :: lit dquote :: rs)) s' cs k).
  set (R := rmatch true (seq_of rs) s cs k).
  set (ok := accepts true (CClass true [dquote])).
  assert (HK : forall v, value_ok v = true ->
    K (v ++ dquote :: s) = if prefix_ci q v then R else None).
  { intros v Hv. unfold K. rewrite rmatch_lits, (strip_prefix_ci q v s Hq).
    destruct (prefix_ci q v); [|reflexivity].
    apply rmatch_rest_of_value. apply value_ok_skipn. exact Hv. }
  assert (Hend : ok dquote = false).
  { unfold ok. rewrite accepts_not_dquote. reflexivity. }
  clearbody K R. induction w as [|c w IH].
  - change (rep_greedy ok ([] ++ dquote :: s) K) with (if ok dquote then
      or_else (rep_greedy ok s K) (K ([] ++ dquote :: s)) else K ([] ++ dquote :: s)).
    rewrite Hend, (HK [] eq_refl). cbn [contains_ci]. rewrite orb_false_r. reflexivity.
  - pose proof (value_ok_tail _ _ Hw) as Hw'.
    pose proof (value_ok_chars _ Hw) as Hc. simpl in Hc.
    apply andb_prop in Hc. destruct Hc as [Hc _].
    assert (Hok : ok c = true).
    { unfold ok. rewrite accepts_not_dquote. apply value_char_spec in Hc.
      destruct Hc as (Hc & _). rewrite Hc. reflexivity. }
    change (rep_greedy ok ((c :: w) ++ dquote :: s) K) with (if ok c then
      or_else (rep_greedy ok (w ++ dquote :: s) K) (K ((c :: w) ++ dquote :: s))
      else K ((c :: w) ++ dquote :: s)).
    rewrite Hok, (IH Hw'), (HK (c :: w) Hw).
    cbn [contains_ci].
    destruct (prefix_ci q (c :: w)), (contains_ci q w), R; reflexivity.
Qed.


(** ** The pattern of [bounds] at a node *)

Lemma dec_numeral n : is_numeral (dec n).
Proof. exact (dec_shape n). Qed.

Lemma bounds_attr_shape e rest :
  bounds_attr e ++ rest
  = js "bounds='[" ++ dec (el_x1 e) ++ ","%char :: dec (el_y1 e) ++ "]"%char :: "["%char
      :: dec (el_x2 e) ++ ","%char :: dec (el_y2 e) ++ "]"%char :: dquote :: rest.
Proof. unfold bounds_attr. repeat rewrite <- app_assoc. reflexivity. Qed.

Lemma rmatch_tail ic b e rest cs k :
  rmatch ic (seq_of (tail_items b)) (bounds_attr e ++ rest) cs k
  = k rest (el_bounds_caps b e cs).
Proof.
  rewrite bounds_attr_shape. apply rmatch_tail_gen; apply dec_numeral.
Qed.

(** The pattern of [bounds] fails where the input does not start with b. *)
Lemma tail_needs_b ic b c s cs k :
  Ascii.eqb (canon ic "b") (canon ic c) = false ->
  rmatch ic (seq_of (tail_items b)) (c :: s) cs k = None.
Proof.
  intros H. unfold tail_items. rewrite rmatch_lits.
  change (js "bounds='[") with ("b"%char :: js "ounds='["). simpl strip.
  rewrite H. reflexivity.
Qed.

Lemma tail_nowhere ic b u rest cs k n :
  nowhere ic (js "bounds='[") u rest -> n < length u ->
  rmatch ic (seq_of (tail_items b)) (skipn n u ++ rest) cs k = None.
Proof.
  intros H Hn. unfold tail_items. rewrite rmatch_lits.
  rewrite (nowhere_skipn ic _ u rest n H Hn). reflexivity.
Qed.

Lemma rep_greedy_dead ok k (bad : ascii -> bool) :
  (forall c s', bad c = true -> k (c :: s') = None) ->
  forall v c1 rest, forallb bad v = true -> bad c1 = true -> ok c1 = false ->
  rep_greedy ok (v ++ c1 :: rest) k = None.
Proof.
  intros Hk v c1 rest. induction v as [|c v IH]; intros Hv H1 Hok; simpl.
  - rewrite Hok. apply Hk. exact H1.
  - simpl in Hv. apply andb_prop in Hv. destruct Hv as [Hc Hv].
    rewrite (IH Hv H1 Hok), (Hk c _ Hc). destruct (ok c); reflexivity.
Qed.

Lemma rep_greedy_last ok k (bad : ascii -> bool) :
  (forall c s', bad c = true -> k (c :: s') = None) ->
  forall c0 v c1 rest, ok c0 = true -> forallb bad v = true -> bad c1 = true ->
  ok c1 = false ->
  rep_greedy ok (c0 :: v ++ c1 :: rest) k = k (c0 :: v ++ c1 :: rest).
Proof.
  intros Hk c0 v c1 rest H0 Hv H1 Hok. simpl. rewrite H0.
  rewrite (rep_greedy_dead ok k bad Hk v c1 rest Hv H1 Hok). reflexivity.
Qed.

Lemma nowhere_first_b ic a p u rest :
  forallb (differs ic a) u = true -> nowhere ic (a :: p) u rest.
Proof.
  intros H. apply nowhere_first. apply Forall_forall. intros c Hc.
  rewrite forallb_forall in H. specialize (H c Hc). unfold differs in H.
  apply negb_true_iff in H. exact H.
Qed.

Lemma digit_not_t ic c : is_digit c = true -> Ascii.eqb (canon ic "t") (canon ic c) = false.
Proof. destruct ic; by_cases_on c. Qed.

Lemma digit_not_r ic c : is_digit c = true -> Ascii.eqb (canon ic "r") (canon ic c) = false.
Proof. destruct ic; by_cases_on c. Qed.

Lemma dec_differs ic a n :
  (forall c, is_digit c = true -> Ascii.eqb (canon ic a) (canon ic c) = false) ->
  forallb (differs ic a) (dec n) = true.
Proof.
  intros H. destruct (dec_shape n) as (c & u & E & Hc & Hu). rewrite E.
  assert (G : forall v, forallb is_digit v = true -> forallb (differs ic a) v = true).
  { induction v as [|x v IH]; simpl; intros Hv; [reflexivity|].
    apply andb_prop in Hv. destruct Hv as [Hx Hv].
    unfold differs at 1. rewrite (H x Hx). simpl. apply IH. exact Hv. }
  apply (G (c :: u)). simpl. rewrite Hc. exact Hu.
Qed.

(** The [bounds] attribute and the end of the tag hold none of t, r, b,
    the first letter of the attribute apart. *)
Lemma bounds_attr_cons e :
  exists v, bounds_attr e = "b"%char :: v
    /\ forall ic a,
         (forall c, is_digit c = true -> Ascii.eqb (canon ic a) (canon ic c) = false) ->
         forallb (differs ic a) (js "ounds='[],] />") = true ->
         forall leaf, forallb (differs ic a) (v ++ tag_end leaf) = true.
Proof.
  eexists. split.
  - unfold bounds_attr. change (js "bounds='[") with ("b"%char :: js "ounds='[").
    repeat rewrite <- app_comm_cons. reflexivity.
  - intros ic a Hd Hf leaf.
    rewrite !forallb_app, !(dec_differs ic a _ Hd).
    cbn [forallb js map list_ascii_of_string] in *.
    repeat match type of Hf with
           | (_ && _)%bool = true => apply andb_prop in Hf; destruct Hf as [? Hf]
           end.
    destruct leaf; cbn [tag_end forallb js map list_ascii_of_string];
      repeat match goal with H : ?x = true |- context [?x] => rewrite H end;
      reflexivity.
Qed.

(** The repetition of non-[>] followed by the pattern of [bounds], read
    from inside a tag whose last [bounds] attribute is the one of [e]. *)
Lemma rmatch_gap_greedy ic b e leaf mid rest cs :
  forallb (fun c => negb (Ascii.eqb ">" c)) mid = true ->
  rmatch ic (seq_of (star_not ">" :: tail_items b))
    (mid ++ bounds_attr e ++ tag_end leaf ++ rest) cs final
  = Some (el_bounds_caps b e cs, tag_end leaf ++ rest).
Proof.
  intros Hmid. rewrite rmatch_cons. unfold star_not. cbn [rmatch].
  apply rep_greedy_pre.
  - rewrite (forallb_pointwise _ (fun c => negb (Ascii.eqb ">" c)) mid (accepts_not_gt ic)).
    exact Hmid.
  - destruct (bounds_attr_cons e) as (v & Ev & Hv).
    pose proof (rmatch_tail ic b e (tag_end leaf ++ rest) cs final) as Ht.
    rewrite Ev in *.
    assert (E : exists v2, ("b"%char :: v) ++ tag_end leaf ++ rest
                = "b"%char :: (v ++ v2) ++ ">"%char :: rest
                /\ v ++ tag_end leaf = (v ++ v2) ++ [">"%char]).
    { destruct leaf.
      - exists (js " /"). split; simpl; rewrite <- app_assoc; reflexivity.
      - exists []. split; simpl; rewrite <- app_assoc; reflexivity. }
    destruct E as (v2 & E & E2). rewrite E in *.
    assert (Hb : forallb (differs ic "b") ((v ++ v2) ++ [">"%char]) = true).
    { rewrite <- E2. apply Hv; [apply digit_not_b | destruct ic; reflexivity]. }
    rewrite forallb_app in Hb. apply andb_prop in Hb. destruct Hb as [Hb1 Hb2].
    rewrite (rep_greedy_last _ _ (differs ic "b")).
    + exact Ht.
    + intros c s' Hc. apply tail_needs_b. apply negb_true_iff. exact Hc.
    + rewrite accepts_not_gt. reflexivity.
    + exact Hb1.
    + simpl in Hb2. rewrite andb_true_r in Hb2. exact Hb2.
    + rewrite accepts_not_gt. reflexivity.
Qed.

(** The lazy repetition followed by the pattern of [bounds]: the first
    [bounds] attribute on the line is found. *)
Lemma rmatch_gap_lazy ic b e mid rest cs :
  forallb (fun c => negb (mem c [LF; CR])) mid = true ->
  nowhere ic (js "bounds='[") mid (bounds_attr e ++ rest) ->
  rmatch ic (seq_of (lazy_dots :: tail_items b)) (mid ++ bounds_attr e ++ rest) cs final
  = Some (el_bounds_caps b e cs, rest).
Proof.
  intros Hmid Hno. rewrite rmatch_cons. unfold lazy_dots. cbn [rmatch].
  rewrite rep_lazy_skip.
  - apply rep_lazy_here. apply rmatch_tail.
  - intros n Hn. apply tail_nowhere; assumption.
  - exact Hmid.
Qed.


(** ** The attributes of a node *)

Lemma wf_element_parts e :
  wf_element e = true ->
  value_ok (el_text e) = true /\ value_ok (el_id e) = true /\ value_ok (el_class e) = true
  /\ forallb attr_ok (el_lead e) = true /\ forallb attr_ok (el_more e) = true.
Proof.
  unfold wf_element. intros H.
  do 4 (apply andb_prop in H; destruct H as [H ?]). repeat split; assumption.
Qed.

Lemma glue_nowhere ic p gl g rest :
  glue_clashes ic p gl = true -> In g gl -> nowhere ic p g rest.
Proof.
  intros H Hg. apply clash_all_nowhere. unfold glue_clashes in H.
  rewrite forallb_forall in H. apply H. exact Hg.
Qed.

Ltac glue H := apply (glue_nowhere _ _ _ _ _ H); simpl; tauto.

(** The scanned prefixes read a name, [=] and a quote. *)
Lemma scanned_shape p :
  In p scanned_prefixes ->
  exists name p', p = name ++ "="%char :: dquote :: p' /\ no_quote name = true
    /\ forall ic, glue_clashes ic p [js "'"; js " "; js "<node"; js "</node>";
                                 js "</hierarchy>"; xml_header; js " class='";
                                 js " />"; js ">"] = true.
Proof.
  intros [<-|[<-|[<-|[]]]].
  - exists (js "text"), []. repeat split; try reflexivity. intros []; vm_compute; reflexivity.
  - exists (js "resource-id"), []. repeat split; try reflexivity.
    intros []; vm_compute; reflexivity.
  - exists (js "bounds"), ["["%char]. repeat split; try reflexivity.
    intros []; vm_compute; reflexivity.
Qed.

Lemma name_ok_clash ic p n :
  In p scanned_prefixes -> name_ok n = true ->
  clash_all ic p (js " " ++ n ++ js "='") = true.
Proof.
  intros Hp Hn. unfold name_ok in Hn. apply andb_prop in Hn. destruct Hn as [_ Hn].
  rewrite forallb_forall in Hn. specialize (Hn p Hp).
  apply andb_prop in Hn. destruct Hn as [H1 H2]. destruct ic; assumption.
Qed.

Lemma attr_nowhere ic p a rest :
  In p scanned_prefixes -> attr_ok a = true -> nowhere ic p (attr_xml a) rest.
Proof.
  intros Hp Ha. destruct a as [n v]. unfold attr_ok in Ha. cbn [fst snd] in Ha.
  apply andb_prop in Ha. destruct Ha as [Hn Hv].
  pose proof (name_ok_clash ic p n Hp Hn) as Hc.
  destruct (scanned_shape p Hp) as (name & p' & -> & Hq & Hg). specialize (Hg ic).
  unfold attr_xml. cbn [fst snd].
  replace (js " " ++ n ++ js "='" ++ v ++ js "'")
    with ((js " " ++ n ++ js "='") ++ v ++ js "'")
    by (repeat rewrite <- app_assoc; reflexivity).
  apply nowhere_app; [apply clash_all_nowhere; exact Hc|].
  apply nowhere_app; [apply (nowhere_value ic name p'); assumption|].
  glue Hg.
Qed.

Lemma attrs_nowhere ic p l rest :
  In p scanned_prefixes -> forallb attr_ok l = true -> nowhere ic p (attrs_xml l) rest.
Proof.
  intros Hp. induction l as [|a l IH]; intros Hl; [exact I|].
  simpl in Hl. apply andb_prop in Hl. destruct Hl as [Ha Hl].
  unfold attrs_xml. cbn [map concat]. fold (attrs_xml l).
  apply nowhere_app; [apply attr_nowhere; assumption | apply IH; exact Hl].
Qed.

Lemma attr_forall (f : ascii -> bool) a :
  (forall c, value_char c = true -> f c = true) ->
  forallb f (js " ='") = true ->
  attr_ok a = true -> forallb f (attr_xml a) = true.
Proof.
  intros Hf Hg Ha. destruct a as [n v]. unfold attr_ok in Ha. cbn [fst snd] in Ha.
  apply andb_prop in Ha. destruct Ha as [Hn Hv].
  unfold name_ok in Hn. apply andb_prop in Hn. destruct Hn as [Hn _].
  assert (Hn' : forallb f n = true).
  { clear - Hf Hn. induction n as [|c n IH]; simpl; [reflexivity|].
    simpl in Hn. apply andb_prop in Hn. destruct Hn as [Hc Hn].
    apply andb_prop in Hc. destruct Hc as [Hc _]. rewrite (Hf c Hc). apply IH. exact Hn. }
  cbn [forallb js map list_ascii_of_string] in Hg.
  repeat (apply andb_prop in Hg; destruct Hg as [? Hg]).
  unfold attr_xml. cbn [fst snd].
  rewrite !forallb_app, Hn', (value_ok_forall f v Hf Hv).
  cbn [forallb js map list_ascii_of_string].
  repeat match goal with H : ?x = true |- context [?x] => rewrite H end.
  reflexivity.
Qed.

Lemma attrs_forall (f : ascii -> bool) l :
  (forall c, value_char c = true -> f c = true) ->
  forallb f (js " ='") = true ->
  forallb attr_ok l = true -> forallb f (attrs_xml l) = true.
Proof.
  intros Hf Hg. induction l as [|a l IH]; intros Hl; [reflexivity|].
  simpl in Hl. apply andb_prop in Hl. destruct Hl as [Ha Hl].
  unfold attrs_xml. cbn [map concat]. fold (attrs_xml l).
  rewrite forallb_app, (attr_forall f a Hf Hg Ha), (IH Hl). reflexivity.
Qed.

Lemma not_gt_value c : value_char c = true -> negb (Ascii.eqb ">" c) = true.
Proof. intros H. apply value_char_spec in H. destruct H as (_ & H & _). rewrite H. reflexivity. Qed.

Lemma not_break_value c : value_char c = true -> negb (mem c [LF; CR]) = true.
Proof. intros H. apply value_char_spec in H. destruct H as (_ & _ & H). rewrite H. reflexivity. Qed.

(** ** From an attribute to the [bounds] of the same node *)

Lemma after_id_nowhere ic p e rest :
  In p scanned_prefixes -> wf_element e = true -> nowhere ic p (after_id e) rest.
Proof.
  intros Hp He. apply wf_element_parts in He. destruct He as (_ & _ & Hc & _ & Hm).
  pose proof (attrs_nowhere ic p (el_more e) (js " " ++ rest) Hp Hm) as Hattrs.
  destruct (scanned_shape p Hp) as (name & p' & -> & Hq & Hg). specialize (Hg ic).
  unfold after_id.
  apply nowhere_app; [glue Hg|].
  apply nowhere_app; [apply (nowhere_value ic name p'); assumption|].
  apply nowhere_app; [glue Hg|].
  apply nowhere_app; [exact Hattrs|].
  glue Hg.
Qed.

Lemma after_text_nowhere ic p e rest :
  In p [js "text='"; js "bounds='["] -> wf_element e = true ->
  nowhere ic p (after_text e) rest.
Proof.
  intros Hp He.
  assert (Hp' : In p scanned_prefixes) by (simpl in *; tauto).
  pose proof (after_id_nowhere ic p e rest Hp' He) as Hid.
  apply wf_element_parts in He. destruct He as (_ & Hi & _).
  assert (Hg0 : glue_clashes ic p [js " resource-id='"] = true).
  { destruct Hp as [<-|[<-|[]]]; destruct ic; vm_compute; reflexivity. }
  destruct (scanned_shape p Hp') as (name & p' & -> & Hq & Hg). specialize (Hg ic).
  unfold after_text.
  apply nowhere_app; [glue Hg0|].
  apply nowhere_app; [apply (nowhere_value ic name p'); assumption|].
  apply nowhere_app; [glue Hg|].
  exact Hid.
Qed.

Lemma after_id_forall (f : ascii -> bool) e :
  (forall c, value_char c = true -> f c = true) ->
  forallb f (js " ='class") = true ->
  wf_element e = true -> forallb f (after_id e) = true.
Proof.
  intros Hf Hg He. apply wf_element_parts in He. destruct He as (_ & _ & Hc & _ & Hm).
  assert (Hg' : forallb f (js " ='") = true).
  { cbn [forallb js map list_ascii_of_string] in *.
    repeat (apply andb_prop in Hg; destruct Hg as [? Hg]).
    repeat match goal with H : ?x = true |- context [?x] => rewrite H end. reflexivity. }
  unfold after_id.
  rewrite !forallb_app, (value_ok_forall f _ Hf Hc), (attrs_forall f _ Hf Hg' Hm).
  cbn [forallb js map list_ascii_of_string] in *.
  repeat (apply andb_prop in Hg; destruct Hg as [? Hg]).
  repeat match goal with H : ?x = true |- context [?x] => rewrite H end.
  reflexivity.
Qed.

Lemma after_text_forall (f : ascii -> bool) e :
  (forall c, value_char c = true -> f c = true) ->
  forallb f (js " ='class") = true -> forallb f (js "resource-id") = true ->
  wf_element e = true -> forallb f (after_text e) = true.
Proof.
  intros Hf Hg Hr He. pose proof (after_id_forall f e Hf Hg He) as H.
  apply wf_element_parts in He. destruct He as (_ & Hi & _).
  unfold after_text.
  rewrite !forallb_app, (value_ok_forall f _ Hf Hi), H.
  cbn [forallb js map list_ascii_of_string] in *.
  repeat (apply andb_prop in Hg; destruct Hg as [? Hg]).
  repeat (apply andb_prop in Hr; destruct Hr as [? Hr]).
  repeat match goal with H : ?x = true |- context [?x] => rewrite H end.
  reflexivity.
Qed.

Lemma gap_after_text ic b g e leaf rest cs :
  is_gap g -> wf_element e = true ->
  rmatch ic (seq_of (g :: tail_items b))
    (after_text e ++ bounds_attr e ++ tag_end leaf ++ rest) cs final
  = Some (el_bounds_caps b e cs, tag_end leaf ++ rest).
Proof.
  intros [-> | ->] He.
  - apply rmatch_gap_lazy.
    + apply after_text_forall; try assumption; try reflexivity. exact not_break_value.
    + apply after_text_nowhere; [simpl; tauto | exact He].
  - apply rmatch_gap_greedy.
    apply after_text_forall; try assumption; try reflexivity. exact not_gt_value.
Qed.

Lemma gap_after_id ic b g e leaf rest cs :
  is_gap g -> wf_element e = true ->
  rmatch ic (seq_of (g :: tail_items b))
    (after_id e ++ bounds_attr e ++ tag_end leaf ++ rest) cs final
  = Some (el_bounds_caps b e cs, tag_end leaf ++ rest).
Proof.
  intros [-> | ->] He.
  - apply rmatch_gap_lazy.
    + apply after_id_forall; try assumption; try reflexivity. exact not_break_value.
    + apply after_id_nowhere; [simpl; tauto | exact He].
  - apply rmatch_gap_greedy.
    apply after_id_forall; try assumption; try reflexivity. exact not_gt_value.
Qed.


(** ** Scanning a well-formed dump *)

(** A scan that finds a node at the start of its tag, or passes it over,
    and passes over everything else, finds the nodes it accepts in the
    order of the dump. *)
Section Walk.
Variables (ic : bool) (c : compiled).
Variables (pred : element -> bool) (capsof : element -> caps).
Hypothesis Hnode : forall leaf e rest,
  wf_element e = true ->
  exec_from ic c (node_xml leaf e ++ rest)
  = if pred e then Some (capsof e, tag_end leaf ++ rest) else exec_from ic c rest.
Hypothesis Hend : forall leaf rest,
  exec_from ic c (tag_end leaf ++ rest) = exec_from ic c rest.
Hypothesis Hclose : forall rest,
  exec_from ic c (js "</node>" ++ rest) = exec_from ic c rest.
Hypothesis Hheader : forall rest,
  exec_from ic c (xml_header ++ rest) = exec_from ic c rest.
Hypothesis Hfooter : exec_from ic c (js "</hierarchy>") = None.

Lemma exec_loop_from fuel s s' :
  exec_from ic c s = exec_from ic c s' -> exec_loop fuel ic c s = exec_loop fuel ic c s'.
Proof. intros H. destruct fuel; simpl; [reflexivity | rewrite H; reflexivity]. Qed.

Lemma exec_loop_items : forall items fuel,
  wf_dump items = true -> length items < fuel ->
  exec_loop fuel ic c (concat (map item_xml items) ++ js "</hierarchy>")
  = Some (map capsof (filter pred (elements items))).
Proof.
  induction items as [|it items IH]; intros fuel Hwf Hf.
  - destruct fuel as [|f]; [simpl in Hf; lia|].
    cbn [map concat app exec_loop]. rewrite Hfooter. reflexivity.
  - simpl in Hwf. apply andb_prop in Hwf. destruct Hwf as [He Hes].
    destruct fuel as [|f]; [simpl in Hf; lia|].
    assert (E : exec_loop (S f) ic c (concat (map item_xml items) ++ js "</hierarchy>")
                = Some (map capsof (filter pred (elements items))))
      by (apply IH; [exact Hes | simpl in Hf; lia]).
    cbn [map concat]. rewrite <- app_assoc.
    destruct it as [leaf e|].
    + cbn [exec_loop item_xml]. rewrite (Hnode leaf e _ He).
      cbn [elements flat_map app filter]. fold (elements items).
      destruct (pred e).
      * rewrite (exec_loop_from f _ _ (Hend leaf _)).
        rewrite (IH f Hes ltac:(simpl in Hf; lia)). reflexivity.
      * cbn [exec_loop] in E. exact E.
    + cbn [item_xml]. rewrite (exec_loop_from _ _ _ (Hclose _)). exact E.
Qed.

Lemma length_items items : length items <= length (concat (map item_xml items)).
Proof.
  induction items as [|it items IH]; simpl; [lia|].
  assert (H : 1 <= length (item_xml it)).
  { destruct it as [leaf e|]; [|simpl; lia].
    cbn [item_xml]. unfold node_xml. rewrite length_app.
    set (n := length (js "<node")). vm_compute in n. lia. }
  rewrite length_app. lia.
Qed.

Lemma exec_all_walk items :
  wf_dump items = true ->
  exec_all ic c (dump_xml items) = Some (map capsof (filter pred (elements items))).
Proof.
  intros Hwf. unfold exec_all, dump_xml.
  rewrite (exec_loop_from _ _ _ (Hheader _)).
  apply exec_loop_items; [exact Hwf|].
  pose proof (length_items items). rewrite !length_app. simpl. lia.
Qed.
End Walk.

(** Scans whose pattern starts with the name of an attribute. *)
Section Scan.
Variables (ic : bool) (c : compiled) (p : str) (rs : list regex).
Hypothesis Hre : re c = seq_of (map lit p ++ rs).
Hypothesis Hp : In p scanned_prefixes.

Lemma rmatch_needs_prefix s cs k :
  strip ic p s = None -> rmatch ic (re c) s cs k = None.
Proof. intros H. rewrite Hre, rmatch_lits, H. reflexivity. Qed.

Lemma exec_from_skip u rest :
  nowhere ic p u rest -> exec_from ic c (u ++ rest) = exec_from ic c rest.
Proof.
  induction u as [|a u IH]; intros H.
  - reflexivity.
  - destruct H as [H1 H2]. simpl.
    rewrite (rmatch_needs_prefix _ _ _ H1). apply IH. exact H2.
Qed.

Lemma exec_from_end u : nowhere ic p u [] -> exec_from ic c u = None.
Proof.
  intros H. rewrite <- (app_nil_r u), (exec_from_skip _ _ H). simpl.
  rewrite rmatch_needs_prefix; [reflexivity|].
  destruct (scanned_shape p Hp) as (name & p' & -> & _). destruct name; reflexivity.
Qed.

Variables (pred : element -> bool) (capsof : element -> caps).
Variables (pre : element -> str) (core : bool -> element -> str).

Hypothesis Hnode : forall leaf e, node_xml leaf e = pre e ++ core leaf e.
Hypothesis Hpre : forall leaf e rest,
  wf_element e = true -> nowhere ic p (pre e) (core leaf e ++ rest).
Hypothesis Hcore : forall leaf e rest,
  wf_element e = true ->
  rmatch ic (re c) (core leaf e ++ rest) (repeat None (ncaps c)) (fun s' cs' => Some (cs', s'))
  = if pred e then Some (capsof e, tag_end leaf ++ rest) else None.
Hypothesis Hafter : forall leaf e rest,
  wf_element e = true ->
  exists a core', core leaf e = a :: core' /\ nowhere ic p core' rest.

Lemma exec_from_node leaf e rest :
  wf_element e = true ->
  exec_from ic c (node_xml leaf e ++ rest)
  = if pred e then Some (capsof e, tag_end leaf ++ rest) else exec_from ic c rest.
Proof.
  intros He. rewrite Hnode, <- app_assoc.
  rewrite (exec_from_skip _ _ (Hpre leaf e rest He)).
  destruct (Hafter leaf e rest He) as (a & core' & E & Hno).
  pose proof (Hcore leaf e rest He) as Hc. rewrite E in *. simpl.
  change ((a :: core') ++ rest) with (a :: core' ++ rest) in Hc. rewrite Hc.
  destruct (pred e); [reflexivity|].
  apply exec_from_skip. exact Hno.
Qed.

Lemma exec_from_footer : exec_from ic c (js "</hierarchy>") = None.
Proof.
  apply exec_from_end.
  destruct (scanned_shape p Hp) as (name & p' & _ & _ & Hg). specialize (Hg ic). glue Hg.
Qed.

(** The scan of a whole dump finds the nodes that satisfy [pred], in the
    order of the dump. *)
Lemma exec_all_dump items :
  wf_dump items = true ->
  exec_all ic c (dump_xml items) = Some (map capsof (filter pred (elements items))).
Proof.
  destruct (scanned_shape p Hp) as (name & p' & _ & _ & Hg). specialize (Hg ic).
  apply exec_all_walk.
  - exact exec_from_node.
  - intros [] rest; apply exec_from_skip; glue Hg.
  - intros rest. apply exec_from_skip. glue Hg.
  - intros rest. apply exec_from_skip. glue Hg.
  - exact exec_from_footer.
Qed.
End Scan.

(** ** Scans that start at the [text] attribute *)

Section TextScan.
Variables (ic : bool) (c : compiled) (rs : list regex).
Variables (pred : element -> bool) (capsof : element -> caps).
Hypothesis Hre : re c = seq_of (map lit (js "text='") ++ rs).
Hypothesis Hhead : forall leaf e rest,
  wf_element e = true ->
  rmatch ic (seq_of rs)
    (el_text e ++ dquote :: after_text e ++ bounds_attr e ++ tag_end leaf ++ rest)
    (repeat None (ncaps c)) final
  = if pred e then Some (capsof e, tag_end leaf ++ rest) else None.

Lemma text_scan items :
  wf_dump items = true ->
  exec_all ic c (dump_xml items) = Some (map capsof (filter pred (elements items))).
Proof.
  assert (Hp : In (js "text='") scanned_prefixes) by (simpl; tauto).
  assert (Hglue : glue_clashes ic (js "text='") [js "<node"; js " "; js "ext='"; js "'"] = true)
    by (destruct ic; vm_compute; reflexivity).
  apply (exec_all_dump ic c (js "text='") rs Hre Hp pred capsof text_pre text_core).
  - intros leaf e. unfold node_xml, text_pre, text_core.
    repeat rewrite <- app_assoc. reflexivity.
  - intros leaf e rest He.
    pose proof (wf_element_parts e He) as (_ & _ & _ & Hl & _).
    unfold text_pre.
    apply nowhere_app; [glue Hglue|].
    apply nowhere_app; [apply attrs_nowhere; assumption|].
    glue Hglue.
  - intros leaf e rest He. rewrite Hre, rmatch_lits.
    unfold text_core. repeat rewrite <- app_assoc. rewrite strip_same.
    apply (Hhead leaf e rest He).
  - intros leaf e rest He.
    destruct (bounds_attr_cons e) as (v & Ev & Hv).
    exists "t"%char,
      (js "ext='" ++ el_text e ++ js "'" ++ after_text e ++ bounds_attr e ++ tag_end leaf).
    split; [reflexivity|].
    pose proof (wf_element_parts e He) as (Ht & _).
    apply nowhere_app; [glue Hglue|].
    apply nowhere_app; [apply (nowhere_value ic (js "text") []); [reflexivity | assumption]|].
    apply nowhere_app; [glue Hglue|].
    apply nowhere_app; [apply after_text_nowhere; [simpl; tauto | assumption]|].
    apply (nowhere_first_b ic "t" (js "ext='")).
    rewrite Ev. cbn [app forallb]. rewrite (Hv ic "t"%char (digit_not_t ic)).
    + destruct ic; reflexivity.
    + destruct ic; reflexivity.
Qed.
End TextScan.

(** ** Scans that start at the [resource-id] attribute *)

Section IdScan.
Variables (ic : bool) (c : compiled) (rs : list regex).
Variables (pred : element -> bool) (capsof : element -> caps).
Hypothesis Hre : re c = seq_of (map lit (js "resource-id='") ++ rs).
Hypothesis Hhead : forall leaf e rest,
  wf_element e = true ->
  rmatch ic (seq_of rs)
    (el_id e ++ dquote :: after_id e ++ bounds_attr e ++ tag_end leaf ++ rest)
    (repeat None (ncaps c)) final
  = if pred e then Some (capsof e, tag_end leaf ++ rest) else None.

Lemma id_scan items :
  wf_dump items = true ->
  exec_all ic c (dump_xml items) = Some (map capsof (filter pred (elements items))).
Proof.
  assert (Hp : In (js "resource-id='") scanned_prefixes) by (simpl; tauto).
  assert (Hglue : glue_clashes ic (js "resource-id='")
            [js "<node"; js " text='"; js "' "; js "esource-id='"; js "'"] = true)
    by (destruct ic; vm_compute; reflexivity).
  apply (exec_all_dump ic c (js "resource-id='") rs Hre Hp pred capsof id_pre id_core).
  - intros leaf e. unfold node_xml, id_pre, id_core, after_text.
    repeat rewrite <- app_assoc. reflexivity.
  - intros leaf e rest He.
    pose proof (wf_element_parts e He) as (Ht & _ & _ & Hl & _).
    unfold id_pre.
    apply nowhere_app; [glue Hglue|].
    apply nowhere_app; [apply attrs_nowhere; assumption|].
    apply nowhere_app; [glue Hglue|].
    apply nowhere_app;
      [apply (nowhere_value ic (js "resource-id") []); [reflexivity | assumption]|].
    glue Hglue.
  - intros leaf e rest He. rewrite Hre, rmatch_lits.
    unfold id_core. repeat rewrite <- app_assoc. rewrite strip_same.
    apply (Hhead leaf e rest He).
  - intros leaf e rest He.
    destruct (bounds_attr_cons e) as (v & Ev & Hv).
    exists "r"%char,
      (js "esource-id='" ++ el_id e ++ js "'" ++ after_id e ++ bounds_attr e ++ tag_end leaf).
    split; [reflexivity|].
    pose proof (wf_element_parts e He) as (_ & Hi & _).
    apply nowhere_app; [glue Hglue|].
    apply nowhere_app;
      [apply (nowhere_value ic (js "resource-id") []); [reflexivity | assumption]|].
    apply nowhere_app; [glue Hglue|].
    apply nowhere_app; [apply after_id_nowhere; [simpl; tauto | assumption]|].
    apply (nowhere_first_b ic "r" (js "esource-id='")).
    rewrite Ev. cbn [app forallb]. rewrite (Hv ic "r"%char (digit_not_r ic)).
    + destruct ic; reflexivity.
    + destruct ic; reflexivity.
Qed.
End IdScan.

(** ** The occurrences of [bounds] *)

Lemma literal_bounds : bounds_regex = {| re := seq_of (tail_items 0); ncaps := 4 |}.
Proof. vm_compute; reflexivity. Qed.

Lemma bounds_scan items :
  wf_dump items = true ->
  bounds_occurrences (dump_xml items) = Some (map rect_caps (elements items)).
Proof.
  intros Hwf. unfold bounds_occurrences. rewrite literal_bounds.
  assert (Hp : In (js "bounds='[") scanned_prefixes) by (simpl; tauto).
  assert (Hglue : glue_clashes false (js "bounds='[") [js "<node"; js " text='"; js "'"] = true)
    by (vm_compute; reflexivity).
  assert (Hall : forall l : list element, filter (fun _ => true) l = l).
  { induction l as [|x l IH]; simpl; [reflexivity | rewrite IH; reflexivity]. }
  rewrite <- (Hall (elements items)).
  apply (exec_all_dump false {| re := seq_of (tail_items 0); ncaps := 4 |} (js "bounds='[")
           [digits_group 0; lit ","; digits_group 1; lit "]"; lit "[";
            digits_group 2; lit ","; digits_group 3; lit "]"; lit dquote]
           eq_refl Hp (fun _ => true) rect_caps bounds_pre bounds_core); [| | | | exact Hwf].
  - intros leaf e. unfold node_xml, bounds_pre, bounds_core.
    repeat rewrite <- app_assoc. reflexivity.
  - intros leaf e rest He.
    pose proof (wf_element_parts e He) as (Ht & _ & _ & Hl & _).
    unfold bounds_pre.
    apply nowhere_app; [glue Hglue|].
    apply nowhere_app; [apply attrs_nowhere; assumption|].
    apply nowhere_app; [glue Hglue|].
    apply nowhere_app;
      [apply (nowhere_value false (js "bounds") ["["%char]); [reflexivity | assumption]|].
    apply nowhere_app; [glue Hglue|].
    apply after_text_nowhere; [simpl; tauto | assumption].
  - intros leaf e rest He. unfold bounds_core. rewrite <- app_assoc.
    cbn [re ncaps]. apply (rmatch_tail false 0 e (tag_end leaf ++ rest)).
  - intros leaf e rest He.
    destruct (bounds_attr_cons e) as (v & Ev & Hv).
    exists "b"%char, (v ++ tag_end leaf). unfold bounds_core. rewrite Ev.
    split; [reflexivity|].
    apply (nowhere_first_b false "b" (js "ounds='[")).
    apply (Hv false "b"%char (digit_not_b false)). reflexivity.
Qed.

(** ** What the scans of the tools find *)

Lemma filter_all {A} (l : list A) : filter (fun _ => true) l = l.
Proof. induction l as [|x l IH]; simpl; [reflexivity | rewrite IH; reflexivity]. Qed.

Lemma scan_capture g items :
  is_gap g -> wf_dump items = true ->
  exec_all false {| re := seq_of (text_capture_items g); ncaps := 5 |} (dump_xml items)
  = Some (map text_rect_caps (elements items)).
Proof.
  intros Hg Hwf.
  rewrite <- (filter_all (elements items)).
  apply (text_scan false _
           (RGroup (Some 0) (RSeq (star_not dquote) REmpty) :: lit dquote :: g :: tail_items 1)
           (fun _ => true) text_rect_caps); [reflexivity | | exact Hwf].
  intros leaf e rest He. pose proof (wf_element_parts e He) as (Ht & _).
  rewrite (rmatch_capture_value false 0 (el_text e) _ _ _ _ Ht).
  rewrite (gap_after_text false 1 g e leaf rest _ Hg He). reflexivity.
Qed.

Lemma scan_contains g q items :
  is_gap g -> no_quote q = true -> wf_dump items = true ->
  exec_all true {| re := seq_of (text_contains_items g q); ncaps := 4 |} (dump_xml items)
  = Some (map rect_caps (filter (fun e => contains_ci q (el_text e)) (elements items))).
Proof.
  intros Hg Hq Hwf.
  apply (text_scan true _
           (star_not dquote :: map lit q ++ star_not dquote :: lit dquote :: g :: tail_items 0)
           (fun e => contains_ci q (el_text e)) rect_caps); [reflexivity | | exact Hwf].
  intros leaf e rest He. pose proof (wf_element_parts e He) as (Ht & _).
  rewrite (rmatch_contains q _ _ _ _ (el_text e) Hq Ht).
  destruct (contains_ci q (el_text e)); [|reflexivity].
  rewrite (gap_after_text true 0 g e leaf rest _ Hg He). reflexivity.
Qed.

Lemma scan_exact g q items :
  is_gap g -> no_quote q = true -> wf_dump items = true ->
  exec_all true {| re := seq_of (text_exact_items g q); ncaps := 4 |} (dump_xml items)
  = Some (map rect_caps (filter (fun e => eq_ci q (el_text e)) (elements items))).
Proof.
  intros Hg Hq Hwf.
  apply (text_scan true _ (map lit q ++ lit dquote :: g :: tail_items 0)
           (fun e => eq_ci q (el_text e)) rect_caps); [reflexivity | | exact Hwf].
  intros leaf e rest He. pose proof (wf_element_parts e He) as (Ht & _).
  change (map lit q ++ lit dquote :: g :: tail_items 0)
    with (map lit q ++ map lit [dquote] ++ g :: tail_items 0).
  rewrite app_assoc, <- map_app, rmatch_lits.
  rewrite (strip_eq_ci q (el_text e) _ Hq Ht).
  destruct (eq_ci q (el_text e)); [|reflexivity].
  rewrite (gap_after_text true 0 g e leaf rest _ Hg He). reflexivity.
Qed.

Lemma scan_id g q items :
  is_gap g -> no_quote q = true -> wf_dump items = true ->
  exec_all true {| re := seq_of (id_items g q); ncaps := 4 |} (dump_xml items)
  = Some (map rect_caps (filter (fun e => eq_ci q (el_id e)) (elements items))).
Proof.
  intros Hg Hq Hwf.
  apply (id_scan true _ (map lit q ++ lit dquote :: g :: tail_items 0)
           (fun e => eq_ci q (el_id e)) rect_caps); [reflexivity | | exact Hwf].
  intros leaf e rest He. pose proof (wf_element_parts e He) as (_ & Hi & _).
  change (map lit q ++ lit dquote :: g :: tail_items 0)
    with (map lit q ++ map lit [dquote] ++ g :: tail_items 0).
  rewrite app_assoc, <- map_app, rmatch_lits.
  rewrite (strip_eq_ci q (el_id e) _ Hq Hi).
  destruct (eq_ci q (el_id e)); [|reflexivity].
  rewrite (gap_after_id true 0 g e leaf rest _ Hg He). reflexivity.
Qed.

Lemma rect_of_caps e : rect_of (rect_caps e) = el_rect e.
Proof.
  unfold rect_of, rect_caps, group, el_rect. cbn [nth Nat.sub].
  rewrite !parseInt_dec. reflexivity.
Qed.

Lemma rects_of_caps l : map rect_of (map rect_caps l) = map el_rect l.
Proof.
  rewrite map_map. apply map_ext. exact rect_of_caps.
Qed.

Lemma plain_id_no_quote q : plain_id q = true -> no_quote q = true.
Proof.
  unfold plain_id, no_quote. induction q as [|c q IH]; simpl; intros H; [reflexivity|].
  apply andb_prop in H. destruct H as [Hc Hq]. rewrite (IH Hq), andb_true_r.
  unfold plain_char in Hc. apply negb_true_iff in Hc. unfold mem in Hc. simpl in Hc.
  apply orb_false_elim in Hc. destruct Hc as [Hc _]. rewrite Hc. reflexivity.
Qed.

(** ** The array [matches] of the locator tools on a well-formed dump *)

Lemma truthy_some q : q <> [] -> truthy (Some q) = true.
Proof. destruct q; [congruence | reflexivity]. Qed.

Lemma collect_compiled pattern c xml ms :
  RegExp_new pattern = POk c -> exec_all true c xml = Some ms ->
  collect_matches pattern xml = Returned (map rect_of ms).
Proof. intros H1 H2. unfold collect_matches. rewrite H1, H2. reflexivity. Qed.

Lemma geb_matches_text q rid items :
  q <> [] -> no_quote q = true -> wf_dump items = true ->
  collect_matches (geb_pattern (Some q) rid) (dump_xml items)
  = Returned (map el_rect (filter (fun e => contains_ci q (el_text e)) (elements items))).
Proof.
  intros Hq Hn Hwf. unfold geb_pattern. rewrite (truthy_some q Hq). cbn [spliced].
  rewrite <- rects_of_caps.
  apply (collect_compiled _ _ _ _ (compile_geb_text q Hq)).
  apply scan_contains; [left; reflexivity | assumption | assumption].
Qed.

Lemma geb_matches_id text q items :
  truthy text = false -> q <> [] -> plain_id q = true -> wf_dump items = true ->
  collect_matches (geb_pattern text (Some q)) (dump_xml items)
  = Returned (map el_rect (filter (fun e => eq_ci q (el_id e)) (elements items))).
Proof.
  intros Ht Hq Hp Hwf. unfold geb_pattern. rewrite Ht. cbn [spliced].
  rewrite <- rects_of_caps.
  apply (collect_compiled _ _ _ _ (compile_geb_id q Hq Hp)).
  apply scan_id; [left; reflexivity | apply plain_id_no_quote; assumption | assumption].
Qed.

Lemma tap_matches_id text q exact items :
  q <> [] -> plain_id q = true -> wf_dump items = true ->
  collect_matches (tap_pattern text (Some q) exact) (dump_xml items)
  = Returned (map el_rect (filter (fun e => eq_ci q (el_id e)) (elements items))).
Proof.
  intros Hq Hp Hwf. unfold tap_pattern. rewrite (truthy_some q Hq). cbn [spliced].
  rewrite <- rects_of_caps.
  apply (collect_compiled _ _ _ _ (compile_tap_id q Hq Hp)).
  apply scan_id; [right; reflexivity | apply plain_id_no_quote; assumption | assumption].
Qed.

Lemma tap_matches_exact q rid items :
  truthy rid = false -> q <> [] -> no_quote q = true -> wf_dump items = true ->
  collect_matches (tap_pattern (Some q) rid true) (dump_xml items)
  = Returned (map el_rect (filter (fun e => eq_ci q (el_text e)) (elements items))).
Proof.
  intros Hr Hq Hn Hwf. unfold tap_pattern. rewrite Hr. cbn [spliced].
  rewrite <- rects_of_caps.
  apply (collect_compiled _ _ _ _ (compile_tap_exact q Hq)).
  apply scan_exact; [right; reflexivity | assumption | assumption].
Qed.

Lemma tap_matches_contains q rid items :
  truthy rid = false -> q <> [] -> no_quote q = true -> wf_dump items = true ->
  collect_matches (tap_pattern (Some q) rid false) (dump_xml items)
  = Returned (map el_rect (filter (fun e => contains_ci q (el_text e)) (elements items))).
Proof.
  intros Hr Hq Hn Hwf. unfold tap_pattern. rewrite Hr. cbn [spliced].
  rewrite <- rects_of_caps.
  apply (collect_compiled _ _ _ _ (compile_tap_contains q Hq)).
  apply scan_contains; [right; reflexivity | assumption | assumption].
Qed.

(** The matches of the two tools for the queries read literally. *)
Lemma geb_matches text rid items :
  geb_query_ok text rid = true -> wf_dump items = true ->
  collect_matches (geb_pattern text rid) (dump_xml items)
  = Returned (map el_rect (filter (geb_criterion text rid) (elements items))).
Proof.
  unfold geb_query_ok, geb_criterion. intros Hq Hwf.
  destruct (truthy text) eqn:Ht.
  - destruct text as [[|c q]|]; try discriminate Ht. cbn [spliced] in *.
    apply geb_matches_text; [discriminate | exact Hq | exact Hwf].
  - apply andb_prop in Hq. destruct Hq as [Hr Hp].
    destruct rid as [[|c q]|]; try discriminate Hr. cbn [spliced] in *.
    apply geb_matches_id; [exact Ht | discriminate | exact Hp | exact Hwf].
Qed.

Lemma tap_matches text rid exact items :
  tap_query_ok text rid = true -> wf_dump items = true ->
  collect_matches (tap_pattern text rid exact) (dump_xml items)
  = Returned (map el_rect (filter (tap_criterion text rid exact) (elements items))).
Proof.
  unfold tap_query_ok, tap_criterion. intros Hq Hwf.
  destruct (truthy rid) eqn:Hr.
  - destruct rid as [[|c q]|]; try discriminate Hr. cbn [spliced] in *.
    apply tap_matches_id; [discriminate | exact Hq | exact Hwf].
  - apply andb_prop in Hq. destruct Hq as [Ht Hn].
    destruct text as [[|c q]|]; try discriminate Ht. cbn [spliced] in *.
    unfold text_matches. destruct exact.
    + apply tap_matches_exact; [exact Hr | discriminate | exact Hn | exact Hwf].
    + apply tap_matches_contains; [exact Hr | discriminate | exact Hn | exact Hwf].
Qed.

(** What a reply that locates an element says of the array [matches]. *)
Lemma geb_found_inv text rid index xml m i x y w h cx cy :
  get_element_bounds text rid index xml = Returned (GebFound m i x y w h cx cy) ->
  exists ms r,
    collect_matches (geb_pattern text rid) xml = Returned ms
    /\ nth_error ms (Z.to_nat i) = Some r
    /\ i = default_index index /\ (0 <= i)%Z /\ m = length ms
    /\ x = x1 r /\ y = y1 r /\ w = num_sub (x2 r) (x1 r) /\ h = num_sub (y2 r) (y1 r)
    /\ cx = round_half_sum (x1 r) (x2 r) /\ cy = round_half_sum (y1 r) (y2 r).
Proof.
  unfold get_element_bounds. intros H.
  destruct (negb (truthy text) && negb (truthy rid)); [discriminate H|].
  destruct (collect_matches (geb_pattern text rid) xml) as [ms| | |]; try discriminate H.
  destruct (Nat.eqb (length ms) 0); [discriminate H|].
  destruct (Z.geb (default_index index) (Z.of_nat (length ms))); [discriminate H|].
  unfold array_get in H.
  destruct (Z.ltb_spec (default_index index) 0) as [|Hi]; [discriminate H|].
  destruct (nth_error ms (Z.to_nat (default_index index))) as [r|] eqn:E; [|discriminate H].
  inversion H; subst. exists ms, r. repeat split; try reflexivity; assumption.
Qed.

Lemma tap_found_inv text rid index exact xml what cx cy position :
  tap_element text rid index exact xml = Returned (Tapped what cx cy position) ->
  exists ms r,
    collect_matches
      (tap_pattern text rid (match exact with Some b => b | None => false end)) xml
    = Returned ms
    /\ nth_error ms (Z.to_nat (default_index index)) = Some r
    /\ (0 <= default_index index)%Z
    /\ cx = round_half_sum (x1 r) (x2 r) /\ cy = round_half_sum (y1 r) (y2 r).
Proof.
  unfold tap_element. intros H.
  destruct (negb (truthy text) && negb (truthy rid)); [discriminate H|].
  destruct (collect_matches _ xml) as [ms| | |]; try discriminate H.
  destruct (Nat.eqb (length ms) 0); [discriminate H|].
  destruct (Z.geb (default_index index) (Z.of_nat (length ms))); [discriminate H|].
  unfold array_get in H.
  destruct (Z.ltb_spec (default_index index) 0) as [|Hi]; [discriminate H|].
  destruct (nth_error ms (Z.to_nat (default_index index))) as [r|] eqn:E; [|discriminate H].
  inversion H; subst. exists ms, r. repeat split; try reflexivity; assumption.
Qed.

Lemma located_node (test : element -> bool) items n r :
  nth_error (map el_rect (filter test (elements items))) n = Some r ->
  exists e, In e (elements items) /\ test e = true /\ r = el_rect e.
Proof.
  intros H. rewrite nth_error_map in H.
  destruct (nth_error (filter test (elements items)) n) as [e|] eqn:E; [|discriminate H].
  inversion H; subst r. apply nth_error_In in E. apply filter_In in E.
  exists e. split; [apply E|]. split; [apply E | reflexivity].
Qed.

Lemma name_no_eq n : forallb name_char n = true -> no_eq n = true.
Proof.
  unfold no_eq. rewrite !forallb_forall. intros H c Hc. specialize (H c Hc).
  unfold name_char in H. apply andb_prop in H. apply H.
Qed.

(** The locator tools take an accented letter for the same letter in the
    other case. *)
Lemma locator_folds_accented_letters :
  get_element_bounds (Some ["201"%char]) None None (dump_xml accented_screen)
  = Returned (GebFound 2 0 (Int 100) (Int 200) (Int 200) (Int 50) (Int 200) (Int 225))
  /\ tap_element (Some ["201"%char]) None (Some 1%Z) (Some true) (dump_xml accented_screen)
     = Returned (Tapped (ByExactText ["201"%char]) (Int 200) (Int 425) (Some (2%Z, 2))).
Proof. split; vm_compute; reflexivity. Qed.

(** ** The scan of [extractUIFingerprint] *)

Lemma literal_fingerprint :
  fingerprint_regex = {| re := seq_of fingerprint_items; ncaps := 6 |}.
Proof. vm_compute; reflexivity. Qed.

Lemma opt_attr_skip ic name i s cs k :
  strip ic (name ++ js "='") s = None -> rmatch ic (opt_attr name i) s cs k = k s cs.
Proof.
  intros H. unfold opt_attr. cbn [rmatch]. rewrite rmatch_lits, H. reflexivity.
Qed.

Lemma digit_not_c ic c : is_digit c = true -> Ascii.eqb (canon ic "c") (canon ic c) = false.
Proof. destruct ic; by_cases_on c. Qed.

(** Where no [b] follows up to the end of the tag, the part of the pattern
    that starts at the group for [class] fails. *)
Lemma class_tail_dead w rest cs k :
  forallb (differs false "b") (w ++ [">"%char]) = true ->
  strip false (js "class='") (w ++ ">"%char :: rest) = None ->
  rmatch false (seq_of (opt_attr (js "class") 1 :: star_not ">" :: tail_items 2))
    (w ++ ">"%char :: rest) cs k = None.
Proof.
  intros Hb Hc. rewrite rmatch_cons, (opt_attr_skip false (js "class") 1 _ _ _ Hc).
  rewrite rmatch_cons. unfold star_not. cbn [rmatch].
  rewrite forallb_app in Hb. apply andb_prop in Hb. destruct Hb as [Hb1 Hb2].
  apply (rep_greedy_dead _ _ (differs false "b")).
  - intros c s' H. apply tail_needs_b. apply negb_true_iff. exact H.
  - exact Hb1.
  - reflexivity.
  - reflexivity.
Qed.

Lemma class_run_dead rest cs k : forall w,
  forallb (differs false "b") (w ++ [">"%char]) = true ->
  nowhere false (js "class='") (w ++ [">"%char]) rest ->
  rep_greedy (accepts false (CClass true [">"%char])) (w ++ ">"%char :: rest)
    (fun s' => rmatch false
       (seq_of (opt_attr (js "class") 1 :: star_not ">" :: tail_items 2)) s' cs k)
  = None.
Proof.
  induction w as [|c w IH]; intros Hb Hc.
  - cbn [app rep_greedy]. rewrite accepts_not_gt. cbn [Ascii.eqb negb].
    apply (class_tail_dead [] rest cs k Hb). apply Hc.
  - destruct Hc as [Hc1 Hc2].
    assert (Hb' : forallb (differs false "b") (w ++ [">"%char]) = true).
    { cbn [app forallb] in Hb. apply andb_prop in Hb. apply Hb. }
    cbn [app rep_greedy]. rewrite (IH Hb' Hc2).
    assert (E : rmatch false
                  (seq_of (opt_attr (js "class") 1 :: star_not ">" :: tail_items 2))
                  (c :: w ++ ">"%char :: rest) cs k = None).
    { apply (class_tail_dead (c :: w) rest cs k Hb).
      rewrite <- app_assoc in Hc1. exact Hc1. }
    rewrite E. destruct (accepts false (CClass true [">"%char]) c); reflexivity.
Qed.

(** The pattern fails at every position of a piece that ends a tag and
    holds neither of its three names. *)
Lemma fingerprint_dead rest : forall w,
  forallb (differs false "b") (w ++ [">"%char]) = true ->
  nowhere false (js "class='") (w ++ [">"%char]) rest ->
  nowhere false (js "text='") (w ++ [">"%char]) rest ->
  exec_from false {| re := seq_of fingerprint_items; ncaps := 6 |} (w ++ ">"%char :: rest)
  = exec_from false {| re := seq_of fingerprint_items; ncaps := 6 |} rest.
Proof.
  assert (Hat : forall w,
    forallb (differs false "b") (w ++ [">"%char]) = true ->
    nowhere false (js "class='") (w ++ [">"%char]) rest ->
    strip false (js "text='") (w ++ ">"%char :: rest) = None ->
    rmatch false (seq_of fingerprint_items) (w ++ ">"%char :: rest) (repeat None 6)
      (fun s' cs' => Some (cs', s')) = None).
  { intros w Hb Hc Ht. unfold fingerprint_items.
    rewrite rmatch_cons, (opt_attr_skip false (js "text") 0 _ _ _ Ht).
    rewrite rmatch_cons. unfold star_not at 1. cbn [rmatch].
    apply class_run_dead; assumption. }
  induction w as [|c w IH]; intros Hb Hc Ht.
  - pose proof (Hat [] Hb Hc (proj1 Ht)) as H0.
    cbn [app exec_from re ncaps] in *. rewrite H0. reflexivity.
  - destruct Hc as [Hc1 Hc2]. destruct Ht as [Ht1 Ht2].
    assert (Hb' : forallb (differs false "b") (w ++ [">"%char]) = true).
    { cbn [app forallb] in Hb. apply andb_prop in Hb. apply Hb. }
    rewrite <- app_assoc in Ht1.
    pose proof (Hat (c :: w) Hb (conj Hc1 Hc2) Ht1) as H0.
    cbn [app exec_from re ncaps] in *. rewrite H0.
    apply IH; assumption.
Qed.

Lemma exec_from_hit ic c s x :
  rmatch ic (re c) s (repeat None (ncaps c)) (fun s' cs' => Some (cs', s')) = Some x ->
  exec_from ic c s = Some x.
Proof. intros H. destruct s; simpl; rewrite H; reflexivity. Qed.

(** At a node the match starts at the start of the tag, where the group
    for [text] is passed over; the repetition runs to the end of the tag
    and comes back to [bounds], where the group for [class] is passed
    over. *)
Lemma fingerprint_node leaf e rest :
  wf_element e = true ->
  exec_from false {| re := seq_of fingerprint_items; ncaps := 6 |} (node_xml leaf e ++ rest)
  = Some (fp_caps e, tag_end leaf ++ rest).
Proof.
  intros He. apply exec_from_hit. cbn [re ncaps]. unfold fingerprint_items.
  rewrite rmatch_cons, opt_attr_skip by reflexivity.
  rewrite rmatch_cons. unfold star_not at 1. cbn [rmatch].
  assert (E : node_xml leaf e ++ rest
              = bounds_pre e ++ bounds_attr e ++ tag_end leaf ++ rest).
  { unfold node_xml, bounds_pre. repeat rewrite <- app_assoc. reflexivity. }
  rewrite E. clear E.
  apply rep_greedy_pre.
  - pose proof (wf_element_parts e He) as (Ht & _ & _ & Hl & _).
    rewrite (forallb_pointwise _ (fun c => negb (Ascii.eqb ">" c)) _ (accepts_not_gt false)).
    unfold bounds_pre. rewrite !forallb_app.
    rewrite (attrs_forall _ (el_lead e) not_gt_value eq_refl Hl).
    rewrite (value_ok_forall _ _ not_gt_value Ht).
    rewrite (after_text_forall _ e not_gt_value eq_refl eq_refl He).
    reflexivity.
  - destruct (bounds_attr_cons e) as (v & Ev & Hv).
    pose proof (rmatch_gap_greedy false 2 e leaf [] rest (repeat None 6) eq_refl) as Hg.
    cbn [app] in Hg. rewrite Ev in *.
    assert (E : exists v2, ("b"%char :: v) ++ tag_end leaf ++ rest
                = "b"%char :: (v ++ v2) ++ ">"%char :: rest
                /\ v ++ tag_end leaf = (v ++ v2) ++ [">"%char]).
    { destruct leaf.
      - exists (js " /"). split; simpl; rewrite <- app_assoc; reflexivity.
      - exists []. split; simpl; rewrite <- app_assoc; reflexivity. }
    destruct E as (v2 & E & E2). rewrite E in *.
    cbn [rep_greedy]. rewrite accepts_not_gt. cbn [Ascii.eqb negb].
    rewrite class_run_dead.
    + cbn [or_else]. rewrite rmatch_cons, opt_attr_skip by reflexivity. exact Hg.
    + rewrite <- E2. apply Hv; [apply digit_not_b | reflexivity].
    + rewrite <- E2. apply (nowhere_first_b false "c" (js "lass='")).
      apply Hv; [apply digit_not_c | reflexivity].
Qed.

(** On a well-formed dump the pattern matches once per node and captures
    neither the text nor the class. *)
Lemma fingerprint_scan items :
  wf_dump items = true ->
  exec_all false fingerprint_regex (dump_xml items) = Some (map fp_caps (elements items)).
Proof.
  intros Hwf. rewrite literal_fingerprint.
  rewrite <- (filter_all (elements items)).
  assert (Hc : glue_clashes false (js "class='")
            [js " />"; js ">"; js "</node>"; js "</hierarchy>"; xml_header] = true)
    by (vm_compute; reflexivity).
  assert (Ht : glue_clashes false (js "text='")
            [js " />"; js ">"; js "</node>"; js "</hierarchy>"; xml_header] = true)
    by (vm_compute; reflexivity).
  apply (exec_all_walk false _ (fun _ => true) fp_caps); [| | | | | exact Hwf].
  - intros leaf e rest He. apply fingerprint_node. exact He.
  - intros [] rest.
    + apply (fingerprint_dead rest (js " /")); [reflexivity | glue Hc | glue Ht].
    + apply (fingerprint_dead rest []); [reflexivity | glue Hc | glue Ht].
  - intros rest.
    apply (fingerprint_dead rest (js "</node")); [reflexivity | glue Hc | glue Ht].
  - intros rest.
    change (xml_header ++ rest)
      with (list_ascii_of_string "<?xml version='1.0' encoding='UTF-8' standalone='yes' ?"
            ++ ">"%char :: js "<hierarchy rotation='0'" ++ ">"%char :: rest).
    rewrite fingerprint_dead.
    + apply (fingerprint_dead rest (js "<hierarchy rotation='0'")); [reflexivity | |].
      * apply (nowhere_suffix false _
                 (list_ascii_of_string "<?xml version='1.0' encoding='UTF-8' standalone='yes' ?>")).
        change (nowhere false (js "class='") xml_header rest). glue Hc.
      * apply (nowhere_suffix false _
                 (list_ascii_of_string "<?xml version='1.0' encoding='UTF-8' standalone='yes' ?>")).
        change (nowhere false (js "text='") xml_header rest). glue Ht.
    + reflexivity.
    + apply (nowhere_prefix false _ _ (js "<hierarchy rotation='0'>")).
      change (nowhere false (js "class='") xml_header rest). glue Hc.
    + apply (nowhere_prefix false _ _ (js "<hierarchy rotation='0'>")).
      change (nowhere false (js "text='") xml_header rest). glue Ht.
  - change (js "</hierarchy>") with (js "</hierarchy" ++ ">"%char :: []).
    rewrite fingerprint_dead; [reflexivity | reflexivity | glue Hc | glue Ht].
Qed.

Lemma fingerprint_empty items :
  wf_dump items = true -> extractUIFingerprint (dump_xml items) = Some [].
Proof.
  intros Hwf. unfold extractUIFingerprint, fingerprint_elements.
  rewrite (fingerprint_scan items Hwf). cbn [option_map].
  assert (E : forall es,
    flat_map (fun m => if truthy (group m 1) || truthy (group m 2)
                       then [fingerprint_record m] else []) (map fp_caps es) = []).
  { induction es as [|e es IH]; [reflexivity|]. cbn [map flat_map]. rewrite IH. reflexivity. }
  rewrite E. reflexivity.
Qed.

(** ** The loop of wait_for_ui_stable *)



Lemma str_compare_eq a : forall b, str_compare a b = 0%Z <-> a = b.
Proof.
  induction a as [|x a IH]; intros [|y b]; simpl; split; intros H;
    try reflexivity; try discriminate.
  - destruct (Ascii.eqb_spec x y) as [->|Hxy].
    + f_equal. apply IH. exact H.
    + destruct (N.ltb (code x) (code y)); discriminate.
  - inversion H; subst. rewrite Ascii.eqb_refl. apply IH. reflexivity.
Qed.

Lemma str_eqb_refl a : str_eqb a a = true.
Proof. unfold str_eqb. apply Z.eqb_eq. apply str_compare_eq. reflexivity. Qed.


Lemma stable_loop_step startTime timeout last count tick p later fp :
  (checked_at p - startTime < timeout)%Z ->
  extractUIFingerprint (currentXml p) = Some fp ->
  stable_loop startTime timeout last count tick (p :: later)
  = if str_eqb fp last then
      if Nat.leb 2 (S count) then UiStable tick (returned_at p - startTime)
      else stable_loop startTime timeout last (S count) (S tick) later
    else stable_loop startTime timeout fp 0 (S tick) later.
Proof.
  intros Ht Hf. apply Z.ltb_lt in Ht. cbn [stable_loop]. rewrite Ht, Hf. reflexivity.
Qed.

Lemma str_eqb_eq a b : str_eqb a b = true -> a = b.
Proof. unfold str_eqb. intros H. apply str_compare_eq. apply Z.eqb_eq. exact H. Qed.

Lemma nth_error_last {A} (s : list A) x rest : nth_error (s ++ x :: rest) (length s) = Some x.
Proof. rewrite nth_error_app2, Nat.sub_diag by lia. reflexivity. Qed.

Lemma stable_loop_settled startTime timeout : forall polls seen last count t e,
  stable_loop startTime timeout last count (length seen) polls = UiStable t e ->
  loop_state seen last count ->
  settled (seen ++ polls) t
  /\ exists p, nth_error (seen ++ polls) t = Some p /\ e = (returned_at p - startTime)%Z
               /\ (checked_at p - startTime < timeout)%Z.
Proof.
  induction polls as [|p later IH]; intros seen last count t e H Hst.
  - discriminate H.
  - assert (Hnext : forall last' count',
        stable_loop startTime timeout last' count' (S (length seen)) later = UiStable t e ->
        loop_state (seen ++ [p]) last' count' ->
        settled (seen ++ p :: later) t
        /\ exists p', nth_error (seen ++ p :: later) t = Some p'
                      /\ e = (returned_at p' - startTime)%Z
                      /\ (checked_at p' - startTime < timeout)%Z).
    { intros last' count' H' Hst'.
      replace (S (length seen)) with (length (seen ++ [p])) in H'
        by (rewrite length_app; simpl; lia).
      specialize (IH _ _ _ _ _ H' Hst'). rewrite <- app_assoc in IH. exact IH. }
    cbn [stable_loop] in H.
    destruct (Z.ltb_spec (checked_at p - startTime) timeout) as [Hlt|]; [|discriminate H].
    destruct (extractUIFingerprint (currentXml p)) as [f|] eqn:Ef; [|discriminate H].
    destruct (str_eqb f last) eqn:E.
    + apply str_eqb_eq in E. subst f.
      destruct count as [|[|n]]; cbn [Nat.leb] in H.
      * apply (Hnext _ _ H). cbn [loop_state]. destruct Hst as [[-> ->]|(s & p' & -> & Hp')].
        -- left. exists p. repeat split; try reflexivity. exact Ef.
        -- right. exists s, p', p. rewrite <- app_assoc. repeat split; assumption.
      * inversion H; subst t e. clear H. split.
        -- destruct Hst as [(p0 & -> & Hp0 & ->)|(s & p1 & p2 & -> & Hp1 & Hp2)].
           ++ left. split; [reflexivity|]. exists p0, p. repeat split; assumption.
           ++ right. rewrite length_app. cbn [length]. split; [lia|].
              exists p1, p2, p, last. rewrite <- !app_assoc. cbn [app].
              replace (length s + 2 - 2) with (length s) by lia.
              replace (length s + 2 - 1) with (length (s ++ [p1])) by (rewrite length_app; simpl; lia).
              replace (length s + 2) with (length (s ++ [p1; p2])) by (rewrite length_app; simpl; lia).
              split; [apply nth_error_last|].
              split; [rewrite (app_assoc s [p1] (p2 :: p :: later)) at 1; apply nth_error_last|].
              split; [change (p1 :: p2 :: p :: later) with ([p1; p2] ++ p :: later);
                      rewrite app_assoc; apply nth_error_last|].
              repeat split; assumption.
        -- exists p. split; [apply nth_error_last|]. split; [reflexivity | exact Hlt].
      * destruct Hst.
    + apply (Hnext _ _ H). cbn [loop_state]. right. exists seen, p. split; [reflexivity | exact Ef].
Qed.






(** * The claims *)

Lemma entry_of_caps e :
  entry_of (match el_text e with [] => js "(empty)" | _ => el_text e end) (text_rect_caps e)
  = el_entry e.
Proof.
  unfold entry_of, el_entry, text_rect_caps, rect_caps, group. cbn [nth Nat.sub].
  rewrite !parseInt_dec. reflexivity.
Qed.

(** C1, as stated, fails: a dump with one well-formed [bounds] attribute
    and no [text] attribute in front of it has one occurrence of
    [bounds], and neither scan recognizes an element in it. *)
Lemma C1_counterexample :
  bounds_occurrences dump_without_text
    = Some [[Some (js "1"); Some (js "2"); Some (js "3"); Some (js "4")]]
  /\ get_all_text_scan true dump_without_text = Some []
  /\ get_ui_tree dump_without_text = Some [].
Proof. split; [|split]; vm_compute; reflexivity. Qed.

(** *** The names of the attributes of a well-formed dump *)

Lemma clash_true_false p : forall u, clash true p u = true -> clash false p u = true.
Proof.
  induction p as [|a p IH]; intros [|c u] H; simpl in *; try discriminate H.
  destruct (Ascii.eqb_spec a c) as [->|_]; [|reflexivity].
  rewrite Ascii.eqb_refl in H. apply IH. exact H.
Qed.

Lemma clash_all_true_false p : forall u,
  clash_all true p u = true -> clash_all false p u = true.
Proof.
  induction u as [|c u IH]; intros H; [reflexivity|].
  cbn [clash_all] in *. apply andb_prop in H. destruct H as [H1 H2].
  rewrite (clash_true_false p _ H1), (IH H2). reflexivity.
Qed.

Lemma clash_name_end x : forall s m,
  no_eq s = true -> no_eq m = true ->
  clash true (s ++ "="%char :: dquote :: x) (m ++ ["="%char; dquote]) = negb (eq_ci s m).
Proof.
  induction s as [|a s IH]; intros [|c m] Hs Hm; cbn [app clash eq_ci].
  - rewrite !canon_refl. destruct x; reflexivity.
  - simpl in Hm. apply andb_prop in Hm. destruct Hm as [Hc _].
    apply negb_true_iff in Hc. rewrite canon_eq_l, Ascii.eqb_sym, Hc. reflexivity.
  - simpl in Hs. apply andb_prop in Hs. destruct Hs as [Ha _].
    apply negb_true_iff in Ha.
    rewrite Ascii.eqb_sym, canon_eq_l, Ascii.eqb_sym, Ha. reflexivity.
  - simpl in Hs, Hm. apply andb_prop in Hs. apply andb_prop in Hm.
    change (canon true a) with (upper a). change (canon true c) with (upper c).
    destruct (Ascii.eqb (upper a) (upper c)); [|reflexivity].
    cbn [andb]. apply IH; [apply Hs | apply Hm].
Qed.

Lemma clash_all_name a s x n :
  no_eq (a :: s) = true -> no_quote (a :: s) = true -> no_space (a :: s) = true ->
  forallb name_char n = true ->
  clash_all true ((a :: s) ++ "="%char :: dquote :: x) (js " " ++ n ++ js "='")
  = negb (ends_ci n (a :: s)).
Proof.
  intros Heq Hq Hsp Hn.
  simpl in Heq, Hq, Hsp.
  apply andb_prop in Heq. apply andb_prop in Hq. apply andb_prop in Hsp.
  destruct Heq as [H1 Heq]. destruct Hq as [H2 _]. destruct Hsp as [H3 _].
  assert (E1 : Ascii.eqb (canon true a) (canon true "=") = false)
    by (clear - H1; destruct a as [[] [] [] [] [] [] [] []]; vm_compute in *; congruence).
  assert (E2 : Ascii.eqb (canon true a) (canon true dquote) = false)
    by (clear - H2; destruct a as [[] [] [] [] [] [] [] []]; vm_compute in *; congruence).
  assert (E3 : Ascii.eqb (canon true a) (canon true " ") = false)
    by (clear - H3; destruct a as [[] [] [] [] [] [] [] []]; vm_compute in *; congruence).
  assert (Heq' : no_eq (a :: s) = true) by (simpl; rewrite H1; exact Heq).
  change (js " " ++ n ++ js "='") with (" "%char :: n ++ ["="%char; dquote]).
  cbn [clash_all]. cbn [app clash]. rewrite E3. cbn [andb].
  apply name_no_eq in Hn.
  induction n as [|c n IH].
  - cbn [app clash_all clash]. rewrite E1, E2. reflexivity.
  - simpl in Hn. apply andb_prop in Hn. destruct Hn as [Hc Hn].
    change ((c :: n) ++ ["="%char; dquote]) with (c :: n ++ ["="%char; dquote]).
    cbn [clash_all]. rewrite (IH Hn).
    assert (E : clash true (a :: s ++ "="%char :: dquote :: x)
                  (c :: n ++ ["="%char; dquote]) = negb (eq_ci (a :: s) (c :: n))).
    { apply (clash_name_end x (a :: s) (c :: n) Heq'). simpl. rewrite Hc. exact Hn. }
    rewrite E. cbn [ends_ci]. rewrite negb_orb. reflexivity.
Qed.

(** The attributes that a well-formed dump may hold besides [text],
    [resource-id], [class] and [bounds] are those whose name does not end
    with [text], [resource-id] or [bounds], up to the case of letters. *)
Lemma name_ok_spec n :
  name_ok n
  = forallb name_char n
    && negb (ends_ci n (js "text")) && negb (ends_ci n (js "resource-id"))
    && negb (ends_ci n (js "bounds")).
Proof.
  unfold name_ok. fold (forallb name_char n). fold name_char.
  change (forallb (fun c => value_char c && negb (Ascii.eqb c "=")) n)
    with (forallb name_char n).
  destruct (forallb name_char n) eqn:Hn; [|reflexivity].
  cbn [andb scanned_prefixes forallb].
  pose proof (clash_all_name "t" (js "ext") [] n eq_refl eq_refl eq_refl Hn) as H1.
  pose proof (clash_all_name "r" (js "esource-id") [] n eq_refl eq_refl eq_refl Hn) as H2.
  pose proof (clash_all_name "b" (js "ounds") ["["%char] n eq_refl eq_refl eq_refl Hn) as H3.
  change (("t"%char :: js "ext") ++ "="%char :: dquote :: []) with (js "text='") in H1.
  change (("r"%char :: js "esource-id") ++ "="%char :: dquote :: [])
    with (js "resource-id='") in H2.
  change (("b"%char :: js "ounds") ++ "="%char :: dquote :: ["["%char])
    with (js "bounds='[") in H3.
  change ("t"%char :: js "ext") with (js "text") in H1.
  change ("r"%char :: js "esource-id") with (js "resource-id") in H2.
  change ("b"%char :: js "ounds") with (js "bounds") in H3.
  assert (G : forall p, clash_all true p (js " " ++ n ++ js "='")
                        && clash_all false p (js " " ++ n ++ js "='")
                        = clash_all true p (js " " ++ n ++ js "='")).
  { intros p. destruct (clash_all true p _) eqn:E; [|reflexivity].
    rewrite (clash_all_true_false _ _ E). reflexivity. }
  rewrite !G, H1, H2, H3, andb_true_r, andb_assoc. reflexivity.
Qed.

(** C1, amended: in a well-formed dump (every node tag with one [text]
    attribute in front of its [bounds] attribute, and other attributes
    whose names do not end with [text], [resource-id] or [bounds]:
    [name_ok_spec]), the occurrences of [bounds] are those of the nodes,
    and the scans of [get_all_text] and [get_ui_tree] match exactly once
    per occurrence, with the text and the bounds of the nodes in the order
    of the dump; [get_all_text] with [includeEmpty] makes one entry of each
    match, and [get_ui_tree] one entry of each match whose text is not
    empty.  The condition on the names is needed for the texts: in a tag
    with [hint-text] in front of [text], the scans take the hint for the
    text of the node. *)
Theorem C1_scan_of_well_formed_dump items :
  wf_dump items = true ->
  bounds_occurrences (dump_xml items) = Some (map rect_caps (elements items))
  /\ exec_all false get_all_text_regex (dump_xml items)
     = Some (map text_rect_caps (elements items))
  /\ exec_all false get_ui_tree_regex (dump_xml items)
     = Some (map text_rect_caps (elements items))
  /\ get_all_text_scan true (dump_xml items) = Some (map el_entry (elements items))
  /\ get_ui_tree (dump_xml items) = Some (map el_entry (filter has_text (elements items)))
  /\ name_ok (js "hint-text") = false
  /\ get_all_text_scan true dump_hint_text
     = Some [{| te_text := js "Type here"; te_centerX := Int 5; te_centerY := Int 5 |}]
  /\ get_ui_tree dump_hint_text
     = Some [{| te_text := js "Type here"; te_centerX := Int 5; te_centerY := Int 5 |}].
Proof.
  intros Hwf.
  assert (H1 : exec_all false get_all_text_regex (dump_xml items)
               = Some (map text_rect_caps (elements items))).
  { rewrite literal_get_all_text. apply scan_capture; [right; reflexivity | exact Hwf]. }
  assert (H2 : exec_all false get_ui_tree_regex (dump_xml items)
               = Some (map text_rect_caps (elements items))).
  { rewrite literal_get_ui_tree. apply scan_capture; [left; reflexivity | exact Hwf]. }
  split; [apply bounds_scan; exact Hwf|].
  split; [exact H1|]. split; [exact H2|]. split; [|split].
  - unfold get_all_text_scan. rewrite H1. cbn [option_map]. f_equal.
    generalize (elements items) as es. clear.
    induction es as [|e es IH]; [reflexivity|].
    cbn [map flat_map]. rewrite IH, orb_true_r. cbn [app]. f_equal.
    etransitivity; [|apply entry_of_caps]. f_equal.
    unfold text_rect_caps, group. cbn [nth Nat.sub].
    destruct (el_text e); reflexivity.
  - unfold get_ui_tree. rewrite H2. cbn [option_map]. f_equal.
    generalize (elements items) as es. clear.
    induction es as [|e es IH]; [reflexivity|].
    cbn [map flat_map filter]. rewrite IH.
    assert (Ht : truthy (group (text_rect_caps e) 1) = has_text e).
    { unfold has_text, text_rect_caps, group. cbn [nth Nat.sub truthy].
      destruct (el_text e); reflexivity. }
    rewrite Ht. destruct (has_text e) eqn:E; [|reflexivity].
    cbn [map app]. f_equal. etransitivity; [|apply entry_of_caps]. f_equal.
    unfold has_text in E. unfold text_rect_caps, group. cbn [nth Nat.sub spliced].
    destruct (el_text e); [discriminate | reflexivity].
  - split; [|split]; vm_compute; reflexivity.
Qed.

Lemma C1_witness :
  wf_dump two_ok = true
  /\ bounds_occurrences (dump_xml two_ok) = Some (map rect_caps (elements two_ok))
  /\ get_all_text_scan true (dump_xml two_ok) = Some (map el_entry (elements two_ok)).
Proof.
  split; [vm_compute; reflexivity|].
  pose proof (C1_scan_of_well_formed_dump two_ok ltac:(vm_compute; reflexivity))
    as (H1 & _ & _ & H2 & _).
  split; [exact H1 | exact H2].
Defined.





(** C3, as stated, fails: [get_element_bounds] given both a text and a
    resourceId locates the element with the text, not the one with the
    resourceId, and [is_element_visible] does the same. *)
Lemma C3_counterexample :
  get_element_bounds (Some (js "A")) (Some (js "id_b")) None dump_a_b
    = Returned (GebFound 1 0 (Int 0) (Int 0) (Int 10) (Int 10) (Int 5) (Int 5))
  /\ get_element_bounds None (Some (js "id_b")) None dump_a_b
    = Returned (GebFound 1 0 (Int 0) (Int 20) (Int 10) (Int 10) (Int 5) (Int 25))
  /\ is_element_visible (Some (js "A")) (Some (js "id_b")) dump_a_b
    = is_element_visible (Some (js "A")) None dump_a_b.
Proof. split; [|split]; vm_compute; reflexivity. Qed.

(** C3, amended: in [tap_element] a query with a non-empty resourceId is
    resolved by the resourceId and its text and [exact] are ignored; in
    [get_element_bounds] a query with a non-empty text is resolved by the
    text and its resourceId is ignored; [is_element_visible] looks for the
    text first and ignores the resourceId once the text is found. *)
Theorem C3_precedence_per_tool
  (text text' resourceId resourceId' : option str) (index : option Z)
  (exact exact' : option bool) (xml : str) :
  truthy text = true -> truthy resourceId = true ->
  tap_element text resourceId index exact xml
    = tap_element text' resourceId index exact' xml
  /\ get_element_bounds text resourceId index xml
    = get_element_bounds text resourceId' index xml
  /\ (forall m,
        first_match
          (js "text='[^']*" ++ escapedText (spliced text) ++ js "[^']*'.*?" ++ bounds_pattern)
          xml = Returned (Some m) ->
        is_element_visible text resourceId xml
          = Returned (VisResult true (Some (visible_bounds_of m)))
        /\ is_element_visible text resourceId' xml
          = Returned (VisResult true (Some (visible_bounds_of m)))).
Proof.
  intros Ht Hr. split; [|split].
  - unfold tap_element, tap_pattern, tap_search_type. rewrite Hr.
    rewrite !andb_false_r. reflexivity.
  - unfold get_element_bounds, geb_pattern. rewrite Ht. reflexivity.
  - intros m Hm. unfold is_element_visible. rewrite Ht, Hm.
    cbn [negb andb]. rewrite !andb_false_r. split; reflexivity.
Qed.

Lemma C3_witness :
  tap_element (Some (js "A")) (Some (js "id_b")) None None dump_a_b
    = tap_element None (Some (js "id_b")) None (Some true) dump_a_b.
Proof.
  apply (C3_precedence_per_tool (Some (js "A")) None (Some (js "id_b")) None None
           None (Some true) dump_a_b); reflexivity.
Defined.

(** ** Selecting among the matches *)









(** C7, as stated, fails: the pattern is applied with the flag [i], so a
    resourceId matches a resource-id that differs from it in the case of
    its letters. *)
Lemma C7_counterexample :
  js "COM_APP:ID/LOGIN" <> js "com_app:id/login"
  /\ tap_element None (Some (js "COM_APP:ID/LOGIN")) None None dump_upper_id
     = Returned (Tapped (ByResourceId (js "COM_APP:ID/LOGIN")) (Int 5) (Int 5) None)
  /\ get_element_bounds None (Some (js "COM_APP:ID/LOGIN")) None dump_upper_id
     = Returned (GebFound 1 0 (Int 0) (Int 0) (Int 10) (Int 10) (Int 5) (Int 5)).
Proof.
  split; [|split]; try (vm_compute; reflexivity).
  intros C. vm_compute in C. discriminate C.
Qed.

(** C7, amended: for a resourceId without pattern metacharacters, the
    matches of [tap_element] and of [get_element_bounds] on a well-formed
    dump are the nodes whose resource-id equals the resourceId up to the
    case of letters, and no others; the match is never partial. *)
Theorem C7_identifier_match_up_to_case
  (items : list item) (q : str) (text : option str) (exact : bool) :
  wf_dump items = true -> q <> [] -> plain_id q = true ->
  collect_matches (tap_pattern text (Some q) exact) (dump_xml items)
    = Returned (map el_rect (filter (fun e => eq_ci q (el_id e)) (elements items)))
  /\ (truthy text = false ->
      collect_matches (geb_pattern text (Some q)) (dump_xml items)
      = Returned (map el_rect (filter (fun e => eq_ci q (el_id e)) (elements items)))).
Proof.
  intros Hwf Hq Hp. split.
  - apply tap_matches_id; assumption.
  - intros Ht. apply geb_matches_id; assumption.
Qed.

Lemma C7_witness :
  collect_matches (tap_pattern None (Some (js "LOGIN_button")) false) (dump_xml two_ids)
  = Returned [el_rect (button "Login" "login_button" 0 200)].
Proof.
  apply (C7_identifier_match_up_to_case two_ids (js "LOGIN_button") None false);
    try (vm_compute; reflexivity); discriminate.
Defined.

(** ** Centers *)

Lemma Math_round_half (s : Z) :
  Math_round (inject_Z s / inject_Z 2)%Q = ((s + 1) / 2)%Z.
Proof.
  unfold Math_round.
  assert (E : (inject_Z s / inject_Z 2 + (1 # 2) == (s + 1) # 2)%Q).
  { unfold Qeq, Qdiv, Qmult, Qplus, Qinv, inject_Z. simpl. lia. }
  rewrite (Qfloor_comp _ _ E). unfold Qfloor. reflexivity.
Qed.

Lemma center_formula a b : center a b = ((Z.of_N a + Z.of_N b + 1) / 2)%Z.
Proof. unfold center. apply Math_round_half. Qed.

(** C8: when [get_element_bounds] or [tap_element] locates an element,
    by text or by resourceId and at any index, the center it reports is
    (round((x1 + x2) / 2), round((y1 + y2) / 2)) for the bounds
    (x1, y1, x2, y2) of the match that the index selects, [round] being
    [Math.round]: halves go up.  On a well-formed dump, for a query read
    literally, these bounds are those of a node that satisfies the query.
    In particular the dump [text="Submit" bounds="[100,200][300,250]"]
    located by the text Submit has the center (200, 225). *)
Theorem C8_center_of_located_element
  (text resourceId : option str) (index : option Z) (exact : option bool) :
  (forall xml m i x y w h cx cy,
     get_element_bounds text resourceId index xml
       = Returned (GebFound m i x y w h cx cy) ->
     exists ms r,
       collect_matches (geb_pattern text resourceId) xml = Returned ms
       /\ nth_error ms (Z.to_nat (default_index index)) = Some r
       /\ x = x1 r /\ y = y1 r /\ w = num_sub (x2 r) (x1 r) /\ h = num_sub (y2 r) (y1 r)
       /\ cx = round_half_sum (x1 r) (x2 r) /\ cy = round_half_sum (y1 r) (y2 r))
  /\ (forall xml what cx cy position,
        tap_element text resourceId index exact xml
          = Returned (Tapped what cx cy position) ->
        exists ms r,
          collect_matches
            (tap_pattern text resourceId (match exact with Some b => b | None => false end))
            xml = Returned ms
          /\ nth_error ms (Z.to_nat (default_index index)) = Some r
          /\ cx = round_half_sum (x1 r) (x2 r) /\ cy = round_half_sum (y1 r) (y2 r))
  /\ (forall items m i x y w h cx cy,
        wf_dump items = true -> geb_query_ok text resourceId = true ->
        get_element_bounds text resourceId index (dump_xml items)
          = Returned (GebFound m i x y w h cx cy) ->
        exists e, In e (elements items) /\ geb_criterion text resourceId e = true
          /\ x = Int (Z.of_N (el_x1 e)) /\ y = Int (Z.of_N (el_y1 e))
          /\ w = Int (Z.of_N (el_x2 e) - Z.of_N (el_x1 e))
          /\ h = Int (Z.of_N (el_y2 e) - Z.of_N (el_y1 e))
          /\ (cx, cy) = el_center e)
  /\ (forall items what cx cy position,
        wf_dump items = true -> tap_query_ok text resourceId = true ->
        tap_element text resourceId index exact (dump_xml items)
          = Returned (Tapped what cx cy position) ->
        exists e, In e (elements items)
          /\ tap_criterion text resourceId
               (match exact with Some b => b | None => false end) e = true
          /\ (cx, cy) = el_center e)
  /\ get_element_bounds (Some (js "Submit")) None None dump_submit
     = Returned (GebFound 1 0 (Int 100) (Int 200) (Int 200) (Int 50) (Int 200) (Int 225))
  /\ tap_element (Some (js "Submit")) None None None dump_submit
     = Returned (Tapped (ByContainedText (js "Submit")) (Int 200) (Int 225) None).
Proof.
  split; [|split; [|split; [|split; [|split; vm_compute; reflexivity]]]].
  - intros xml m i x y w h cx cy H.
    destruct (geb_found_inv _ _ _ _ _ _ _ _ _ _ _ _ H)
      as (ms & r & Hm & Hr & -> & _ & _ & Hrest).
    exists ms, r. split; [exact Hm|]. split; [exact Hr | exact Hrest].
  - intros xml what cx cy position H.
    destruct (tap_found_inv _ _ _ _ _ _ _ _ _ H) as (ms & r & Hm & Hr & _ & Hrest).
    exists ms, r. split; [exact Hm|]. split; [exact Hr | exact Hrest].
  - intros items m i x y w h cx cy Hwf Hq H.
    destruct (geb_found_inv _ _ _ _ _ _ _ _ _ _ _ _ H)
      as (ms & r & Hm & Hr & _ & _ & _ & -> & -> & -> & -> & -> & ->).
    rewrite (geb_matches _ _ _ Hq Hwf) in Hm. inversion Hm; subst ms.
    destruct (located_node _ _ _ _ Hr) as (e & Hin & Hc & ->).
    exists e. repeat split; assumption.
  - intros items what cx cy position Hwf Hq H.
    destruct (tap_found_inv _ _ _ _ _ _ _ _ _ H) as (ms & r & Hm & Hr & _ & -> & ->).
    rewrite (tap_matches _ _ _ _ Hq Hwf) in Hm. inversion Hm; subst ms.
    destruct (located_node _ _ _ _ Hr) as (e & Hin & Hc & ->).
    exists e. repeat split; assumption.
Qed.

Lemma C8_witness :
  exists e, In e (elements two_ids)
    /\ tap_criterion None (Some (js "login_button_2")) false e = true
    /\ (Int 200, Int 425) = el_center e.
Proof.
  refine (proj1 (proj2 (proj2 (proj2
            (C8_center_of_located_element None (Some (js "login_button_2")) None None))))
            two_ids (ByResourceId (js "login_button_2")) (Int 200) (Int 425) None _ _ _);
    vm_compute; reflexivity.
Defined.

(** ** Totality *)











(** C10: with at least one match and a negative index, the guard
    [index >= matches.length] does not fire, [matches[index]] is undefined
    and reading its field throws a TypeError: neither tool returns a
    not-found or an out-of-range reply. *)
Theorem C10_negative_index_throws
  (text resourceId : option str) (exact : option bool) (i : Z) (xml : str)
  (ms ms' : list rect) :
  (truthy text || truthy resourceId)%bool = true ->
  (i < 0)%Z ->
  collect_matches (geb_pattern text resourceId) xml = Returned ms -> ms <> [] ->
  collect_matches
    (tap_pattern text resourceId (match exact with Some b => b | None => false end)) xml
    = Returned ms' -> ms' <> [] ->
  get_element_bounds text resourceId (Some i) xml = Throws TypeError
  /\ tap_element text resourceId (Some i) exact xml = Throws TypeError.
Proof.
  intros Hp Hi Hm Hne Hm' Hne'. split.
  - apply (geb_negative _ _ _ _ i Hp Hm Hne Hi).
  - apply (tap_negative _ _ _ _ i Hp exact Hm' Hne' Hi).
Qed.

Lemma C10_witness :
  get_element_bounds (Some (js "OK")) None (Some (-1)%Z) dump_two_ok = Throws TypeError
  /\ tap_element (Some (js "OK")) None (Some (-1)%Z) None dump_two_ok = Throws TypeError.
Proof.
  refine (C10_negative_index_throws (Some (js "OK")) None None (-1) dump_two_ok
            [ {| x1 := Int 0; y1 := Int 0; x2 := Int 10; y2 := Int 10 |};
              {| x1 := Int 0; y1 := Int 20; x2 := Int 10; y2 := Int 30 |} ]
            [ {| x1 := Int 0; y1 := Int 0; x2 := Int 10; y2 := Int 10 |};
              {| x1 := Int 0; y1 := Int 20; x2 := Int 10; y2 := Int 30 |} ]
            eq_refl _ _ _ _ _).
  - lia.
  - vm_compute. reflexivity.
  - discriminate.
  - vm_compute. reflexivity.
  - discriminate.
Defined.

(** C5, on the code: on a well-formed dump the pattern of
    [extractUIFingerprint] matches every node at the start of its tag, where
    the optional group for [text] is passed over, and the repetition that
    follows swallows the [class] attribute: the match captures neither, no
    record is made and the fingerprint is empty.  So lowering the bottom
    edge of a node by one unit, whatever its text and its class are, leaves
    the fingerprint unchanged. *)
Theorem C5_fingerprint_misses_bounds_change
  (before after : list item) (leaf : bool) (e : element) :
  wf_dump (before ++ Node leaf e :: after) = true ->
  el_rect (lowered e) <> el_rect e
  /\ exec_all false fingerprint_regex (dump_xml (before ++ Node leaf e :: after))
     = Some (map fp_caps (elements (before ++ Node leaf e :: after)))
  /\ extractUIFingerprint (dump_xml (before ++ Node leaf e :: after)) = Some []
  /\ extractUIFingerprint (dump_xml (before ++ Node leaf (lowered e) :: after)) = Some [].
Proof.
  intros Hwf.
  assert (Hwf' : wf_dump (before ++ Node leaf (lowered e) :: after) = true).
  { unfold wf_dump in *. rewrite forallb_app in *. exact Hwf. }
  split; [|split; [|split]].
  - unfold el_rect, lowered. cbn [el_x1 el_y1 el_x2 el_y2]. intros C.
    inversion C as [H]. lia.
  - apply fingerprint_scan. exact Hwf.
  - apply fingerprint_empty. exact Hwf.
  - apply fingerprint_empty. exact Hwf'.
Qed.

Lemma C5_witness :
  extractUIFingerprint (dump_xml (screen [button "OK" "com.app:id/ok" 0 200])) = Some []
  /\ extractUIFingerprint (dump_xml (screen [lowered (button "OK" "com.app:id/ok" 0 200)]))
     = Some [].
Proof.
  pose proof (C5_fingerprint_misses_bounds_change
                [Node false root_frame] [Close] true (button "OK" "com.app:id/ok" 0 200)
                ltac:(vm_compute; reflexivity)) as (_ & _ & H1 & H2).
  split; [exact H1 | exact H2].
Defined.

(** * More properties *)

(** ** The first match of a scan *)

Lemma exec_all_first ic c s l :
  exec_all ic c s = Some l -> option_map fst (exec_from ic c s) = hd_error l.
Proof.
  unfold exec_all. cbn [exec_loop]. destruct (exec_from ic c s) as [[cs rest]|].
  - destruct (exec_loop (length s) ic c rest) as [l'|]; simpl; [|discriminate].
    intros H. inversion H. reflexivity.
  - intros H. inversion H. reflexivity.
Qed.

Lemma hd_error_map_filter {A B} (f : A -> B) (p : A -> bool) l :
  hd_error (map f (filter p l)) = option_map f (find p l).
Proof.
  induction l as [|x l IH]; simpl; [reflexivity|].
  destruct (p x); [reflexivity | exact IH].
Qed.

Lemma first_match_compiled pattern c xml l :
  RegExp_new pattern = POk c -> exec_all true c xml = Some l ->
  first_match pattern xml = Returned (hd_error l).
Proof.
  intros H1 H2. unfold first_match. rewrite H1, (exec_all_first _ _ _ _ H2). reflexivity.
Qed.

Lemma compile_text_contains_lazy q :
  RegExp_new (js "text='[^']*" ++ escapedText q ++ js "[^']*'.*?" ++ bounds_pattern)
  = POk {| re := seq_of (text_contains_items lazy_dots q); ncaps := 4 |}.
Proof.
  destruct q as [|c q]; [vm_compute; reflexivity|].
  apply compile_geb_text. discriminate.
Qed.

Lemma compile_text_exact_lazy q :
  RegExp_new (js "text='" ++ escapedText q ++ js "'.*?" ++ bounds_pattern)
  = POk {| re := seq_of (text_exact_items lazy_dots q); ncaps := 4 |}.
Proof.
  destruct q as [|c q]; [vm_compute; reflexivity|].
  rewrite (RegExp_new_spliced (js "text='") (c :: q) (js "'.*?" ++ bounds_pattern)
             (rev (map lit (js "text='"))) LChar
             (rev (lit dquote :: lazy_dots :: tail_items 0)) 4).
  - reflexivity.
  - discriminate.
  - vm_compute; reflexivity.
  - intros items; vm_compute; reflexivity.
  - apply psteps_escapedText. reflexivity.
Qed.

Lemma center_of_caps e :
  round_half_sum (parseInt (group (rect_caps e) 1)) (parseInt (group (rect_caps e) 3))
  = el_centerX e
  /\ round_half_sum (parseInt (group (rect_caps e) 2)) (parseInt (group (rect_caps e) 4))
     = el_centerY e.
Proof.
  unfold rect_caps, group. cbn [nth Nat.sub]. rewrite !parseInt_dec. split; reflexivity.
Qed.

(** The first match of the text patterns on a well-formed dump. *)
Lemma first_text_match exact q items :
  no_quote q = true -> wf_dump items = true ->
  first_match (tap_text_pattern q exact) (dump_xml items)
  = Returned (option_map rect_caps (first_node (text_matches exact q) items)).
Proof.
  intros Hq Hwf. unfold tap_text_pattern, first_node, text_matches.
  rewrite <- hd_error_map_filter. destruct exact.
  - apply (first_match_compiled _ _ _ _ (compile_text_exact_lazy q)).
    apply scan_exact; [left; reflexivity | assumption | assumption].
  - apply (first_match_compiled _ _ _ _ (compile_text_contains_lazy q)).
    apply scan_contains; [left; reflexivity | assumption | assumption].
Qed.

(** ** tap_text *)

Lemma tap_text_taps_first_node_aux items q exact :
  wf_dump items = true -> no_quote q = true ->
  summary_of_tap_text (tap_text q exact (dump_xml items))
  = match first_node (text_matches (match exact with Some b => b | None => false end) q)
            items with
    | Some e => TapsAt (el_centerX e) (el_centerY e)
    | None => FindsNothing
    end.
Proof.
  intros Hwf Hq. unfold tap_text. rewrite (first_text_match _ q items Hq Hwf).
  destruct (first_node _ items) as [e|]; [|reflexivity].
  cbn [option_map]. destruct (center_of_caps e) as [-> ->]. reflexivity.
Qed.

(** ** tap_text *)

(** X1: On a well-formed dump [tap_text] taps the center of the first node,
    in document order, whose text contains the query up to the case of
    letters (equals it, with [exact]); it reports that the element is not
    found exactly when there is no such node. The empty query is a query
    like the others: it taps the first node. *)
Theorem tap_text_taps_first_node (items : list item) (q : str) (exact : option bool) :
  wf_dump items = true -> no_quote q = true ->
  tap_text q exact (dump_xml items)
  = Returned
      match first_node (text_matches (match exact with Some b => b | None => false end) q)
              items with
      | Some e => TextTapped (el_centerX e) (el_centerY e)
      | None => TextNotFound
      end.
Proof.
  intros Hwf Hq. unfold tap_text. rewrite (first_text_match _ q items Hq Hwf).
  destruct (first_node _ items) as [e|]; [|reflexivity].
  cbn [option_map]. destruct (center_of_caps e) as [-> ->]. reflexivity.
Qed.

Lemma tap_text_taps_first_node_witness :
  tap_text (js "log") None (dump_xml login_screen)
  = Returned (TextTapped (Int 200) (Int 225)).
Proof.
  apply (tap_text_taps_first_node login_screen (js "log") None); vm_compute; reflexivity.
Defined.

(** ** tap_text and tap_element *)

Lemma centers_of_rect e :
  round_half_sum (x1 (el_rect e)) (x2 (el_rect e)) = el_centerX e
  /\ round_half_sum (y1 (el_rect e)) (y2 (el_rect e)) = el_centerY e.
Proof. split; reflexivity. Qed.

(** The reply of [tap_element] to a text query with the default index. *)
Lemma tap_element_first_node items q exact :
  wf_dump items = true -> q <> [] -> no_quote q = true ->
  summary_of_tap_element (tap_element (Some q) None None exact (dump_xml items))
  = match first_node (text_matches (match exact with Some b => b | None => false end) q)
            items with
    | Some e => TapsAt (el_centerX e) (el_centerY e)
    | None => FindsNothing
    end.
Proof.
  intros Hwf Hq Hn.
  set (exact' := match exact with Some b => b | None => false end).
  set (found := filter (text_matches exact' q) (elements items)).
  assert (Ht : collect_matches (tap_pattern (Some q) None exact') (dump_xml items)
               = Returned (map el_rect found)).
  { unfold found, text_matches. destruct exact'.
    - apply tap_matches_exact; auto.
    - apply tap_matches_contains; auto. }
  assert (Hp : (truthy (Some q) || truthy None)%bool = true)
    by (rewrite (truthy_some q Hq); reflexivity).
  unfold first_node. fold exact'.
  assert (Hf : find (text_matches exact' q) (elements items) = hd_error found).
  { unfold found. rewrite <- (map_id (filter _ _)), hd_error_map_filter.
    destruct (find _ _); reflexivity. }
  rewrite Hf. destruct found as [|e found'] eqn:E.
  - rewrite (tap_not_found _ _ _ _ Hp exact Ht None eq_refl). reflexivity.
  - change (tap_element (Some q) None None exact (dump_xml items))
      with (tap_element (Some q) None (Some 0%Z) exact (dump_xml items)).
    rewrite (tap_found _ _ _ _ 0 Hp exact Ht (el_rect e) ltac:(lia) eq_refl).
    reflexivity.
Qed.

(** X2: On a well-formed dump, [tap_element] with a text, no resourceId and
    the default index does what [tap_text] does: both tap the same point or
    both find nothing. It takes the well-formedness: when the bounds that
    follow a text belong to another tag, [tap_text] takes them and
    [tap_element] does not. *)
Theorem tap_element_agrees_with_tap_text (items : list item) (q : str) (exact : option bool) :
  wf_dump items = true -> q <> [] -> no_quote q = true ->
  summary_of_tap_element (tap_element (Some q) None None exact (dump_xml items))
  = summary_of_tap_text (tap_text q exact (dump_xml items))
  /\ summary_of_tap_text (tap_text q exact (dump_xml items)) <> OtherReply
  /\ summary_of_tap_text (tap_text (js "OK") None dump_split_tags) = TapsAt (Int 5) (Int 5)
  /\ summary_of_tap_element (tap_element (Some (js "OK")) None None None dump_split_tags)
     = FindsNothing.
Proof.
  intros Hwf Hq Hn.
  rewrite (tap_element_first_node items q exact Hwf Hq Hn).
  rewrite (tap_text_taps_first_node_aux items q exact Hwf Hn).
  split; [|split; [|split]].
  - destruct (first_node _ items); reflexivity.
  - destruct (first_node _ items); discriminate.
  - vm_compute; reflexivity.
  - vm_compute; reflexivity.
Qed.

Lemma tap_element_agrees_with_tap_text_witness :
  summary_of_tap_element
    (tap_element (Some (js "login")) None None (Some true) (dump_xml login_screen))
  = summary_of_tap_text (tap_text (js "login") (Some true) (dump_xml login_screen)).
Proof.
  apply (tap_element_agrees_with_tap_text login_screen (js "login") (Some true));
    try (vm_compute; reflexivity).
  discriminate.
Defined.

(** ** is_element_visible *)

Lemma visible_bounds_of_caps e : visible_bounds_of (rect_caps e) = el_visible_bounds e.
Proof.
  unfold visible_bounds_of. rewrite rect_of_caps. reflexivity.
Qed.

Lemma first_id_match q items :
  q <> [] -> plain_id q = true -> wf_dump items = true ->
  first_match (js "resource-id='" ++ q ++ js "'.*?" ++ bounds_pattern) (dump_xml items)
  = Returned (option_map rect_caps (first_node (fun e => eq_ci q (el_id e)) items)).
Proof.
  intros Hq Hp Hwf. unfold first_node. rewrite <- hd_error_map_filter.
  apply (first_match_compiled _ _ _ _ (compile_geb_id q Hq Hp)).
  apply scan_id; [left; reflexivity | apply plain_id_no_quote; assumption | assumption].
Qed.

(** X3: On a well-formed dump, for a query whose text holds no double
    quote and whose resourceId holds no character with a meaning in a
    pattern (a dot is one), [is_element_visible] reports the first node
    whose text contains the text of the query, up to the case of letters;
    when there is none, or no text is given, the first node whose
    resource-id equals the resourceId of the query up to case; and reports
    [visible: false] when there is none either.  The bounds and the center
    are those of the node. *)
Theorem is_element_visible_on_dump (items : list item) (text resourceId : option str) :
  wf_dump items = true ->
  (truthy text || truthy resourceId)%bool = true ->
  (truthy text = true -> no_quote (spliced text) = true) ->
  (truthy resourceId = true -> plain_id (spliced resourceId) = true) ->
  is_element_visible text resourceId (dump_xml items)
  = Returned
      match (if truthy text
             then first_node (fun e => contains_ci (spliced text) (el_text e)) items
             else None),
            (if truthy resourceId
             then first_node (fun e => eq_ci (spliced resourceId) (el_id e)) items
             else None) with
      | Some e, _ => VisResult true (Some (el_visible_bounds e))
      | None, Some e => VisResult true (Some (el_visible_bounds e))
      | None, None => VisResult false None
      end.
Proof.
  intros Hwf Hp Ht Hr. unfold is_element_visible. rewrite (provided _ _ Hp).
  assert (Hid : truthy resourceId = true ->
    first_match (js "resource-id='" ++ spliced resourceId ++ js "'.*?" ++ bounds_pattern)
      (dump_xml items)
    = Returned (option_map rect_caps
                  (first_node (fun e => eq_ci (spliced resourceId) (el_id e)) items))).
  { intros H. apply first_id_match; [|apply Hr; exact H | exact Hwf].
    destruct resourceId as [[|]|]; simpl in H; try discriminate H. discriminate. }
  destruct (truthy text) eqn:Et.
  - pose proof (first_text_match false (spliced text) items (Ht eq_refl) Hwf) as H1.
    unfold tap_text_pattern, text_matches in H1. rewrite H1.
    destruct (first_node (fun e => contains_ci (spliced text) (el_text e)) items) as [e|].
    + cbn [option_map negb andb]. rewrite andb_false_r.
      rewrite visible_bounds_of_caps. reflexivity.
    + cbn [option_map negb andb]. rewrite andb_true_r.
      destruct (truthy resourceId) eqn:Er; [|reflexivity].
      rewrite (Hid eq_refl).
      destruct (first_node (fun e => eq_ci (spliced resourceId) (el_id e)) items) as [e|];
        [|reflexivity].
      cbn [option_map]. rewrite visible_bounds_of_caps. reflexivity.
  - simpl in Hp. rewrite Hp. cbn [negb andb]. rewrite (Hid Hp).
    destruct (first_node (fun e => eq_ci (spliced resourceId) (el_id e)) items) as [e|];
      [|reflexivity].
    cbn [option_map]. rewrite visible_bounds_of_caps. reflexivity.
Qed.

Lemma is_element_visible_on_dump_witness :
  is_element_visible (Some (js "missing")) (Some (js "login_button_2")) (dump_xml two_ids)
  = Returned (VisResult true
                (Some (el_visible_bounds (button "Login again" "login_button_2" 1 400)))).
Proof.
  apply (is_element_visible_on_dump two_ids (Some (js "missing")) (Some (js "login_button_2")));
    try (vm_compute; reflexivity); intros _; vm_compute; reflexivity.
Defined.

(** ** Sorting *)

Section SortFacts.
Context {A : Type} (cmp : A -> A -> Z).

Lemma insert_sorted_perm x l : Permutation (insert_sorted cmp x l) (x :: l).
Proof.
  induction l as [|y l IH]; simpl; [reflexivity|].
  destruct (cmp y x <=? 0)%Z; [|reflexivity].
  rewrite IH. apply perm_swap.
Qed.

Lemma fold_insert_perm l : forall acc,
  Permutation (fold_left (fun acc x => insert_sorted cmp x acc) l acc) (l ++ acc).
Proof.
  induction l as [|x l IH]; intros acc; simpl; [reflexivity|].
  rewrite IH, insert_sorted_perm. symmetry. apply Permutation_middle.
Qed.

(** [sort] keeps the entries. *)
Lemma array_sort_perm l : Permutation (array_sort cmp l) l.
Proof. unfold array_sort. rewrite fold_insert_perm, app_nil_r. reflexivity. Qed.

Variables (P : A -> Prop) (R : A -> A -> Prop).
Hypothesis Hle : forall a b, P a -> P b -> (cmp a b <= 0)%Z -> R a b.
Hypothesis Hgt : forall a b, P a -> P b -> (0 < cmp a b)%Z -> R b a.

Lemma insert_sorted_hd x y l :
  P x -> P y -> Forall P l -> R y x -> HdRel R y l -> HdRel R y (insert_sorted cmp x l).
Proof.
  intros Hx Hy Hl Hyx Hhd. destruct l as [|z l]; simpl.
  - constructor. exact Hyx.
  - destruct (cmp z x <=? 0)%Z; constructor; [|exact Hyx].
    inversion Hhd. assumption.
Qed.

Lemma insert_sorted_sorted x : forall l,
  P x -> Forall P l -> Sorted R l -> Sorted R (insert_sorted cmp x l).
Proof.
  induction l as [|y l IH]; intros Hx Hl Hs; simpl.
  - repeat constructor.
  - inversion Hl as [|? ? Hy Hl']; subst. inversion Hs as [|? ? Hs' Hhd]; subst.
    destruct (Z.leb_spec (cmp y x) 0) as [Hc|Hc].
    + constructor; [apply IH; assumption|].
      apply insert_sorted_hd; try assumption. apply Hle; assumption.
    + constructor; [exact Hs|]. constructor. apply (Hgt y x); assumption.
Qed.

Lemma fold_insert_sorted l : forall acc,
  Forall P l -> Forall P acc -> Sorted R acc ->
  Sorted R (fold_left (fun acc x => insert_sorted cmp x acc) l acc).
Proof.
  induction l as [|x l IH]; intros acc Hl Hacc Hs; simpl; [exact Hs|].
  inversion Hl; subst. apply IH; try assumption.
  - rewrite Forall_forall in *. intros z Hz.
    apply (Permutation_in _ (insert_sorted_perm x acc)) in Hz.
    destruct Hz as [<-|Hz]; auto.
  - apply insert_sorted_sorted; assumption.
Qed.

(** With a comparator that orders the entries, [sort] puts them in order. *)
Lemma array_sort_sorted l : Forall P l -> Sorted R (array_sort cmp l).
Proof.
  intros Hl. apply fold_insert_sorted; [exact Hl | constructor | constructor].
Qed.
End SortFacts.

(** ** get_all_text *)

Lemma el_entry_int e : int_entry (el_entry e).
Proof. split; eexists; reflexivity. Qed.

Lemma by_position_le a b :
  int_entry a -> int_entry b -> (by_position a b <= 0)%Z -> te_before a b.
Proof.
  intros [[xa Ha] [ya Ha']] [[xb Hb] [yb Hb']]. unfold by_position, te_before.
  rewrite Ha, Ha', Hb, Hb'. cbn [num_sub].
  destruct (Z.eqb_spec (ya - yb) 0); lia.
Qed.

Lemma by_position_gt a b :
  int_entry a -> int_entry b -> (0 < by_position a b)%Z -> te_before b a.
Proof.
  intros [[xa Ha] [ya Ha']] [[xb Hb] [yb Hb']]. unfold by_position, te_before.
  rewrite Ha, Ha', Hb, Hb'. cbn [num_sub].
  destruct (Z.eqb_spec (ya - yb) 0); lia.
Qed.

Lemma te_before_trans a b c : te_before a b -> te_before b c -> te_before a c.
Proof.
  unfold te_before.
  destruct (te_centerY a), (te_centerY b), (te_centerY c),
    (te_centerX a), (te_centerX b), (te_centerX c); try tauto; lia.
Qed.

(** The array [texts] of [get_all_text] before it is sorted. *)
Lemma get_all_text_scan_wf includeEmpty items :
  wf_dump items = true ->
  get_all_text_scan includeEmpty (dump_xml items)
  = Some (map el_entry (filter (listed includeEmpty) (elements items))).
Proof.
  intros Hwf. unfold get_all_text_scan.
  rewrite literal_get_all_text, (scan_capture _ items (or_intror eq_refl) Hwf).
  cbn [option_map]. f_equal.
  generalize (elements items) as es.
  induction es as [|e es IH]; [reflexivity|].
  cbn [map flat_map filter]. rewrite IH.
  assert (Ht : truthy (group (text_rect_caps e) 1) = has_text e).
  { unfold has_text, text_rect_caps, group. cbn [nth Nat.sub truthy].
    destruct (el_text e); reflexivity. }
  rewrite Ht. unfold listed. destruct (has_text e || includeEmpty)%bool; [|reflexivity].
  cbn [map app]. f_equal. etransitivity; [|apply entry_of_caps]. f_equal.
  unfold has_text, text_rect_caps, group. cbn [nth Nat.sub spliced].
  destruct (el_text e); reflexivity.
Qed.

Lemma get_ui_tree_wf items :
  wf_dump items = true ->
  get_ui_tree (dump_xml items) = Some (map el_entry (filter has_text (elements items))).
Proof.
  intros Hwf. unfold get_ui_tree.
  rewrite literal_get_ui_tree, (scan_capture _ items (or_introl eq_refl) Hwf).
  cbn [option_map]. f_equal.
  generalize (elements items) as es.
  induction es as [|e es IH]; [reflexivity|].
  cbn [map flat_map filter]. rewrite IH.
  assert (Ht : truthy (group (text_rect_caps e) 1) = has_text e).
  { unfold has_text, text_rect_caps, group. cbn [nth Nat.sub truthy].
    destruct (el_text e); reflexivity. }
  rewrite Ht. destruct (has_text e) eqn:E; [|reflexivity].
  cbn [map app]. f_equal. etransitivity; [|apply entry_of_caps]. f_equal.
  unfold has_text in E. unfold text_rect_caps, group. cbn [nth Nat.sub spliced].
  destruct (el_text e); [discriminate | reflexivity].
Qed.

(** X4: [get_all_text] on a well-formed dump lists every node that has a
    text (every node, with [includeEmpty]) once, with its center, and the
    list it returns is in order: top to bottom, and left to right among the
    entries of one height. *)
Theorem get_all_text_lists_nodes_in_order (items : list item) (includeEmpty : bool) :
  wf_dump items = true ->
  exists texts,
    get_all_text includeEmpty (dump_xml items) = Some texts
    /\ Permutation texts (map el_entry (filter (listed includeEmpty) (elements items)))
    /\ StronglySorted te_before texts.
Proof.
  intros Hwf. unfold get_all_text. rewrite (get_all_text_scan_wf _ items Hwf).
  cbn [option_map]. eexists. split; [reflexivity|]. split.
  - apply array_sort_perm.
  - apply Sorted_StronglySorted; [exact te_before_trans|].
    apply (array_sort_sorted by_position int_entry te_before by_position_le by_position_gt).
    apply Forall_forall. intros a Ha. apply in_map_iff in Ha.
    destruct Ha as (e & <- & _). apply el_entry_int.
Qed.

Lemma get_all_text_lists_nodes_in_order_witness :
  exists texts,
    get_all_text true (dump_xml login_screen) = Some texts
    /\ Permutation texts (map el_entry (filter (listed true) (elements login_screen)))
    /\ StronglySorted te_before texts.
Proof.
  apply (get_all_text_lists_nodes_in_order login_screen true). vm_compute; reflexivity.
Defined.

(** X5: Without [includeEmpty], [get_all_text] lists the entries that
    [get_ui_tree] lists for the same well-formed dump, in another order. *)
Theorem get_all_text_lists_what_get_ui_tree_lists (items : list item) :
  wf_dump items = true ->
  exists texts tree,
    get_all_text false (dump_xml items) = Some texts
    /\ get_ui_tree (dump_xml items) = Some tree
    /\ Permutation texts tree.
Proof.
  intros Hwf. unfold get_all_text.
  rewrite (get_all_text_scan_wf _ items Hwf), (get_ui_tree_wf items Hwf).
  cbn [option_map]. do 2 eexists. split; [reflexivity|]. split; [reflexivity|].
  rewrite array_sort_perm.
  assert (E : forall es, filter (listed false) es = filter has_text es).
  { intros es. apply filter_ext. intros e. unfold listed. apply orb_false_r. }
  rewrite E. reflexivity.
Qed.

Lemma get_all_text_lists_what_get_ui_tree_lists_witness :
  exists texts tree,
    get_all_text false (dump_xml two_ok) = Some texts
    /\ get_ui_tree (dump_xml two_ok) = Some tree
    /\ Permutation texts tree.
Proof.
  apply (get_all_text_lists_what_get_ui_tree_lists two_ok). vm_compute; reflexivity.
Defined.

(** ** wait_for_ui_stable *)

(** X6: [wait_for_ui_stable] declares stability at tick [t] only when the
    dumps of the ticks [t - 2], [t - 1] and [t] have the same fingerprint,
    or at tick 1 when the first two fingerprints are empty; the elapsed time
    it reports is read at that tick, whose turn started before the deadline. *)
Theorem wait_for_ui_stable_declares_after_equal_fingerprints
  (timeout : Z) (startTime : Z) (polls : list poll) (t : nat) (elapsed : Z) :
  wait_for_ui_stable (Some timeout) startTime polls = UiStable t elapsed ->
  settled polls t
  /\ exists p, nth_error polls t = Some p /\ elapsed = (returned_at p - startTime)%Z
               /\ (checked_at p - startTime < timeout)%Z.
Proof.
  intros H. unfold wait_for_ui_stable in H.
  apply (stable_loop_settled startTime timeout polls [] [] 0 t elapsed H).
  left. split; reflexivity.
Qed.

Lemma wait_for_ui_stable_declares_after_equal_fingerprints_witness :
  settled [poll_at 10 screen_loading; poll_at 560 screen_ready; poll_at 1110 screen_ready;
           poll_at 1660 screen_ready] 3.
Proof.
  apply (wait_for_ui_stable_declares_after_equal_fingerprints 5000 0
           [poll_at 10 screen_loading; poll_at 560 screen_ready; poll_at 1110 screen_ready;
            poll_at 1660 screen_ready] 3 1700).
  vm_compute; reflexivity.
Defined.

(** X7: On dumps as [uiautomator] writes them the fingerprint is always
    empty, so [wait_for_ui_stable] declares the UI stable at its second
    dump, whatever the two screens show. *)
Theorem wait_for_ui_stable_returns_at_second_dump
  (timeout : option Z) (startTime : Z) (p0 p1 : poll) (later : list poll)
  (items0 items1 : list item) :
  currentXml p0 = dump_xml items0 -> wf_dump items0 = true ->
  currentXml p1 = dump_xml items1 -> wf_dump items1 = true ->
  (checked_at p0 - startTime < match timeout with Some t => t | None => 5000 end)%Z ->
  (checked_at p1 - startTime < match timeout with Some t => t | None => 5000 end)%Z ->
  wait_for_ui_stable timeout startTime (p0 :: p1 :: later)
  = UiStable 1 (returned_at p1 - startTime).
Proof.
  intros E0 W0 E1 W1 T0 T1. unfold wait_for_ui_stable.
  assert (F0 : extractUIFingerprint (currentXml p0) = Some [])
    by (rewrite E0; apply fingerprint_empty; exact W0).
  assert (F1 : extractUIFingerprint (currentXml p1) = Some [])
    by (rewrite E1; apply fingerprint_empty; exact W1).
  rewrite (stable_loop_step _ _ _ _ _ _ _ _ T0 F0), (str_eqb_refl []). cbn [Nat.leb].
  rewrite (stable_loop_step _ _ _ _ _ _ _ _ T1 F1), (str_eqb_refl []). reflexivity.
Qed.

Lemma wait_for_ui_stable_returns_at_second_dump_witness :
  wait_for_ui_stable None 0
    [poll_at 10 (dump_xml login_screen); poll_at 560 (dump_xml submit_screen)]
  = UiStable 1 600.
Proof.
  apply (wait_for_ui_stable_returns_at_second_dump None 0
           (poll_at 10 (dump_xml login_screen)) (poll_at 560 (dump_xml submit_screen)) []
           login_screen submit_screen);
    try reflexivity; try (vm_compute; reflexivity).
Defined.

(** ** The size of the screen *)

Lemma literal_size :
  size_regex = {| re := seq_of [digits_group 0; lit "x"; digits_group 1]; ncaps := 2 |}.
Proof. vm_compute; reflexivity. Qed.

Lemma literal_density :
  density_regex = {| re := seq_of [digits_group 0]; ncaps := 1 |}.
Proof. vm_compute; reflexivity. Qed.

Lemma digits_group_needs_digit ic i s cs k :
  match s with c :: _ => is_digit c = false | [] => True end ->
  rmatch ic (digits_group i) s cs k = None.
Proof.
  intros H. destruct s as [|c s]; simpl; [reflexivity|]. rewrite H. reflexivity.
Qed.

(** The last group of digits of a pattern takes the whole numeral. *)
Lemma rmatch_digits_last ic i c u s cs k r :
  is_digit c = true -> forallb is_digit u = true ->
  match s with c' :: _ => is_digit c' = false | [] => True end ->
  k s (set_nth i (Some (c :: u)) cs) = Some r ->
  rmatch ic (digits_group i) ((c :: u) ++ s) cs k = Some r.
Proof.
  intros Hc Hu Hs Hk. simpl. rewrite Hc.
  apply rep_greedy_pre; [exact Hu|].
  pose proof (consumed_app (c :: u) s) as E.
  change ((c :: u) ++ s) with (c :: u ++ s) in E.
  destruct s as [|c' s']; simpl; [|rewrite Hs]; rewrite E; exact Hk.
Qed.

Lemma digit_not_x ic c : is_digit c = true -> Ascii.eqb (canon ic "x") (canon ic c) = false.
Proof. destruct ic; by_cases_on c. Qed.

Lemma exec_from_no_digit c i rs : forall pre s,
  re c = seq_of (digits_group i :: rs) ->
  forallb (fun a => negb (is_digit a)) pre = true ->
  exec_from false c (pre ++ s) = exec_from false c s.
Proof.
  intros pre s Hre. induction pre as [|a pre IH]; intros Hpre; [reflexivity|].
  simpl in Hpre. apply andb_prop in Hpre. destruct Hpre as [Ha Hpre].
  cbn [app exec_from]. rewrite Hre, rmatch_cons, digits_group_needs_digit.
  - apply IH. exact Hpre.
  - apply negb_true_iff. exact Ha.
Qed.

Lemma exec_from_none_no_digit c i rs : forall s,
  re c = seq_of (digits_group i :: rs) ->
  forallb (fun a => negb (is_digit a)) s = true ->
  exec_from false c s = None.
Proof.
  intros s Hre Hs. rewrite <- (app_nil_r s), (exec_from_no_digit c i rs s [] Hre Hs).
  simpl. rewrite Hre. reflexivity.
Qed.

(** The first [width x height] of the output of [wm size] is read. *)
Lemma size_match pre w h rest :
  forallb (fun a => negb (is_digit a)) pre = true ->
  match rest with c :: _ => is_digit c = false | [] => True end ->
  String_match size_regex (pre ++ dec w ++ js "x" ++ dec h ++ rest)
  = Some [Some (dec w); Some (dec h)].
Proof.
  intros Hpre Hrest. unfold String_match. rewrite literal_size.
  rewrite (exec_from_no_digit {| re := seq_of [digits_group 0; lit "x"; digits_group 1];
                                  ncaps := 2 |} 0 [lit "x"; digits_group 1] pre _ eq_refl Hpre).
  destruct (dec_shape w) as (c1 & u1 & E1 & Hc1 & Hu1).
  destruct (dec_shape h) as (c2 & u2 & E2 & Hc2 & Hu2).
  rewrite E1, E2.
  assert (E : exec_from false {| re := seq_of [digits_group 0; lit "x"; digits_group 1];
                                 ncaps := 2 |}
                ((c1 :: u1) ++ js "x" ++ (c2 :: u2) ++ rest)
              = Some ([Some (c1 :: u1); Some (c2 :: u2)], rest)).
  { apply exec_from_hit. cbn [re ncaps].
    rewrite rmatch_cons, rmatch_digits; try assumption; try reflexivity.
    - change (js "x" ++ (c2 :: u2) ++ rest) with ("x"%char :: (c2 :: u2) ++ rest).
      rewrite rmatch_lit_cons, canon_refl, rmatch_cons.
      apply rmatch_digits_last; try assumption. reflexivity.
    - intros c' s' cs' H'. rewrite rmatch_lit_cons, (digit_not_x false c' H'). reflexivity. }
  rewrite E. reflexivity.
Qed.

Lemma density_match pre d rest :
  forallb (fun a => negb (is_digit a)) pre = true ->
  match rest with c :: _ => is_digit c = false | [] => True end ->
  String_match density_regex (pre ++ dec d ++ rest) = Some [Some (dec d)].
Proof.
  intros Hpre Hrest. unfold String_match. rewrite literal_density.
  rewrite (exec_from_no_digit {| re := seq_of [digits_group 0]; ncaps := 1 |} 0 []
             pre _ eq_refl Hpre).
  destruct (dec_shape d) as (c1 & u1 & E1 & Hc1 & Hu1). rewrite E1.
  assert (E : exec_from false {| re := seq_of [digits_group 0]; ncaps := 1 |}
                ((c1 :: u1) ++ rest)
              = Some ([Some (c1 :: u1)], rest)).
  { apply exec_from_hit. cbn [re ncaps]. rewrite rmatch_cons.
    apply rmatch_digits_last; try assumption. reflexivity. }
  rewrite E. reflexivity.
Qed.

(** X8: [get_screen_size], and [tap_safe], [scroll] and [scroll_to_text]
    with their own defaults, read the first [width x height] of the output
    of [wm size]: with an override in force they get the physical size,
    which comes first. The density is the first number of the output of [wm
    density]. An output without digits gives the default, which is 0 for
    [get_screen_size]. *)
Theorem get_screen_size_reads_first_size
  (default : number * number) (pre rest pre' rest' : str) (w h d : N) :
  forallb (fun a => negb (is_digit a)) pre = true ->
  match rest with c :: _ => is_digit c = false | [] => True end ->
  forallb (fun a => negb (is_digit a)) pre' = true ->
  match rest' with c :: _ => is_digit c = false | [] => True end ->
  get_screen_size (pre ++ dec w ++ js "x" ++ dec h ++ rest) (pre' ++ dec d ++ rest')
  = {| sr_width := Int (Z.of_N w); sr_height := Int (Z.of_N h);
       sr_density := Int (Z.of_N d) |}
  /\ get_screen_size pre pre'
     = {| sr_width := Int 0; sr_height := Int 0; sr_density := Int 0 |}
  /\ screen_size default (pre ++ dec w ++ js "x" ++ dec h ++ rest)
     = (Int (Z.of_N w), Int (Z.of_N h))
  /\ screen_size default pre = default.
Proof.
  intros Hpre Hrest Hpre' Hrest'.
  assert (Hs : forall dflt, screen_size dflt (pre ++ dec w ++ js "x" ++ dec h ++ rest)
                            = (Int (Z.of_N w), Int (Z.of_N h))).
  { intros dflt. unfold screen_size. rewrite (size_match pre w h rest Hpre Hrest).
    unfold group. cbn [nth Nat.sub]. rewrite !parseInt_dec. reflexivity. }
  assert (Hn : forall dflt, screen_size dflt pre = dflt).
  { intros dflt. unfold screen_size, String_match. rewrite literal_size.
    rewrite (exec_from_none_no_digit
               {| re := seq_of [digits_group 0; lit "x"; digits_group 1]; ncaps := 2 |}
               0 [lit "x"; digits_group 1] pre eq_refl Hpre).
    reflexivity. }
  split; [|split; [|split; [apply Hs | apply Hn]]].
  - unfold get_screen_size. rewrite Hs, (density_match pre' d rest' Hpre' Hrest').
    unfold group. cbn [nth Nat.sub]. rewrite parseInt_dec. reflexivity.
  - unfold get_screen_size. rewrite Hn. unfold String_match. rewrite literal_density.
    rewrite (exec_from_none_no_digit {| re := seq_of [digits_group 0]; ncaps := 1 |}
               0 [] pre' eq_refl Hpre').
    reflexivity.
Qed.

Lemma get_screen_size_reads_first_size_witness :
  get_screen_size
    (js "Physical size: " ++ dec 1080 ++ js "x" ++ dec 1920
     ++ LF :: js "Override size: 720x1280")
    (js "Physical density: " ++ dec 420 ++ [])
  = {| sr_width := Int 1080; sr_height := Int 1920; sr_density := Int 420 |}.
Proof.
  apply (get_screen_size_reads_first_size (Int 1080, Int 2400) (js "Physical size: ")
           (LF :: js "Override size: 720x1280") (js "Physical density: ") [] 1080 1920 420);
    reflexivity.
Defined.

(** ** tap_safe *)

Lemma Qle_bool_false x y : Qle_bool x y = false -> (y < x)%Q.
Proof.
  intros H. apply Qnot_le_lt. intros C. apply Qle_bool_iff in C. congruence.
Qed.

(** [Math.max(lo, Math.min(x, hi))] *)
Lemma clamp_spec lo hi x :
  (lo <= hi)%Q ->
  exists v, Math_max (Some lo) (Math_min (Some x) (Some hi)) = Some v
            /\ (lo <= v <= hi)%Q /\ ((lo <= x <= hi)%Q -> v = x).
Proof.
  intros Hlh. cbn [Math_min Math_max]. eexists. split; [reflexivity|].
  destruct (Qle_bool x hi) eqn:E1;
    [apply Qle_bool_iff in E1 | apply Qle_bool_false in E1].
  - destruct (Qle_bool lo x) eqn:E2;
      [apply Qle_bool_iff in E2 | apply Qle_bool_false in E2].
    + split; [split; assumption | reflexivity].
    + split; [split; [apply Qle_refl | exact Hlh]|].
      intros [Ha _]. exfalso. apply (Qlt_irrefl x). apply (Qlt_le_trans _ lo); assumption.
  - destruct (Qle_bool lo hi) eqn:E2;
      [| apply Qle_bool_false in E2; exfalso; apply (Qlt_irrefl hi);
         apply (Qlt_le_trans _ lo); assumption].
    split; [split; [exact Hlh | apply Qle_refl]|].
    intros [_ Hb]. exfalso. apply (Qlt_irrefl x). apply (Qle_lt_trans _ hi); assumption.
Qed.

(** X9: With the default flags, on a screen at least 180 high and 20 wide,
    [tap_safe] taps a point between the two bars and 10 away from the left
    and right edges; a point that is already there is tapped as it is, and
    no adjustment is reported. *)
Theorem tap_safe_taps_between_the_bars (x y : Q) (sizeOutput : str) (W H : Z) :
  screen_size (Int 1080, Int 2400) sizeOutput = (Int W, Int H) ->
  (20 <= W)%Z -> (180 <= H)%Z ->
  exists sx sy,
    safeX (tap_safe x y None None sizeOutput) = Some sx
    /\ safeY (tap_safe x y None None sizeOutput) = Some sy
    /\ (inject_Z 10 <= sx <= inject_Z (W - 10))%Q
    /\ (inject_Z 50 <= sy <= inject_Z (H - 120))%Q
    /\ ((inject_Z 10 <= x <= inject_Z (W - 10))%Q -> sx = x)
    /\ ((inject_Z 50 <= y <= inject_Z (H - 120))%Q ->
        sy = y /\ adjustments (tap_safe x y None None sizeOutput) = []).
Proof.
  intros Hsize HW HH. unfold tap_safe. rewrite Hsize.
  cbn [num_sub of_number float_lt andb].
  assert (HW' : (inject_Z 10 <= inject_Z (W - 10))%Q) by (rewrite <- Zle_Qle; lia).
  assert (H60 : (inject_Z (50 + 10) <= inject_Z (H - 120))%Q) by (rewrite <- Zle_Qle; lia).
  assert (H130 : (inject_Z 50 <= inject_Z (H - 120 - 10))%Q) by (rewrite <- Zle_Qle; lia).
  assert (H130' : (inject_Z (H - 120 - 10) <= inject_Z (H - 120))%Q)
    by (rewrite <- Zle_Qle; lia).
  assert (H50 : (inject_Z 50 <= inject_Z (50 + 10))%Q) by (rewrite <- Zle_Qle; lia).
  destruct (clamp_spec (inject_Z 10) (inject_Z (W - 10)) x HW') as (sx & Esx & Hsx & Hfix).
  exists sx.
  destruct (Qle_bool (inject_Z 50) y) eqn:E1;
    [apply Qle_bool_iff in E1 | apply Qle_bool_false in E1]; cbn [negb];
    (destruct (Qle_bool y (inject_Z (H - 120))) eqn:E2;
       [apply Qle_bool_iff in E2 | apply Qle_bool_false in E2]); cbn [negb];
    cbn [app safeX safeY adjustments]; eexists;
    (split; [exact Esx|]); (split; [reflexivity|]); (split; [exact Hsx|]);
    (split; [|split; [exact Hfix|]]).
  - split; assumption.
  - intros _. split; reflexivity.
  - split; assumption.
  - intros [_ Hb]. exfalso. apply (Qlt_irrefl y). apply (Qle_lt_trans _ (inject_Z (H - 120))); assumption.
  - split; assumption.
  - intros [Ha _]. exfalso. apply (Qlt_irrefl y). apply (Qlt_le_trans _ (inject_Z 50)); assumption.
  - split; assumption.
  - intros [Ha _]. exfalso. apply (Qlt_irrefl y). apply (Qlt_le_trans _ (inject_Z 50)); assumption.
Qed.

Lemma tap_safe_taps_between_the_bars_witness :
  exists sx sy,
    safeX (tap_safe (5 # 1) (2390 # 1) None None (js "Physical size: 1080x2400")) = Some sx
    /\ safeY (tap_safe (5 # 1) (2390 # 1) None None (js "Physical size: 1080x2400")) = Some sy
    /\ (inject_Z 10 <= sx <= inject_Z (1080 - 10))%Q
    /\ (inject_Z 50 <= sy <= inject_Z (2400 - 120))%Q.
Proof.
  destruct (tap_safe_taps_between_the_bars (5 # 1) (2390 # 1)
              (js "Physical size: 1080x2400") 1080 2400
              ltac:(vm_compute; reflexivity) ltac:(lia) ltac:(lia))
    as (sx & sy & H1 & H2 & H3 & H4 & _).
  exists sx, sy. repeat split; try assumption; try apply H3; try apply H4.
Defined.

(** ** type_text *)

Lemma escaped_input_cons c text :
  escaped_input (c :: text) = escaped_input [c] ++ escaped_input text.
Proof.
  unfold escaped_input, escape_apostrophes, escape_spaces.
  cbn [flat_map]. rewrite app_nil_r, !flat_map_app. reflexivity.
Qed.

Lemma escaped_input_app u v : escaped_input (u ++ v) = escaped_input u ++ escaped_input v.
Proof.
  unfold escaped_input, escape_apostrophes, escape_spaces.
  rewrite !flat_map_app. reflexivity.
Qed.

Lemma escaped_input_char c :
  escaped_input [c]
  = if Ascii.eqb c " " then ["%"; "s"]%char
    else if Ascii.eqb c apostrophe then ["\"%char; apostrophe] else [c].
Proof.
  unfold escaped_input, escape_apostrophes, escape_spaces. cbn [flat_map].
  destruct (Ascii.eqb_spec c " ") as [->|H1]; [reflexivity|].
  cbn [app flat_map]. destruct (Ascii.eqb c apostrophe); reflexivity.
Qed.

(** What the escaping of [type_text] and [set_text] does: the escaped text
    holds no space and each of its apostrophes comes after a backslash.
    What it does not: every other character is passed on as it is, so a
    double quote, a dollar sign or a backquote of the text reaches the
    shell inside the double quotes of the command, and a backslash of the
    text is not doubled. *)
Lemma escaped_input_no_space text :
  forallb (fun c => negb (Ascii.eqb c " ")) (escaped_input text) = true.
Proof.
  induction text as [|a text IH]; [reflexivity|].
  rewrite escaped_input_cons, forallb_app, IH, andb_true_r, escaped_input_char.
  destruct (Ascii.eqb_spec a " ") as [->|H1]; [reflexivity|].
  destruct (Ascii.eqb_spec a apostrophe) as [->|H2]; [reflexivity|].
  cbn [forallb]. apply Ascii.eqb_neq in H1. rewrite H1. reflexivity.
Qed.

Lemma escaped_input_apostrophes text : forall b,
  apostrophes_escaped b (escaped_input text) = true.
Proof.
  induction text as [|a text IH]; intros b; [reflexivity|].
  rewrite escaped_input_cons, escaped_input_char.
  destruct (Ascii.eqb_spec a " ") as [->|H1]; [cbn; apply IH|].
  destruct (Ascii.eqb_spec a apostrophe) as [->|H2]; [cbn; apply IH|].
  cbn [app apostrophes_escaped]. apply Ascii.eqb_neq in H2. rewrite H2. apply IH.
Qed.

Lemma escaped_input_count text c :
  mem c [" "; apostrophe; "%"; "s"; "\"]%char = false ->
  count_occ ascii_dec (escaped_input text) c = count_occ ascii_dec text c.
Proof.
  intros Hc. induction text as [|a text IH]; [reflexivity|].
  rewrite escaped_input_cons, count_occ_app, IH, escaped_input_char.
  change (a :: text) with ([a] ++ text). rewrite (count_occ_app _ [a]). f_equal.
  unfold mem in Hc. cbn [existsb] in Hc.
  repeat (apply orb_false_elim in Hc; destruct Hc as [? Hc]).
  destruct (Ascii.eqb_spec a " ") as [->|Hsp].
  - cbn [count_occ]. repeat destruct (ascii_dec _ _); subst;
      try reflexivity; try discriminate.
  - destruct (Ascii.eqb_spec a apostrophe) as [->|Hap]; [|reflexivity].
    cbn [count_occ]. repeat destruct (ascii_dec _ _); subst;
      try reflexivity; try discriminate.
Qed.

Lemma escaped_input_backslashes text :
  count_occ ascii_dec (escaped_input text) "\"%char
  = count_occ ascii_dec text "\"%char + count_occ ascii_dec text apostrophe.
Proof.
  induction text as [|a text IH]; [reflexivity|].
  rewrite escaped_input_cons, count_occ_app, IH, escaped_input_char.
  change (a :: text) with ([a] ++ text). rewrite !(count_occ_app _ [a]).
  destruct (Ascii.eqb_spec a " ") as [->|H1]; [cbn; lia|].
  destruct (Ascii.eqb_spec a apostrophe) as [->|H2]; [cbn; lia|].
  cbn [count_occ]. destruct (ascii_dec a apostrophe); [congruence|].
  destruct (ascii_dec a "\"); lia.
Qed.

(** X10: What the escaping of [type_text] and [set_text] does: the escaped
    text holds no space and each of its apostrophes comes after a backslash.
    What it does not: every other character is passed on as it is, so a
    double quote, a dollar sign or a backquote of the text reaches the shell
    inside the double quotes of the command, and a backslash of the text is
    not doubled. *)
Theorem type_text_escaping (text : str) :
  forallb (fun c => negb (Ascii.eqb c " ")) (escaped_input text) = true
  /\ apostrophes_escaped false (escaped_input text) = true
  /\ (forall c, mem c [" "; apostrophe; "%"; "s"; "\"]%char = false ->
      count_occ ascii_dec (escaped_input text) c = count_occ ascii_dec text c)
  /\ count_occ ascii_dec (escaped_input text) "\"%char
     = count_occ ascii_dec text "\"%char + count_occ ascii_dec text apostrophe
  /\ count_occ ascii_dec (type_text text) dquote = 2 + count_occ ascii_dec text dquote.
Proof.
  split; [apply escaped_input_no_space|].
  split; [apply escaped_input_apostrophes|].
  split; [apply escaped_input_count|].
  split; [apply escaped_input_backslashes|].
  unfold type_text. rewrite !count_occ_app, (escaped_input_count text dquote eq_refl).
  cbn. lia.
Qed.

(** X11: The escaping does not tell a space from the two characters [%s]:
    the texts [u v] and [u%sv] make the same command. *)
Theorem type_text_confuses_space_and_percent_s (u v : str) :
  type_text (u ++ " "%char :: v) = type_text (u ++ "%"%char :: "s"%char :: v).
Proof.
  unfold type_text. f_equal. f_equal.
  rewrite !escaped_input_app. reflexivity.
Qed.

(** ** list_packages *)

Lemma trim_start_keep c s : is_white c = false -> trim_start (c :: s) = c :: s.
Proof. intros H. simpl. rewrite H. reflexivity. Qed.

Lemma trim_line c s0 d :
  is_white c = false -> is_white d = false ->
  forall s, s = s0 ++ [d] -> s = c :: tl s -> trim (s ++ [LF]) = s.
Proof.
  intros Hc Hd s E1 E2. unfold trim.
  rewrite E2 at 1. cbn [app]. rewrite (trim_start_keep c _ Hc).
  change (c :: tl s ++ [LF]) with ((c :: tl s) ++ [LF]). rewrite <- E2.
  rewrite rev_app_distr. cbn [rev app].
  change (trim_start (LF :: rev s)) with (trim_start (rev s)).
  rewrite E1. rewrite rev_app_distr. cbn [rev app].
  rewrite (trim_start_keep d _ Hd). cbn [rev]. rewrite rev_involutive. reflexivity.
Qed.

Lemma split_line sep x rest :
  forallb (fun c => negb (Ascii.eqb c sep)) x = true ->
  split sep (x ++ sep :: rest) = x :: split sep rest.
Proof.
  induction x as [|c x IH]; intros H.
  - cbn [app split]. rewrite Ascii.eqb_refl. reflexivity.
  - simpl in H. apply andb_prop in H. destruct H as [Hc Hx].
    cbn [app split]. apply negb_true_iff in Hc. rewrite Hc, (IH Hx). reflexivity.
Qed.

Lemma split_last sep x :
  forallb (fun c => negb (Ascii.eqb c sep)) x = true -> split sep x = [x].
Proof.
  induction x as [|c x IH]; intros H; [reflexivity|].
  simpl in H. apply andb_prop in H. destruct H as [Hc Hx].
  cbn [split]. apply negb_true_iff in Hc. rewrite Hc, (IH Hx). reflexivity.
Qed.

(** Splitting undoes joining. *)
Lemma split_join sep : forall lines,
  lines <> [] ->
  Forall (fun x => forallb (fun c => negb (Ascii.eqb c sep)) x = true) lines ->
  split sep (join [sep] lines) = lines.
Proof.
  induction lines as [|x lines IH]; intros Hne Hl; [congruence|].
  inversion Hl as [|? ? Hx Hl']; subst.
  destruct lines as [|y lines].
  - apply split_last. exact Hx.
  - change (join [sep] (x :: y :: lines)) with (x ++ sep :: join [sep] (y :: lines)).
    rewrite (split_line sep x _ Hx), IH; [reflexivity | discriminate | exact Hl'].
Qed.

Lemma replace_first_prefix pat by_ s rest :
  strip false pat s = Some rest -> replace_first pat by_ s = by_ ++ rest.
Proof. intros H. destruct s; simpl; rewrite H; reflexivity. Qed.

Lemma join_last sep lines x :
  exists s0, join sep (lines ++ [x]) = s0 ++ x.
Proof.
  induction lines as [|y lines IH].
  - exists []. reflexivity.
  - destruct IH as (s0 & E). cbn [app].
    destruct (lines ++ [x]) as [|z l] eqn:El.
    + destruct lines; discriminate El.
    + change (join sep (y :: z :: l)) with (y ++ sep ++ join sep (z :: l)).
      rewrite E. exists (y ++ sep ++ s0). rewrite <- !app_assoc. reflexivity.
Qed.

Lemma package_name_spec n :
  package_name n = true ->
  forallb (fun c => negb (Ascii.eqb c LF)) n = true
  /\ exists n0 d, n = n0 ++ [d] /\ is_white d = false.
Proof.
  unfold package_name. intros H. apply andb_prop in H. destruct H as [Hne Hw]. split.
  - clear Hne. induction n as [|c n IH]; [reflexivity|].
    simpl in Hw. apply andb_prop in Hw. destruct Hw as [Hc Hw].
    cbn [forallb]. rewrite (IH Hw), andb_true_r.
    destruct (Ascii.eqb_spec c LF) as [->|]; [discriminate Hc | reflexivity].
  - destruct (exists_last (l := n)) as (n0 & d & ->); [destruct n; discriminate|].
    exists n0, d. split; [reflexivity|].
    rewrite forallb_app in Hw. apply andb_prop in Hw. destruct Hw as [_ Hd].
    simpl in Hd. rewrite andb_true_r in Hd. apply negb_true_iff. exact Hd.
Qed.

(** X12: [list_packages] gives back the names of the packages that [pm list
    packages] printed, in its order. *)
Theorem list_packages_reads_the_names (names : list str) :
  forallb package_name names = true ->
  list_packages (pm_output names) = names.
Proof.
  intros Hn. unfold list_packages, pm_output.
  destruct names as [|n1 names'] eqn:En; [reflexivity|]. rewrite <- En in *.
  set (lines := map (app (js "package:")) names).
  assert (Hlines : lines <> []) by (unfold lines; rewrite En; discriminate).
  assert (Ht : trim (join [LF] lines ++ [LF]) = join [LF] lines).
  { destruct (exists_last (l := names)) as (ns & n & E); [rewrite En; discriminate|].
    assert (Hnok : package_name n = true).
    { rewrite forallb_forall in Hn. apply Hn. rewrite E. apply in_or_app. right. left.
      reflexivity. }
    destruct (package_name_spec n Hnok) as (_ & n0 & d & -> & Hd).
    destruct (join_last [LF] (map (app (js "package:")) ns) (js "package:" ++ n0 ++ [d]))
      as (s0 & Ej).
    assert (El : lines = map (app (js "package:")) ns ++ [js "package:" ++ n0 ++ [d]]).
    { unfold lines. rewrite E, map_app. reflexivity. }
    apply (trim_line "p" (s0 ++ js "package:" ++ n0) d eq_refl Hd).
    - rewrite El, Ej, <- !app_assoc. reflexivity.
    - unfold lines. rewrite En. cbn [map]. destruct (map _ names'); reflexivity. }
  rewrite Ht, split_join; [| exact Hlines |].
  - unfold lines. rewrite map_map.
    assert (E : forall l,
      map (fun n => replace_first (js "package:") [] (js "package:" ++ n)) l = l).
    { induction l as [|n l IH]; [reflexivity|]. cbn [map].
      rewrite (replace_first_prefix _ _ _ n (strip_same false _ _)), IH. reflexivity. }
    rewrite E. clear - Hn. induction names as [|n l IH]; [reflexivity|].
    simpl in Hn. apply andb_prop in Hn. destruct Hn as [H1 H2].
    cbn [filter]. unfold package_name in H1. apply andb_prop in H1. destruct H1 as [H1 _].
    rewrite H1, (IH H2). reflexivity.
  - unfold lines. apply Forall_forall. intros x Hx. apply in_map_iff in Hx.
    destruct Hx as (n & <- & Hin). rewrite forallb_app. rewrite forallb_forall in Hn.
    destruct (package_name_spec n (Hn n Hin)) as (H & _). rewrite H. reflexivity.
Qed.

Lemma list_packages_reads_the_names_witness :
  list_packages (pm_output [js "com.android.chrome"; js "com.app"])
  = [js "com.android.chrome"; js "com.app"].
Proof.
  apply (list_packages_reads_the_names [js "com.android.chrome"; js "com.app"]).
  reflexivity.
Defined.

(** ** The text of the screen *)

Lemma strip_app ic a b : forall s,
  strip ic (a ++ b) s
  = match strip ic a s with Some s' => strip ic b s' | None => None end.
Proof.
  induction a as [|x a IH]; intros s; simpl.
  - reflexivity.
  - destruct s as [|c s]; [reflexivity|].
    destruct (Ascii.eqb (canon ic x) (canon ic c)); [apply IH | reflexivity].
Qed.

Lemma nowhere_longer ic p x : forall u rest,
  nowhere ic p u rest -> nowhere ic (p ++ x) u rest.
Proof.
  induction u as [|c u IH]; intros rest H; simpl in *; [exact I|].
  destruct H as [H1 H2]. split; [|apply IH; exact H2].
  rewrite strip_app, H1. reflexivity.
Qed.

Lemma starts_with_strip p : forall s,
  starts_with s p = match strip false p s with Some _ => true | None => false end.
Proof.
  induction p as [|a p IH]; intros s; [destruct s; reflexivity|].
  destruct s as [|c s]; [reflexivity|]. cbn [starts_with strip canon].
  destruct (Ascii.eqb a c); [apply IH | reflexivity].
Qed.

Lemma includes_cons c s p : includes (c :: s) p = starts_with (c :: s) p || includes s p.
Proof. reflexivity. Qed.

Lemma includes_skip p : forall u rest,
  nowhere false p u rest -> includes (u ++ rest) p = includes rest p.
Proof.
  induction u as [|c u IH]; intros rest H; [reflexivity|].
  destruct H as [H1 H2]. cbn [app]. rewrite includes_cons, starts_with_strip, H1.
  apply IH. exact H2.
Qed.

Lemma starts_with_app s p : forall x, starts_with (x ++ s) (x ++ p) = starts_with s p.
Proof.
  induction x as [|c x IH]; [reflexivity|].
  cbn [app starts_with]. rewrite Ascii.eqb_refl. exact IH.
Qed.

Lemma starts_with_more s b : forall p, starts_with s p = true -> starts_with (s ++ b) p = true.
Proof.
  induction s as [|c s IH]; intros [|a p] H.
  - destruct b; reflexivity.
  - discriminate H.
  - reflexivity.
  - cbn [app starts_with] in *. apply andb_prop in H. destruct H as [H1 H2].
    rewrite H1, (IH p H2). reflexivity.
Qed.

Lemma includes_app_l b p : forall a, includes a p = true -> includes (a ++ b) p = true.
Proof.
  induction a as [|c a IH]; intros H.
  - destruct p; [destruct b; reflexivity | discriminate H].
  - cbn [app]. rewrite includes_cons in *. apply orb_prop in H. destruct H as [H|H].
    + change (c :: a ++ b) with ((c :: a) ++ b). rewrite (starts_with_more _ b _ H).
      reflexivity.
    + rewrite (IH H). apply orb_true_r.
Qed.

Lemma includes_app_r b p : forall a, includes b p = true -> includes (a ++ b) p = true.
Proof.
  induction a as [|c a IH]; intros H; [exact H|].
  cbn [app]. rewrite includes_cons, (IH H). apply orb_true_r.
Qed.

Lemma includes_middle a b c p : includes b p = true -> includes (a ++ b ++ c) p = true.
Proof. intros H. apply includes_app_r, includes_app_l. exact H. Qed.

(** *** Case *)

Lemma lower_upper c : lower (upper c) = lower c.
Proof. destruct c as [[] [] [] [] [] [] [] []]; reflexivity. Qed.

Lemma upper_lower c : upper (lower c) = upper c.
Proof. destruct c as [[] [] [] [] [] [] [] []]; reflexivity. Qed.

Lemma eqb_upper_lower a b :
  Ascii.eqb (upper a) (upper b) = Ascii.eqb (lower a) (lower b).
Proof.
  destruct (Ascii.eqb_spec (upper a) (upper b)) as [E|E];
    destruct (Ascii.eqb_spec (lower a) (lower b)) as [E'|E']; try reflexivity.
  - exfalso. apply E'. rewrite <- (lower_upper a), <- (lower_upper b), E. reflexivity.
  - exfalso. apply E. rewrite <- (upper_lower a), <- (upper_lower b), E'. reflexivity.
Qed.

Lemma prefix_ci_lower q : forall t,
  prefix_ci q t = starts_with (toLowerCase t) (toLowerCase q).
Proof.
  induction q as [|a q IH]; intros [|c t]; try reflexivity.
  cbn [prefix_ci toLowerCase map starts_with].
  rewrite eqb_upper_lower. f_equal. apply IH.
Qed.

(** [contains_ci] is the test that the tools make with [toLowerCase] and
    [includes]. *)
Lemma contains_ci_lower q : forall t,
  contains_ci q t = includes (toLowerCase t) (toLowerCase q).
Proof.
  induction t as [|c t IH].
  - cbn [contains_ci]. rewrite (prefix_ci_lower q []). reflexivity.
  - cbn [contains_ci]. rewrite IH, (prefix_ci_lower q (c :: t)). reflexivity.
Qed.

Lemma toLowerCase_app a b : toLowerCase (a ++ b) = toLowerCase a ++ toLowerCase b.
Proof. apply map_app. Qed.

(** *** The attributes of a node in the dump *)

Lemma dump_holds_node e : forall items,
  In e (elements items) -> exists leaf a b, dump_xml items = a ++ node_xml leaf e ++ b.
Proof.
  intros items Hin.
  assert (H : exists leaf a b, concat (map item_xml items) = a ++ node_xml leaf e ++ b).
  { induction items as [|it items IH]; [destruct Hin|].
    destruct it as [leaf e'|]; cbn [elements flat_map app] in Hin.
    - destruct Hin as [->|Hin].
      + exists leaf, [], (concat (map item_xml items)). reflexivity.
      + destruct (IH Hin) as (l & a & b & E). exists l, (node_xml leaf e' ++ a), b.
        cbn [map concat item_xml]. rewrite E, <- app_assoc. reflexivity.
    - destruct (IH Hin) as (l & a & b & E). exists l, (js "</node>" ++ a), b.
      cbn [map concat item_xml]. rewrite E, <- app_assoc. reflexivity. }
  destruct H as (leaf & a & b & E). exists leaf, (xml_header ++ a), (b ++ js "</hierarchy>").
  unfold dump_xml. rewrite E. repeat rewrite <- app_assoc. reflexivity.
Qed.

(** ** assert_screen_contains, wait_for_element and wait_for_element_gone *)

Lemma lower_includes_in_dump items e q :
  In e (elements items) ->
  (contains_ci q (el_text e) || contains_ci q (el_id e) || contains_ci q (el_class e))%bool
  = true ->
  includes (toLowerCase (dump_xml items)) (toLowerCase q) = true.
Proof.
  intros Hin H. destruct (dump_holds_node e items Hin) as (leaf & x & y & E).
  rewrite E, !toLowerCase_app. apply includes_middle.
  unfold node_xml, after_text, after_id. rewrite !toLowerCase_app.
  apply orb_prop in H. destruct H as [H|H]; [apply orb_prop in H; destruct H as [H|H]|];
    rewrite contains_ci_lower in H.
  - do 2 apply includes_app_r. apply includes_middle. exact H.
  - do 5 apply includes_app_r. apply includes_app_l. apply includes_middle. exact H.
  - do 5 apply includes_app_r. apply includes_app_l. do 3 apply includes_app_r.
    apply includes_middle. exact H.
Qed.

(** X13: Without [exact] the text is looked for in the whole dump, markup
    included, up to the case of letters: [assert_screen_contains] passes as
    soon as the text occurs in the text, the resource-id or the class of a
    node, and a word of the markup passes on every dump. *)
Theorem assert_screen_contains_reads_the_markup
  (items : list item) (e : element) (q : str) :
  In e (elements items) ->
  (contains_ci q (el_text e) || contains_ci q (el_id e) || contains_ci q (el_class e))%bool
  = true ->
  assert_screen_contains q None (dump_xml items) = true
  /\ assert_screen_contains (js "Hierarchy") None (dump_xml items) = true
  /\ assert_screen_contains [] None (dump_xml items) = true.
Proof.
  intros Hin H. unfold assert_screen_contains. split; [|split].
  - apply (lower_includes_in_dump items e q Hin H).
  - unfold dump_xml. rewrite toLowerCase_app. apply includes_app_l.
    vm_compute. reflexivity.
  - destruct (toLowerCase (dump_xml items)); reflexivity.
Qed.

Lemma assert_screen_contains_reads_the_markup_witness :
  assert_screen_contains (js "BUTTON") None (dump_xml login_screen) = true.
Proof.
  apply (assert_screen_contains_reads_the_markup login_screen
           (button "Login" "com.app:id/login" 0 200) (js "BUTTON")).
  - right. left. reflexivity.
  - vm_compute. reflexivity.
Defined.

(** *** The exact test *)

Lemma text_front_nowhere ic e leaf rest :
  wf_element e = true ->
  nowhere ic (js "text='") (text_pre e) (text_core leaf e ++ rest).
Proof.
  intros He.
  assert (Hp : In (js "text='") scanned_prefixes) by (simpl; tauto).
  assert (Hglue : glue_clashes ic (js "text='") [js "<node"; js " "] = true)
    by (destruct ic; vm_compute; reflexivity).
  pose proof (wf_element_parts e He) as (_ & _ & _ & Hl & _).
  unfold text_pre.
  apply nowhere_app; [glue Hglue|].
  apply nowhere_app; [apply attrs_nowhere; assumption|].
  glue Hglue.
Qed.

Lemma text_back_nowhere ic e leaf rest :
  wf_element e = true ->
  nowhere ic (js "text='")
    (js "ext='" ++ el_text e ++ js "'" ++ after_text e ++ bounds_attr e ++ tag_end leaf) rest.
Proof.
  intros He.
  assert (Hglue : glue_clashes ic (js "text='") [js "ext='"; js "'"] = true)
    by (destruct ic; vm_compute; reflexivity).
  destruct (bounds_attr_cons e) as (v & Ev & Hv).
  pose proof (wf_element_parts e He) as (Ht & _).
  apply nowhere_app; [glue Hglue|].
  apply nowhere_app; [apply (nowhere_value ic (js "text") []); [reflexivity | assumption]|].
  apply nowhere_app; [glue Hglue|].
  apply nowhere_app; [apply after_text_nowhere; [simpl; tauto | assumption]|].
  apply (nowhere_first_b ic "t" (js "ext='")).
  rewrite Ev. cbn [app forallb]. rewrite (Hv ic "t"%char (digit_not_t ic)).
  - destruct ic; reflexivity.
  - destruct ic; reflexivity.
Qed.

Lemma str_same_eq a : forall b, str_same a b = true <-> a = b.
Proof.
  induction a as [|x a IH]; intros [|y b]; simpl; split; intros H;
    try reflexivity; try discriminate.
  - apply andb_prop in H. destruct H as [H1 H2].
    apply Ascii.eqb_eq in H1. apply IH in H2. congruence.
  - inversion H; subst. rewrite Ascii.eqb_refl. apply IH. reflexivity.
Qed.

(** A query and the closing quote are read at a value when they are equal. *)
Lemma starts_with_value q : forall w rest,
  no_quote q = true -> value_ok w = true ->
  starts_with (w ++ dquote :: rest) (q ++ [dquote]) = str_same q w.
Proof.
  induction q as [|a q IH]; intros w rest Hq Hw.
  - destruct w as [|c w]; cbn [app starts_with str_same].
    + rewrite Ascii.eqb_refl. destruct rest; reflexivity.
    + pose proof (value_ok_chars _ Hw) as Hw0. simpl in Hw0.
      apply andb_prop in Hw0. destruct Hw0 as [Hc _].
      apply value_char_spec in Hc. destruct Hc as (Hc & _). rewrite Hc. reflexivity.
  - simpl in Hq. apply andb_prop in Hq. destruct Hq as [Ha Hq].
    destruct w as [|c w]; cbn [app starts_with str_same].
    + apply negb_true_iff in Ha. rewrite Ha. reflexivity.
    + apply value_ok_tail in Hw. rewrite (IH w rest Hq Hw). reflexivity.
Qed.

Section ExactText.
Variable q : str.
Hypothesis Hq : no_quote q = true.
Let p := js "text='" ++ q ++ [dquote].

Lemma includes_exact_node leaf e rest :
  wf_element e = true ->
  includes (node_xml leaf e ++ rest) p = str_same q (el_text e) || includes rest p.
Proof.
  intros He.
  assert (E : node_xml leaf e ++ rest = text_pre e ++ text_core leaf e ++ rest).
  { unfold node_xml, text_pre, text_core. repeat rewrite <- app_assoc. reflexivity. }
  rewrite E. unfold p.
  rewrite includes_skip by (apply nowhere_longer, text_front_nowhere; exact He).
  assert (E2 : text_core leaf e ++ rest
               = "t"%char :: (js "ext='" ++ el_text e ++ js "'" ++ after_text e
                              ++ bounds_attr e ++ tag_end leaf) ++ rest).
  { unfold text_core. repeat rewrite <- app_assoc. reflexivity. }
  rewrite E2, includes_cons.
  rewrite includes_skip by (apply nowhere_longer, text_back_nowhere; exact He).
  f_equal.
  change ("t"%char :: (js "ext='" ++ el_text e ++ js "'" ++ after_text e
                       ++ bounds_attr e ++ tag_end leaf) ++ rest)
    with (js "text='" ++ (el_text e ++ js "'" ++ after_text e
                          ++ bounds_attr e ++ tag_end leaf) ++ rest).
  rewrite starts_with_app, <- app_assoc.
  apply starts_with_value; [exact Hq|].
  apply (wf_element_parts e He).
Qed.

Lemma includes_exact_items : forall items,
  wf_dump items = true ->
  includes (concat (map item_xml items) ++ js "</hierarchy>") p
  = existsb (fun e => str_same q (el_text e)) (elements items).
Proof.
  assert (Hp : In (js "text='") scanned_prefixes) by (simpl; tauto).
  destruct (scanned_shape _ Hp) as (name & p' & _ & _ & Hg). specialize (Hg false).
  induction items as [|it items IH]; intros Hwf.
  - cbn [map concat app elements flat_map existsb]. unfold p.
    rewrite <- (app_nil_r (js "</hierarchy>")), includes_skip
      by (apply nowhere_longer; glue Hg).
    reflexivity.
  - simpl in Hwf. apply andb_prop in Hwf. destruct Hwf as [He Hes].
    cbn [map concat]. rewrite <- app_assoc. destruct it as [leaf e|].
    + cbn [item_xml elements flat_map app existsb]. fold (elements items).
      rewrite (includes_exact_node leaf e _ He), (IH Hes). reflexivity.
    + cbn [item_xml elements flat_map app]. fold (elements items). unfold p.
      rewrite includes_skip by (apply nowhere_longer; glue Hg). apply (IH Hes).
Qed.
End ExactText.

(** X14: With [exact], [assert_screen_contains] passes on a well-formed dump
    exactly when a node has the text of the query, character by character:
    unlike the exact match of [tap_element], the case of letters counts. *)
Theorem assert_screen_contains_exact (items : list item) (q : str) :
  wf_dump items = true -> no_quote q = true ->
  assert_screen_contains q (Some true) (dump_xml items)
  = existsb (fun e => str_same q (el_text e)) (elements items).
Proof.
  intros Hwf Hq. unfold assert_screen_contains, dump_xml.
  assert (Hp : In (js "text='") scanned_prefixes) by (simpl; tauto).
  destruct (scanned_shape _ Hp) as (name & p' & _ & _ & Hg). specialize (Hg false).
  change (js "text='" ++ q ++ js "'") with (js "text='" ++ q ++ [dquote]).
  rewrite includes_skip by (apply nowhere_longer; glue Hg).
  apply includes_exact_items; assumption.
Qed.

Lemma assert_screen_contains_exact_witness :
  assert_screen_contains (js "LOGIN") (Some true) (dump_xml login_screen) = false.
Proof.
  apply (assert_screen_contains_exact login_screen (js "LOGIN")); vm_compute; reflexivity.
Defined.

(** ** wait_for_element and wait_for_element_gone *)

Lemma wait_for_element_loop_first text startTime timeoutMs p later : forall before tick,
  Forall (fun p' => (checked_at p' - startTime < timeoutMs)%Z
                    /\ on_screen text (currentXml p') = false) before ->
  (checked_at p - startTime < timeoutMs)%Z ->
  on_screen text (currentXml p) = true ->
  wait_for_element_loop text startTime timeoutMs tick (before ++ p :: later)
  = WaitFound (tick + length before) (seconds_at startTime p).
Proof.
  unfold on_screen.
  induction before as [|p' before IH]; intros tick Hb Hp Hon; cbn [app wait_for_element_loop].
  - apply Z.ltb_lt in Hp. rewrite Hp, Hon. cbn [length]. rewrite Nat.add_0_r. reflexivity.
  - inversion Hb as [|? ? [H1 H2] Hb']; subst. apply Z.ltb_lt in H1. rewrite H1, H2.
    rewrite (IH (S tick) Hb' Hp Hon). cbn [length]. f_equal. lia.
Qed.

Lemma wait_for_element_gone_loop_first text startTime timeout p later : forall before tick,
  Forall (fun p' => (checked_at p' - startTime < timeout)%Z
                    /\ on_screen text (currentXml p') = true) before ->
  (checked_at p - startTime < timeout)%Z ->
  on_screen text (currentXml p) = false ->
  wait_for_element_gone_loop text startTime timeout tick (before ++ p :: later)
  = WaitFound (tick + length before) (seconds_at startTime p).
Proof.
  unfold on_screen.
  induction before as [|p' before IH]; intros tick Hb Hp Hon;
    cbn [app wait_for_element_gone_loop].
  - apply Z.ltb_lt in Hp. rewrite Hp, Hon. cbn [length negb]. rewrite Nat.add_0_r.
    reflexivity.
  - inversion Hb as [|? ? [H1 H2] Hb']; subst. apply Z.ltb_lt in H1. rewrite H1, H2.
    cbn [negb]. rewrite (IH (S tick) Hb' Hp Hon). cbn [length]. f_equal. lia.
Qed.

Lemma wait_for_element_loop_timeout text startTime timeoutMs p later : forall before tick,
  Forall (fun p' => (checked_at p' - startTime < timeoutMs)%Z
                    /\ on_screen text (currentXml p') = false) before ->
  (timeoutMs <= checked_at p - startTime)%Z ->
  wait_for_element_loop text startTime timeoutMs tick (before ++ p :: later)
  = WaitTimeout (tick + length before).
Proof.
  unfold on_screen.
  induction before as [|p' before IH]; intros tick Hb Hp; cbn [app wait_for_element_loop].
  - apply Z.ltb_ge in Hp. rewrite Hp. cbn [length]. rewrite Nat.add_0_r. reflexivity.
  - inversion Hb as [|? ? [H1 H2] Hb']; subst. apply Z.ltb_lt in H1. rewrite H1, H2.
    rewrite (IH (S tick) Hb' Hp). cbn [length]. f_equal. lia.
Qed.

Lemma wait_for_element_gone_loop_timeout text startTime timeout p later :
  forall before tick,
  Forall (fun p' => (checked_at p' - startTime < timeout)%Z
                    /\ on_screen text (currentXml p') = true) before ->
  (timeout <= checked_at p - startTime)%Z ->
  wait_for_element_gone_loop text startTime timeout tick (before ++ p :: later)
  = WaitTimeout (tick + length before).
Proof.
  unfold on_screen.
  induction before as [|p' before IH]; intros tick Hb Hp;
    cbn [app wait_for_element_gone_loop].
  - apply Z.ltb_ge in Hp. rewrite Hp. cbn [length]. rewrite Nat.add_0_r. reflexivity.
  - inversion Hb as [|? ? [H1 H2] Hb']; subst. apply Z.ltb_lt in H1. rewrite H1, H2.
    cbn [negb]. rewrite (IH (S tick) Hb' Hp). cbn [length]. f_equal. lia.
Qed.

(** X15: [wait_for_element] goes through the dumps in order while the time
    read before a dump is less than its timeout, counted in seconds (10 by
    default): it returns at the first dump that holds the text anywhere,
    markup included, up to the case of letters, with the elapsed time in
    whole seconds, and gives up at the first dump that would start at or
    after the deadline, whatever the screen shows then.
    [wait_for_element_gone] does the same with a timeout counted in
    milliseconds (10000 by default) and returns at the first dump that does
    not hold the text. *)
Theorem waiting_tools_return_at_the_first_dump
  (text : str) (timeout timeout' : option Z) (startTime : Z) (before : list poll)
  (p : poll) (later : list poll) :
  (Forall (fun p' =>
     (checked_at p' - startTime < match timeout with Some t => t | None => 10 end * 1000)%Z
     /\ on_screen text (currentXml p') = false) before ->
   ((checked_at p - startTime < match timeout with Some t => t | None => 10 end * 1000)%Z ->
    on_screen text (currentXml p) = true ->
    wait_for_element text timeout startTime (before ++ p :: later)
    = WaitFound (length before) (seconds_at startTime p))
   /\ ((match timeout with Some t => t | None => 10 end * 1000
        <= checked_at p - startTime)%Z ->
       wait_for_element text timeout startTime (before ++ p :: later)
       = WaitTimeout (length before)))
  /\ (Forall (fun p' =>
        (checked_at p' - startTime < match timeout' with Some t => t | None => 10000 end)%Z
        /\ on_screen text (currentXml p') = true) before ->
      ((checked_at p - startTime < match timeout' with Some t => t | None => 10000 end)%Z ->
       on_screen text (currentXml p) = false ->
       wait_for_element_gone text timeout' startTime (before ++ p :: later)
       = WaitFound (length before) (seconds_at startTime p))
      /\ ((match timeout' with Some t => t | None => 10000 end
           <= checked_at p - startTime)%Z ->
          wait_for_element_gone text timeout' startTime (before ++ p :: later)
          = WaitTimeout (length before))).
Proof.
  split; intros Hb; split.
  - intros Hp Hon. unfold wait_for_element.
    apply (wait_for_element_loop_first text startTime _ p later before 0 Hb Hp Hon).
  - intros Hp. unfold wait_for_element.
    apply (wait_for_element_loop_timeout text startTime _ p later before 0 Hb Hp).
  - intros Hp Hon. unfold wait_for_element_gone.
    apply (wait_for_element_gone_loop_first text startTime _ p later before 0 Hb Hp Hon).
  - intros Hp. unfold wait_for_element_gone.
    apply (wait_for_element_gone_loop_timeout text startTime _ p later before 0 Hb Hp).
Qed.

Lemma waiting_tools_return_at_the_first_dump_witness :
  wait_for_element (js "login") (Some 1%Z) 0
    [poll_at 10 (dump_xml submit_screen); poll_at 560 (dump_xml login_screen)]
  = WaitFound 1 1
  /\ wait_for_element (js "login") (Some 1%Z) 0
       [poll_at 10 (dump_xml submit_screen); poll_at 1060 (dump_xml login_screen)]
     = WaitTimeout 1
  /\ wait_for_element_gone (js "submit") (Some 1%Z) 0
       [poll_at 10 (dump_xml submit_screen); poll_at 560 (dump_xml login_screen)]
     = WaitTimeout 0.
Proof.
  assert (Hb : Forall (fun p' => (checked_at p' - 0 < 1 * 1000)%Z
                 /\ on_screen (js "login") (currentXml p') = false)
                 [poll_at 10 (dump_xml submit_screen)]).
  { constructor; [split; [reflexivity | vm_compute; reflexivity] | constructor]. }
  split; [|split].
  - apply (proj1 (proj1 (waiting_tools_return_at_the_first_dump (js "login") (Some 1%Z)
                           None 0 [poll_at 10 (dump_xml submit_screen)]
                           (poll_at 560 (dump_xml login_screen)) []) Hb)).
    + reflexivity.
    + vm_compute. reflexivity.
  - apply (proj2 (proj1 (waiting_tools_return_at_the_first_dump (js "login") (Some 1%Z)
                           None 0 [poll_at 10 (dump_xml submit_screen)]
                           (poll_at 1060 (dump_xml login_screen)) []) Hb)).
    simpl. lia.
  - apply (proj2 (proj2 (waiting_tools_return_at_the_first_dump (js "submit") None
                           (Some 1%Z) 0 []
                           (poll_at 10 (dump_xml submit_screen))
                           [poll_at 560 (dump_xml login_screen)]) (Forall_nil _))).
    simpl. lia.
Defined.

Lemma wait_for_element_gone_loop_tick text startTime timeout : forall polls tick t s,
  wait_for_element_gone_loop text startTime timeout tick polls = WaitFound t s -> tick <= t.
Proof.
  induction polls as [|p polls IH]; intros tick t s H; cbn [wait_for_element_gone_loop] in H.
  - discriminate H.
  - destruct (checked_at p - startTime <? timeout)%Z; [|discriminate H].
    destruct (negb _).
    + inversion H. lia.
    + apply IH in H. lia.
Qed.

(** X16: A dump whose node has the text, in its text, its resource-id or its
    class, ends the wait of [wait_for_element] at once and does not end the
    wait of [wait_for_element_gone]. *)
Theorem wait_for_element_sees_attributes
  (items : list item) (e : element) (text : str) (timeout timeout' : option Z)
  (startTime : Z) (p : poll) (later : list poll) :
  In e (elements items) ->
  (contains_ci text (el_text e) || contains_ci text (el_id e)
   || contains_ci text (el_class e))%bool = true ->
  currentXml p = dump_xml items ->
  (checked_at p - startTime < match timeout with Some t => t | None => 10 end * 1000)%Z ->
  wait_for_element text timeout startTime (p :: later)
  = WaitFound 0 (seconds_at startTime p)
  /\ forall seconds,
       wait_for_element_gone text timeout' startTime (p :: later) <> WaitFound 0 seconds.
Proof.
  intros Hin Hc Hxml Ht.
  pose proof (lower_includes_in_dump items e text Hin Hc) as Hon. rewrite <- Hxml in Hon.
  split.
  - unfold wait_for_element. cbn [wait_for_element_loop].
    apply Z.ltb_lt in Ht. rewrite Ht, Hon. reflexivity.
  - intros s. unfold wait_for_element_gone. cbn [wait_for_element_gone_loop].
    rewrite Hon. cbn [negb].
    destruct (checked_at p - startTime <? _)%Z; [|discriminate].
    intros C. apply wait_for_element_gone_loop_tick in C. lia.
Qed.

Lemma wait_for_element_sees_attributes_witness :
  wait_for_element (js "com.app:id/LOGIN") None 0 [poll_at 10 (dump_xml login_screen)]
  = WaitFound 0 0.
Proof.
  apply (proj1 (wait_for_element_sees_attributes login_screen
                  (button "Login" "com.app:id/login" 0 200) (js "com.app:id/LOGIN")
                  None None 0 (poll_at 10 (dump_xml login_screen)) []
                  ltac:(right; left; reflexivity) ltac:(vm_compute; reflexivity)
                  eq_refl ltac:(reflexivity))).
Defined.

(** ** scroll_to_text *)




(** ** Positions at which a pattern fails *)

Lemma rep_greedy_ext ok s k k' :
  (forall s', k s' = k' s') -> rep_greedy ok s k = rep_greedy ok s k'.
Proof.
  intros H. induction s as [|c s IH]; simpl.
  - apply H.
  - rewrite IH, H. reflexivity.
Qed.

Lemma rep_lazy_ext ok s k k' :
  (forall s', k s' = k' s') -> rep_lazy ok s k = rep_lazy ok s k'.
Proof.
  intros H. induction s as [|c s IH]; simpl.
  - rewrite H. reflexivity.
  - rewrite IH, H. reflexivity.
Qed.

Lemma rmatch_ext ic r : forall s cs k k',
  (forall s' cs', k s' cs' = k' s' cs') -> rmatch ic r s cs k = rmatch ic r s cs k'.
Proof.
  induction r as [|c|r1 IH1 r2 IH2|min1 greedy c|cap r IH|greedy r IH];
    intros s cs k k' H; simpl.
  - apply H.
  - destruct s; [reflexivity|]. rewrite H. reflexivity.
  - apply IH1. intros. apply IH2. exact H.
  - assert (E : forall s0,
        (if greedy then rep_greedy else rep_lazy) (accepts ic c) s0 (fun s' => k s' cs)
        = (if greedy then rep_greedy else rep_lazy) (accepts ic c) s0 (fun s' => k' s' cs)).
    { intros s0. destruct greedy; [apply rep_greedy_ext | apply rep_lazy_ext];
        intros; apply H. }
    destruct min1; [destruct s; [reflexivity|]|]; rewrite E; reflexivity.
  - apply IH. intros. apply H.
  - rewrite (IH s cs _ (fun s' cs' =>
        if Nat.eqb (length s') (length s) then None else k' s' cs')).
    + rewrite H. reflexivity.
    + intros. rewrite H. reflexivity.
Qed.

Lemma rmatch_seq_app ic a b : forall s cs k,
  rmatch ic (seq_of (a ++ b)) s cs k
  = rmatch ic (seq_of a) s cs (fun s' cs' => rmatch ic (seq_of b) s' cs' k).
Proof.
  induction a as [|r a IH]; intros s cs k; simpl.
  - reflexivity.
  - apply rmatch_ext. intros. apply IH.
Qed.

Lemma exec_from_dead ic c : forall u rest,
  dead ic c u rest -> exec_from ic c (u ++ rest) = exec_from ic c rest.
Proof.
  induction u as [|a u IH]; intros rest H; [reflexivity|].
  destruct H as [H1 H2]. cbn [app exec_from]. unfold final in H1. rewrite H1.
  apply IH. exact H2.
Qed.

Lemma dead_app ic c : forall a b rest,
  dead ic c a (b ++ rest) -> dead ic c b rest -> dead ic c (a ++ b) rest.
Proof.
  induction a as [|x a IH]; intros b rest Ha Hb; [exact Hb|].
  destruct Ha as [H1 H2]. cbn [app dead]. split.
  - rewrite <- app_assoc. exact H1.
  - apply IH; assumption.
Qed.

Lemma nowhere_dead ic c p rs :
  re c = seq_of (map lit p ++ rs) ->
  forall u rest, nowhere ic p u rest -> dead ic c u rest.
Proof.
  intros Hre. induction u as [|a u IH]; intros rest H; [exact I|].
  destruct H as [H1 H2]. split; [|apply IH; exact H2].
  rewrite Hre, rmatch_lits, H1. reflexivity.
Qed.

(** A run of characters other than [>] followed by a literal fails where
    the literal is not read up to the end of the tag. *)
Lemma gt_run_dead ic p rs cs k rest : forall w,
  nowhere ic p (w ++ [">"%char]) rest ->
  rep_greedy (accepts ic (CClass true [">"%char])) (w ++ ">"%char :: rest)
    (fun s' => rmatch ic (seq_of (map lit p ++ rs)) s' cs k) = None.
Proof.
  induction w as [|c w IH]; intros H.
  - destruct H as [H1 _]. cbn [app rep_greedy] in *. rewrite accepts_not_gt.
    cbn [Ascii.eqb negb]. rewrite rmatch_lits, H1. reflexivity.
  - destruct H as [H1 H2]. cbn [app rep_greedy].
    rewrite (IH H2). rewrite <- app_assoc in H1. cbn [app] in H1.
    rewrite rmatch_lits, H1. destruct (accepts ic _ c); reflexivity.
Qed.

Lemma strip_inside ic p : forall w rest s',
  forallb (differs ic ">") p = true ->
  strip ic p (w ++ ">"%char :: rest) = Some s' ->
  exists w1 w2, w = w1 ++ w2 /\ s' = w2 ++ ">"%char :: rest.
Proof.
  induction p as [|a p IH]; intros w rest s' Hp H.
  - inversion H. exists [], w. split; reflexivity.
  - simpl in Hp. apply andb_prop in Hp. destruct Hp as [Ha Hp].
    destruct w as [|c w]; cbn [app strip] in H.
    + unfold differs in Ha. apply negb_true_iff in Ha.
      rewrite Ascii.eqb_sym, Ha in H. discriminate H.
    + destruct (Ascii.eqb (canon ic a) (canon ic c)); [|discriminate H].
      destruct (IH w rest s' Hp H) as (w1 & w2 & -> & ->).
      exists (c :: w1), w2. split; reflexivity.
Qed.

(** ** get_focused_element *)

Lemma literal_focused :
  focused_regex = {| re := seq_of focused_items; ncaps := 5 |}.
Proof. vm_compute; reflexivity. Qed.

Lemma literal_focused_alt :
  focused_alt_regex = {| re := seq_of focused_alt_items; ncaps := 5 |}.
Proof. vm_compute; reflexivity. Qed.

(** After the [text] attribute of a node, [focused="true"] may be read, but
    no [text] attribute follows it in the tag. *)
Lemma focused_fails_after_text rest cs k : forall w,
  nowhere false (js "text='") (w ++ [">"%char]) rest ->
  rmatch false (seq_of focused_items) (w ++ ">"%char :: rest) cs k = None.
Proof.
  intros w H. unfold focused_items. rewrite rmatch_lits.
  destruct (strip false (js "focused='true'") (w ++ ">"%char :: rest)) as [s'|] eqn:E;
    [|reflexivity].
  destruct (strip_inside false (js "focused='true'") w rest s' eq_refl E)
    as (w1 & w2 & -> & ->).
  rewrite rmatch_cons. unfold star_not at 1. cbn [rmatch].
  apply gt_run_dead. rewrite <- app_assoc in H. apply (nowhere_suffix _ _ _ _ _ H).
Qed.

Lemma focused_zone_dead rest : forall w,
  nowhere false (js "text='") (w ++ [">"%char]) rest ->
  dead false {| re := seq_of focused_items; ncaps := 5 |} (w ++ [">"%char]) rest.
Proof.
  induction w as [|c w IH]; intros H.
  - split; [|exact I]. apply (focused_fails_after_text rest _ _ [] H).
  - split.
    + cbn [re ncaps]. rewrite <- app_assoc.
      apply (focused_fails_after_text rest _ _ (c :: w) H).
    + apply IH. apply H.
Qed.

Lemma focused_node_dead leaf e rest :
  wf_element e = true -> focus_after_text e = true ->
  dead false {| re := seq_of focused_items; ncaps := 5 |} (node_xml leaf e) rest.
Proof.
  intros He Hf.
  assert (Hre : re {| re := seq_of focused_items; ncaps := 5 |}
                = seq_of (map lit (js "focused='true'")
                          ++ star_not ">" :: map lit (js "text='")
                          ++ RGroup (Some 0) (RSeq (star_not dquote) REmpty) :: lit dquote
                          :: star_not ">" :: tail_items 1)) by reflexivity.
  assert (Hglue : glue_clashes false (js "focused='true'")
                    [js "<node"; js " text='"; js "'"] = true)
    by (vm_compute; reflexivity).
  pose proof (wf_element_parts e He) as (Ht & _).
  assert (E : node_xml leaf e
              = js "<node" ++ attrs_xml (el_lead e) ++ js " text='" ++ el_text e ++ js "'"
                ++ ((after_text e ++ bounds_attr e ++ (if leaf then js " /" else []))
                    ++ [">"%char])).
  { unfold node_xml. destruct leaf; cbn [tag_end]; repeat rewrite <- app_assoc; reflexivity. }
  rewrite E.
  apply dead_app; [apply (nowhere_dead _ _ _ _ Hre); glue Hglue|].
  apply dead_app;
    [apply (nowhere_dead _ _ _ _ Hre); apply clash_all_nowhere; exact Hf|].
  apply dead_app; [apply (nowhere_dead _ _ _ _ Hre); glue Hglue|].
  apply dead_app;
    [apply (nowhere_dead _ _ _ _ Hre);
     apply (nowhere_value false (js "focused") (js "true'")); [reflexivity | exact Ht]|].
  apply dead_app; [apply (nowhere_dead _ _ _ _ Hre); glue Hglue|].
  apply focused_zone_dead.
  pose proof (text_back_nowhere false e leaf rest He) as Hb.
  apply (nowhere_suffix _ _ (js "ext='" ++ el_text e ++ js "'")).
  repeat rewrite <- app_assoc.
  destruct leaf; cbn [tag_end] in Hb; repeat rewrite <- app_assoc in Hb; exact Hb.
Qed.

Lemma bounds_front_nowhere e rest :
  wf_element e = true -> nowhere false (js "bounds='[") (bounds_pre e) rest.
Proof.
  intros He.
  assert (Hp : In (js "bounds='[") scanned_prefixes) by (simpl; tauto).
  assert (Hglue : glue_clashes false (js "bounds='[") [js "<node"; js " text='"; js "'"] = true)
    by (vm_compute; reflexivity).
  pose proof (wf_element_parts e He) as (Ht & _ & _ & Hl & _).
  unfold bounds_pre.
  apply nowhere_app; [glue Hglue|].
  apply nowhere_app; [apply attrs_nowhere; assumption|].
  apply nowhere_app; [glue Hglue|].
  apply nowhere_app;
    [apply (nowhere_value false (js "bounds") ["["%char]); [reflexivity | assumption]|].
  apply nowhere_app; [glue Hglue|].
  apply after_text_nowhere; [simpl; tauto | assumption].
Qed.

Lemma focused_alt_node_dead leaf e rest :
  wf_element e = true ->
  dead false {| re := seq_of focused_alt_items; ncaps := 5 |} (node_xml leaf e) rest.
Proof.
  intros He.
  assert (Hre : re {| re := seq_of focused_alt_items; ncaps := 5 |}
                = seq_of (map lit (js "bounds='[")
                          ++ [digits_group 0; lit ","; digits_group 1; lit "]"; lit "[";
                              digits_group 2; lit ","; digits_group 3; lit "]"; lit dquote]
                          ++ star_not ">" :: map lit (js "focused='true'") ++ star_not ">"
                          :: map lit (js "text='")
                          ++ [RGroup (Some 4) (RSeq (star_not dquote) REmpty); lit dquote]))
    by reflexivity.
  assert (Hglue : glue_clashes false (js "focused='true'") [js " />"; js ">"] = true)
    by (vm_compute; reflexivity).
  assert (E : node_xml leaf e = bounds_pre e ++ bounds_attr e ++ tag_end leaf).
  { unfold node_xml, bounds_pre. repeat rewrite <- app_assoc. reflexivity. }
  rewrite E.
  apply dead_app; [apply (nowhere_dead _ _ _ _ Hre), bounds_front_nowhere; exact He|].
  destruct (bounds_attr_cons e) as (v & Ev & Hv).
  assert (Hat : rmatch false (seq_of focused_alt_items)
                  (bounds_attr e ++ tag_end leaf ++ rest) (repeat None 5) final = None).
  { unfold focused_alt_items. rewrite rmatch_seq_app, rmatch_tail.
    rewrite rmatch_cons. unfold star_not at 1. cbn [rmatch].
    destruct leaf; cbn [tag_end].
    - apply (gt_run_dead false _ _ _ _ rest (js " /")). glue Hglue.
    - apply (gt_run_dead false _ _ _ _ rest []). glue Hglue. }
  rewrite Ev in *. cbn [app dead]. split.
  - cbn [re ncaps]. rewrite <- app_assoc. exact Hat.
  - apply (nowhere_dead _ _ _ _ Hre).
    apply (nowhere_first_b false "b" (js "ounds='[")).
    apply (Hv false "b"%char (digit_not_b false)). reflexivity.
Qed.

Lemma dump_dead c p rs :
  re c = seq_of (map lit p ++ rs) ->
  glue_clashes false p [xml_header; js "</node>"; js "</hierarchy>"] = true ->
  (forall leaf e rest, wf_element e = true -> dead false c (node_xml leaf e) rest) ->
  forall items, wf_dump items = true -> dead false c (dump_xml items) [].
Proof.
  intros Hre Hg Hnode items Hwf. unfold dump_xml.
  apply dead_app; [apply (nowhere_dead _ _ _ _ Hre); glue Hg|].
  induction items as [|it items IH].
  - cbn [map concat app]. apply (nowhere_dead _ _ _ _ Hre). glue Hg.
  - simpl in Hwf. apply andb_prop in Hwf. destruct Hwf as [He Hes].
    cbn [map concat]. rewrite <- app_assoc. apply dead_app; [|apply IH; exact Hes].
    destruct it as [leaf e|]; cbn [item_xml].
    + apply Hnode. exact He.
    + apply (nowhere_dead _ _ _ _ Hre). glue Hg.
Qed.

Lemma exec_from_dead_all c u :
  dead false c u [] -> rmatch false (re c) [] (repeat None (ncaps c)) final = None ->
  exec_from false c u = None.
Proof.
  intros H H0. rewrite <- (app_nil_r u), (exec_from_dead _ _ _ _ H).
  cbn [exec_from]. unfold final in H0. rewrite H0. reflexivity.
Qed.

(** X18: [get_focused_element] finds no focused element in a dump as
    [uiautomator] writes it, whatever the screen shows: its first pattern
    wants the [text] attribute after [focused] in the tag, and its second
    wants [focused] after [bounds], which ends the tag. *)
Theorem get_focused_element_finds_nothing (items : list item) :
  wf_dump items = true ->
  forallb focus_after_text (elements items) = true ->
  get_focused_element (dump_xml items) = NotFocused.
Proof.
  intros Hwf Hf. unfold get_focused_element, RegExp_exec.
  rewrite literal_focused, literal_focused_alt.
  assert (H1 : exec_from false {| re := seq_of focused_items; ncaps := 5 |} (dump_xml items)
               = None).
  { apply exec_from_dead_all; [|reflexivity]. unfold dump_xml.
    assert (Hre : re {| re := seq_of focused_items; ncaps := 5 |}
                  = seq_of (map lit (js "focused='true'")
                            ++ star_not ">" :: map lit (js "text='")
                            ++ RGroup (Some 0) (RSeq (star_not dquote) REmpty) :: lit dquote
                            :: star_not ">" :: tail_items 1)) by reflexivity.
    assert (Hg : glue_clashes false (js "focused='true'")
                   [xml_header; js "</node>"; js "</hierarchy>"] = true)
      by (vm_compute; reflexivity).
    apply dead_app; [apply (nowhere_dead _ _ _ _ Hre); glue Hg|].
    induction items as [|it items IH].
    - cbn [map concat app]. apply (nowhere_dead _ _ _ _ Hre). glue Hg.
    - simpl in Hwf. apply andb_prop in Hwf. destruct Hwf as [He Hes].
      cbn [map concat]. rewrite <- app_assoc.
      destruct it as [leaf e|]; cbn [item_xml].
      + cbn [elements flat_map app forallb] in Hf. apply andb_prop in Hf.
        destruct Hf as [Hfe Hfs].
        apply dead_app; [apply focused_node_dead; assumption | apply IH; assumption].
      + apply dead_app; [apply (nowhere_dead _ _ _ _ Hre); glue Hg | apply IH; assumption]. }
  assert (H2 : exec_from false {| re := seq_of focused_alt_items; ncaps := 5 |}
                 (dump_xml items) = None).
  { apply exec_from_dead_all; [|reflexivity].
    apply (dump_dead _ (js "bounds='[")
             ([digits_group 0; lit ","; digits_group 1; lit "]"; lit "[";
               digits_group 2; lit ","; digits_group 3; lit "]"; lit dquote]
              ++ star_not ">" :: map lit (js "focused='true'") ++ star_not ">"
              :: map lit (js "text='")
              ++ [RGroup (Some 4) (RSeq (star_not dquote) REmpty); lit dquote]));
      [reflexivity | vm_compute; reflexivity | | exact Hwf].
    intros leaf e rest He. apply focused_alt_node_dead. exact He. }
  rewrite H1, H2. reflexivity.
Qed.

Lemma get_focused_element_finds_nothing_witness :
  get_focused_element (dump_xml focused_screen) = NotFocused.
Proof.
  apply (get_focused_element_finds_nothing focused_screen); vm_compute; reflexivity.
Defined.

(** ** A resourceId with dots *)

Lemma pstep_dotted st c :
  ps_mode st = PNormal -> dotted_char c = true ->
  pstep st c = POk (push_char st (id_charset c)).
Proof.
  intros Hm Hc. unfold pstep. rewrite Hm. clear Hm. unfold id_charset.
  destruct c as [[] [] [] [] [] [] [] []]; vm_compute in Hc; try discriminate Hc;
    reflexivity.
Qed.

Lemma psteps_dotted q : forall st,
  ps_mode st = PNormal -> forallb dotted_char q = true ->
  psteps st q = POk (push_id_chars st q).
Proof.
  induction q as [|c q IH]; intros st Hm Hq.
  - reflexivity.
  - simpl in Hq. apply andb_prop in Hq. destruct Hq as [Hc Hq].
    cbn [psteps]. rewrite (pstep_dotted st c Hm Hc). simpl. apply IH; [reflexivity | exact Hq].
Qed.

Lemma push_id_chars_pmid q : forall items l n,
  q <> [] ->
  push_id_chars (pmid items l n) q = pmid (rev (map id_item q) ++ items) LChar n.
Proof.
  induction q as [|c q IH]; intros items l n Hq; [congruence|].
  destruct q as [|c' q].
  - reflexivity.
  - change (push_id_chars (pmid items l n) (c :: c' :: q))
      with (push_id_chars (pmid (id_item c :: items) LChar n) (c' :: q)).
    rewrite IH by discriminate.
    cbn [map rev]. rewrite <- !app_assoc. reflexivity.
Qed.

Lemma RegExp_new_dotted a q b items_a la items_b n :
  q <> [] -> forallb dotted_char q = true ->
  psteps pinit a = POk (pmid items_a la 0) ->
  (forall items, psteps (pmid items LChar 0) b = POk (pmid (items_b ++ items) LChar n)) ->
  RegExp_new (a ++ q ++ b)
  = POk {| re := seq_of (rev items_a ++ map id_item q ++ rev items_b); ncaps := n |}.
Proof.
  intros Hq Hd Ha Hb. unfold RegExp_new.
  rewrite psteps_app, Ha. simpl. rewrite psteps_app.
  rewrite (psteps_dotted q (pmid items_a la 0) (eq_refl PNormal) Hd). simpl.
  rewrite (push_id_chars_pmid q items_a la 0 Hq), Hb. simpl. unfold pfinish. simpl.
  rewrite !rev_app_distr, rev_involutive, <- app_assoc. reflexivity.
Qed.

Lemma compile_tap_dotted_id q :
  q <> [] -> forallb dotted_char q = true ->
  RegExp_new (js "resource-id='" ++ q ++ js "'[^>]*" ++ bounds_pattern)
  = POk {| re := seq_of (dotted_id_items (star_not ">") q); ncaps := 4 |}.
Proof.
  intros Hq Hd.
  rewrite (RegExp_new_dotted (js "resource-id='") q (js "'[^>]*" ++ bounds_pattern)
             (rev (map lit (js "resource-id='"))) LChar
             (rev (lit dquote :: star_not ">" :: tail_items 0)) 4 Hq Hd).
  - reflexivity.
  - vm_compute; reflexivity.
  - intros items; vm_compute; reflexivity.
Qed.

Lemma compile_geb_dotted_id q :
  q <> [] -> forallb dotted_char q = true ->
  RegExp_new (js "resource-id='" ++ q ++ js "'.*?" ++ bounds_pattern)
  = POk {| re := seq_of (dotted_id_items lazy_dots q); ncaps := 4 |}.
Proof.
  intros Hq Hd.
  rewrite (RegExp_new_dotted (js "resource-id='") q (js "'.*?" ++ bounds_pattern)
             (rev (map lit (js "resource-id='"))) LChar
             (rev (lit dquote :: lazy_dots :: tail_items 0)) 4 Hq Hd).
  - reflexivity.
  - vm_compute; reflexivity.
  - intros items; vm_compute; reflexivity.
Qed.

Lemma dotted_char_spec c :
  dotted_char c = true ->
  Ascii.eqb c "." = false ->
  accepts true (CLit c) dquote = false /\ accepts true (CLit c) " " = false.
Proof.
  destruct c as [[] [] [] [] [] [] [] []]; vm_compute; intros H1 H2;
    split; congruence.
Qed.

(** The resourceId and the closing quote are read at a resource-id that
    the resourceId matches, and only there: a dot can pass the closing
    quote, but what follows it cannot pass the space after the quote. *)
Lemma rmatch_id_head rs cs k S : forall q w,
  dotted_id q = true -> value_ok w = true ->
  rmatch true (seq_of (map id_item q ++ lit dquote :: rs)) (w ++ dquote :: " "%char :: S) cs k
  = if id_matches q w then rmatch true (seq_of rs) (" "%char :: S) cs k else None.
Proof.
  induction q as [|a q IH]; intros w Hq Hw.
  - destruct w as [|c w]; cbn [map app id_matches].
    + rewrite rmatch_lit_cons, canon_refl. reflexivity.
    + pose proof (value_ok_chars _ Hw) as Hw0. simpl in Hw0.
      apply andb_prop in Hw0. destruct Hw0 as [Hc _].
      apply value_char_spec in Hc. destruct Hc as (Hc & _).
      rewrite rmatch_lit_cons, canon_dquote_l, Hc. reflexivity.
  - unfold dotted_id in Hq. apply andb_prop in Hq. destruct Hq as [Hall Hpair].
    cbn [forallb] in Hall. apply andb_prop in Hall. destruct Hall as [Ha Hall].
    assert (Hq' : dotted_id q = true).
    { unfold dotted_id. rewrite Hall. destruct q as [|b q]; [reflexivity|].
      cbn [no_dot_pair] in Hpair. apply andb_prop in Hpair. apply Hpair. }
    destruct w as [|c w]; cbn [map app id_matches].
    + change (rmatch true (seq_of (id_item a :: map id_item q ++ lit dquote :: rs))
                (dquote :: " "%char :: S) cs k)
        with (if accepts true (id_charset a) dquote
              then rmatch true (seq_of (map id_item q ++ lit dquote :: rs))
                     (" "%char :: S) cs k
              else None).
      unfold id_charset. destruct (Ascii.eqb a ".") eqn:Ea.
      * cbn [accepts mem existsb negb]. destruct q as [|b q].
        -- reflexivity.
        -- cbn [no_dot_pair] in Hpair. rewrite Ea in Hpair. cbn [andb] in Hpair.
           apply andb_prop in Hpair. destruct Hpair as [Hb _].
           apply negb_true_iff in Hb.
           cbn [forallb] in Hall. apply andb_prop in Hall. destruct Hall as [Hbd _].
           destruct (dotted_char_spec b Hbd Hb) as [_ Hsp].
           change (rmatch true (seq_of (map id_item (b :: q) ++ lit dquote :: rs))
                     (" "%char :: S) cs k)
             with (if accepts true (id_charset b) " "
                   then rmatch true (seq_of (map id_item q ++ lit dquote :: rs)) S cs k
                   else None).
           unfold id_charset. rewrite Hb, Hsp. reflexivity.
      * destruct (dotted_char_spec a Ha Ea) as [Hdq _]. rewrite Hdq. reflexivity.
    + change (rmatch true (seq_of (id_item a :: map id_item q ++ lit dquote :: rs))
                (c :: w ++ dquote :: " "%char :: S) cs k)
        with (if accepts true (id_charset a) c
              then rmatch true (seq_of (map id_item q ++ lit dquote :: rs))
                     (w ++ dquote :: " "%char :: S) cs k
              else None).
      destruct (accepts true (id_charset a) c); [|reflexivity].
      apply IH; [exact Hq' | apply (value_ok_tail c w Hw)].
Qed.

Lemma scan_dotted_id g q items :
  is_gap g -> dotted_id q = true -> wf_dump items = true ->
  exec_all true {| re := seq_of (dotted_id_items g q); ncaps := 4 |} (dump_xml items)
  = Some (map rect_caps (filter (fun e => id_matches q (el_id e)) (elements items))).
Proof.
  intros Hg Hq Hwf.
  apply (id_scan true _ (map id_item q ++ lit dquote :: g :: tail_items 0)
           (fun e => id_matches q (el_id e)) rect_caps); [reflexivity | | exact Hwf].
  intros leaf e rest He. pose proof (wf_element_parts e He) as (_ & Hi & _).
  assert (E : after_id e ++ bounds_attr e ++ tag_end leaf ++ rest
              = " "%char :: (js "class='" ++ el_class e ++ js "'" ++ attrs_xml (el_more e)
                             ++ js " ") ++ bounds_attr e ++ tag_end leaf ++ rest).
  { unfold after_id. repeat rewrite <- app_assoc. reflexivity. }
  rewrite E, (rmatch_id_head _ _ _ _ q (el_id e) Hq Hi), <- E.
  destruct (id_matches q (el_id e)); [|reflexivity].
  rewrite (gap_after_id true 0 g e leaf rest _ Hg He). reflexivity.
Qed.

(** X19: A dot of the resourceId stands for any character. For a resourceId
    made of dots and of characters without a meaning in a pattern,
    [tap_element] and [get_element_bounds] find on a well-formed dump the
    nodes whose resource-id has the length of the resourceId and agrees with
    it, up to the case of letters, wherever the resourceId has no dot. *)
Theorem resource_id_dot_matches_any_character
  (items : list item) (q : str) (text : option str) (exact : bool) :
  wf_dump items = true -> q <> [] -> dotted_id q = true ->
  collect_matches (tap_pattern text (Some q) exact) (dump_xml items)
    = Returned (map el_rect (filter (fun e => id_matches q (el_id e)) (elements items)))
  /\ (truthy text = false ->
      collect_matches (geb_pattern text (Some q)) (dump_xml items)
      = Returned (map el_rect (filter (fun e => id_matches q (el_id e)) (elements items)))).
Proof.
  intros Hwf Hq Hd.
  assert (Hall : forallb dotted_char q = true)
    by (unfold dotted_id in Hd; apply andb_prop in Hd; apply Hd).
  split.
  - unfold tap_pattern. rewrite (truthy_some q Hq). cbn [spliced].
    rewrite <- rects_of_caps.
    apply (collect_compiled _ _ _ _ (compile_tap_dotted_id q Hq Hall)).
    apply scan_dotted_id; [right; reflexivity | assumption | assumption].
  - intros Ht. unfold geb_pattern. rewrite Ht. cbn [spliced].
    rewrite <- rects_of_caps.
    apply (collect_compiled _ _ _ _ (compile_geb_dotted_id q Hq Hall)).
    apply scan_dotted_id; [left; reflexivity | assumption | assumption].
Qed.

Lemma resource_id_dot_matches_any_character_witness :
  collect_matches (tap_pattern None (Some (js "com.app:id/login")) false)
    (dump_xml two_packages)
  = Returned [el_rect (button "Login" "com.app:id/login" 0 200);
              el_rect (button "Login" "comXapp:id/login" 1 400)].
Proof.
  apply (resource_id_dot_matches_any_character two_packages (js "com.app:id/login")
           None false); try (vm_compute; reflexivity).
  discriminate.
Defined.

(** ** get_clickable_elements *)

Lemma literal_clickable :
  clickable_regex
  = {| re := seq_of (map lit (js "<node") ++ star_not ">" :: map lit (js "clickable='true'")
                     ++ [star_not ">"; lit ">"]);
       ncaps := 0 |}.
Proof. vm_compute; reflexivity. Qed.

(** *** Reading an attribute in a tag *)

Section AttrReads.
Variables (a0 : ascii) (N' V : str).
Hypothesis HNeq : no_eq (a0 :: N') = true.
Hypothesis HNq : no_quote (a0 :: N') = true.
Hypothesis HNsp : no_space (a0 :: N') = true.
Hypothesis HVq : no_quote V = true.
Hypothesis Hdigit :
  forall c, is_digit c = true -> Ascii.eqb (canon false a0) (canon false c) = false.
Hypothesis Htail : forallb (differs false a0) (js " bounds='[],] />") = true.
Hypothesis Hopen :
  forall rest, nowhere false (attr_text (a0 :: N') V) (js "<node") (" "%char :: rest).

Lemma starts_with_attr v rest : forall n sfx,
  no_eq n = true -> no_eq sfx = true -> value_ok v = true ->
  starts_with (sfx ++ "="%char :: dquote :: v ++ dquote :: rest) (attr_text n V)
  = str_same n sfx && str_same V v.
Proof.
  unfold attr_text.
  induction n as [|a n IH]; intros [|c sfx] Hn Hs Hv; cbn [app starts_with str_same].
  - rewrite !Ascii.eqb_refl. cbn [andb]. apply starts_with_value; assumption.
  - simpl in Hs. apply andb_prop in Hs. destruct Hs as [Hc _].
    apply negb_true_iff in Hc. rewrite Ascii.eqb_sym, Hc. reflexivity.
  - simpl in Hn. apply andb_prop in Hn. destruct Hn as [Ha _].
    apply negb_true_iff in Ha. rewrite Ha. reflexivity.
  - simpl in Hn, Hs. apply andb_prop in Hn. apply andb_prop in Hs.
    rewrite <- andb_assoc. f_equal. apply IH; [apply Hn | apply Hs | exact Hv].
Qed.

Lemma first_not_quote : Ascii.eqb a0 dquote = false.
Proof.
  pose proof HNq as H. simpl in H. apply andb_prop in H.
  destruct H as [H _]. apply negb_true_iff in H. exact H.
Qed.

Lemma first_not_space : Ascii.eqb a0 " " = false.
Proof.
  pose proof HNsp as H. simpl in H. apply andb_prop in H.
  destruct H as [H _]. apply negb_true_iff in H. exact H.
Qed.

Lemma includes_attr_name v rest :
  value_ok v = true ->
  forall sfx, no_eq sfx = true ->
  includes (sfx ++ "="%char :: dquote :: v ++ dquote :: rest) (attr_text (a0 :: N') V)
  = has_suffix sfx (a0 :: N') && str_same V v || includes rest (attr_text (a0 :: N') V).
Proof.
  intros Hv. induction sfx as [|c sfx IH]; intros Hs.
  - cbn [app]. rewrite includes_cons.
    pose proof (starts_with_attr v rest (a0 :: N') [] HNeq eq_refl Hv) as E.
    cbn [app] in E. rewrite E. clear E.
    change (str_same (a0 :: N') []) with false. cbn [andb orb].
    rewrite includes_cons.
    change (starts_with (dquote :: v ++ dquote :: rest) (attr_text (a0 :: N') V))
      with (Ascii.eqb a0 dquote
            && starts_with (v ++ dquote :: rest) (N' ++ "="%char :: dquote :: V ++ [dquote])).
    rewrite first_not_quote. cbn [andb orb].
    rewrite (includes_skip (attr_text (a0 :: N') V) v (dquote :: rest)
               (nowhere_value false (a0 :: N') (V ++ [dquote]) v rest HNq Hv)).
    rewrite includes_cons.
    change (starts_with (dquote :: rest) (attr_text (a0 :: N') V))
      with (Ascii.eqb a0 dquote
            && starts_with rest (N' ++ "="%char :: dquote :: V ++ [dquote])).
    rewrite first_not_quote. reflexivity.
  - simpl in Hs. apply andb_prop in Hs. destruct Hs as [Hc Hs'].
    assert (Hs : no_eq (c :: sfx) = true) by (simpl; rewrite Hc; exact Hs').
    change ((c :: sfx) ++ "="%char :: dquote :: v ++ dquote :: rest)
      with (c :: sfx ++ "="%char :: dquote :: v ++ dquote :: rest).
    rewrite includes_cons, (IH Hs').
    pose proof (starts_with_attr v rest (a0 :: N') (c :: sfx) HNeq Hs Hv) as E.
    cbn [app] in E.
    change (c :: sfx ++ "="%char :: dquote :: v ++ dquote :: rest)
      with ((c :: sfx) ++ "="%char :: dquote :: v ++ dquote :: rest).
    cbn [app]. rewrite E.
    cbn [has_suffix].
    destruct (str_same (a0 :: N') (c :: sfx)), (has_suffix sfx (a0 :: N')),
      (str_same V v), (includes rest (attr_text (a0 :: N') V)); reflexivity.
Qed.

Lemma includes_attr a rest :
  plain_attr a = true ->
  includes (attr_xml a ++ rest) (attr_text (a0 :: N') V) = attr_reads (a0 :: N') V a || includes rest (attr_text (a0 :: N') V).
Proof.
  intros Ha. destruct a as [n v]. unfold plain_attr in Ha. cbn [fst snd] in Ha.
  apply andb_prop in Ha. destruct Ha as [Hn Hv]. apply name_no_eq in Hn.
  assert (E : attr_xml (n, v) ++ rest
              = " "%char :: n ++ "="%char :: dquote :: v ++ dquote :: rest).
  { unfold attr_xml. cbn [fst snd]. repeat rewrite <- app_assoc. reflexivity. }
  rewrite E, includes_cons.
  change (starts_with (" "%char :: n ++ "="%char :: dquote :: v ++ dquote :: rest) (attr_text (a0 :: N') V))
    with (Ascii.eqb a0 " "
          && starts_with (n ++ "="%char :: dquote :: v ++ dquote :: rest)
               (N' ++ "="%char :: dquote :: V ++ [dquote])).
  rewrite first_not_space. cbn [andb orb].
  rewrite (includes_attr_name v rest Hv n Hn). reflexivity.
Qed.

Lemma includes_attrs rest : forall l,
  forallb plain_attr l = true ->
  includes (attrs_xml l ++ rest) (attr_text (a0 :: N') V) = existsb (attr_reads (a0 :: N') V) l || includes rest (attr_text (a0 :: N') V).
Proof.
  induction l as [|a l IH]; intros Hl; [reflexivity|].
  simpl in Hl. apply andb_prop in Hl. destruct Hl as [Ha Hl].
  unfold attrs_xml. cbn [map concat]. fold (attrs_xml l).
  rewrite <- app_assoc, (includes_attr a _ Ha), (IH Hl). cbn [existsb].
  rewrite orb_assoc. reflexivity.
Qed.

Lemma tail_differs e leaf :
  forallb (differs false a0) (" "%char :: bounds_attr e ++ tag_end leaf) = true.
Proof.
  destruct (bounds_attr_cons e) as (v & Ev & Hv). rewrite Ev.
  pose proof Htail as H. rewrite forallb_forall in H.
  assert (Hsp : differs false a0 " " = true) by (apply H; left; reflexivity).
  assert (Hb : differs false a0 "b" = true) by (apply H; right; left; reflexivity).
  cbn [app forallb]. rewrite Hsp, Hb. cbn [andb]. apply (Hv false a0 Hdigit).
  apply forallb_forall. intros c Hc. apply H. right. right. exact Hc.
Qed.

Lemma tag_end_close leaf : tag_end leaf = tag_close leaf ++ [">"%char].
Proof. destruct leaf; reflexivity. Qed.

Lemma includes_tail e leaf :
  includes (" "%char :: bounds_attr e ++ tag_end leaf) (attr_text (a0 :: N') V) = false
  /\ includes (" "%char :: bounds_attr e ++ tag_close leaf) (attr_text (a0 :: N') V) = false.
Proof.
  pose proof (tail_differs e leaf) as H.
  split.
  - rewrite <- (app_nil_r (" "%char :: bounds_attr e ++ tag_end leaf)).
    rewrite (includes_skip (attr_text (a0 :: N') V) _ [] (nowhere_first_b false a0 _ _ [] H)). reflexivity.
  - rewrite tag_end_close in H.
    change (" "%char :: bounds_attr e ++ tag_close leaf ++ [">"%char])
      with ((" "%char :: bounds_attr e) ++ tag_close leaf ++ [">"%char]) in H.
    rewrite app_assoc, forallb_app in H. apply andb_prop in H. destruct H as [H _].
    rewrite <- (app_nil_r (" "%char :: bounds_attr e ++ tag_close leaf)).
    change ((" "%char :: bounds_attr e ++ tag_close leaf) ++ [])
      with (((" "%char :: bounds_attr e) ++ tag_close leaf) ++ []).
    rewrite (includes_skip (attr_text (a0 :: N') V) _ [] (nowhere_first_b false a0 _ _ [] H)). reflexivity.
Qed.

Lemma el_attrs_plain e : wf_element e = true -> forallb plain_attr (el_attrs e) = true.
Proof.
  intros He. pose proof (wf_element_parts e He) as (Ht & Hi & Hc & Hl & Hm).
  assert (G : forall l, forallb attr_ok l = true -> forallb plain_attr l = true).
  { induction l as [|a l IH]; simpl; intros H; [reflexivity|].
    apply andb_prop in H. destruct H as [Ha H]. rewrite (IH H), andb_true_r.
    unfold attr_ok in Ha. apply andb_prop in Ha. destruct Ha as [Hn Hv].
    unfold name_ok in Hn. apply andb_prop in Hn. destruct Hn as [Hn _].
    unfold plain_attr. rewrite Hv, andb_true_r. exact Hn. }
  unfold el_attrs. rewrite forallb_app, (G _ Hl). cbn [forallb andb].
  unfold plain_attr at 1 2 3. cbn [fst snd].
  rewrite Ht, Hi, Hc, (G _ Hm). reflexivity.
Qed.

Lemma includes_tag_body leaf e :
  wf_element e = true ->
  includes (tag_body leaf e) (attr_text (a0 :: N') V) = existsb (attr_reads (a0 :: N') V) (el_attrs e).
Proof.
  intros He. unfold tag_body.
  rewrite (includes_attrs _ _ (el_attrs_plain e He)).
  destruct (includes_tail e leaf) as [_ H]. rewrite H. apply orb_false_r.
Qed.

Lemma node_xml_attrs leaf e :
  node_xml leaf e
  = js "<node" ++ attrs_xml (el_attrs e) ++ " "%char :: bounds_attr e ++ tag_end leaf.
Proof.
  unfold node_xml, after_text, after_id, el_attrs, attrs_xml.
  rewrite map_app, concat_app. cbn [map concat]. unfold attr_xml. cbn [fst snd].
  repeat rewrite <- app_assoc. reflexivity.
Qed.

Lemma attrs_xml_space l rest : exists y, attrs_xml l ++ " "%char :: rest = " "%char :: y.
Proof.
  destruct l as [|a l]; [exists rest; reflexivity|].
  unfold attrs_xml. cbn [map concat]. unfold attr_xml at 1.
  repeat rewrite <- app_assoc. eexists. reflexivity.
Qed.

Lemma includes_node leaf e :
  wf_element e = true ->
  includes (node_xml leaf e) (attr_text (a0 :: N') V) = existsb (attr_reads (a0 :: N') V) (el_attrs e).
Proof.
  intros He. rewrite node_xml_attrs.
  destruct (attrs_xml_space (el_attrs e) (bounds_attr e ++ tag_end leaf)) as (y & Ey).
  pose proof (includes_skip (attr_text (a0 :: N') V) (js "<node") _ (Hopen y)) as Hs.
  rewrite <- Ey in Hs. rewrite Hs.
  rewrite (includes_attrs _ _ (el_attrs_plain e He)).
  destruct (includes_tail e leaf) as [H _]. rewrite H. apply orb_false_r.
Qed.
End AttrReads.

(** *** The characters of a tag *)

Lemma plain_attrs_forall (f : ascii -> bool) l :
  (forall c, value_char c = true -> f c = true) ->
  forallb f (js " ='") = true ->
  forallb plain_attr l = true -> forallb f (attrs_xml l) = true.
Proof.
  intros Hf Hg. induction l as [|a l IH]; intros Hl; [reflexivity|].
  simpl in Hl. apply andb_prop in Hl. destruct Hl as [Ha Hl].
  unfold attrs_xml. cbn [map concat]. fold (attrs_xml l).
  rewrite forallb_app, (IH Hl), andb_true_r.
  destruct a as [n v]. unfold plain_attr in Ha. cbn [fst snd] in Ha.
  apply andb_prop in Ha. destruct Ha as [Hn Hv].
  assert (Hn' : forallb f n = true).
  { rewrite forallb_forall in *. intros c Hc. specialize (Hn c Hc).
    unfold name_char in Hn. apply andb_prop in Hn. apply Hf. apply Hn. }
  rewrite forallb_forall in Hg.
  unfold attr_xml. cbn [fst snd].
  rewrite !forallb_app, Hn', (value_ok_forall f v Hf Hv).
  cbn [forallb js map list_ascii_of_string].
  change (if Ascii.eqb " " "'" then dquote else " "%char) with " "%char.
  change (if Ascii.eqb "=" "'" then dquote else "="%char) with "="%char.
  change (if Ascii.eqb "'" "'" then dquote else "'"%char) with dquote.
  rewrite (Hg " "%char), (Hg "="%char), (Hg dquote);
    [reflexivity | right; right; left; reflexivity | right; left; reflexivity
    | left; reflexivity].
Qed.

Lemma digit_not_gt c : is_digit c = true -> Ascii.eqb (canon false ">") (canon false c) = false.
Proof. by_cases_on c. Qed.

Lemma tag_body_no_gt leaf e :
  wf_element e = true ->
  forallb (fun c => negb (Ascii.eqb ">" c)) (tag_body leaf e) = true.
Proof.
  intros He. unfold tag_body.
  rewrite forallb_app, (plain_attrs_forall _ _ not_gt_value eq_refl (el_attrs_plain e He)).
  cbn [andb forallb]. change (negb (Ascii.eqb ">" " ")) with true. cbn [andb].
  rewrite forallb_app. unfold bounds_attr. rewrite !forallb_app.
  pose proof (dec_differs false ">" (el_x1 e) digit_not_gt) as D1.
  pose proof (dec_differs false ">" (el_y1 e) digit_not_gt) as D2.
  pose proof (dec_differs false ">" (el_x2 e) digit_not_gt) as D3.
  pose proof (dec_differs false ">" (el_y2 e) digit_not_gt) as D4.
  change (differs false ">") with (fun c => negb (Ascii.eqb ">" c)) in D1, D2, D3, D4.
  rewrite D1, D2, D3, D4. destruct leaf; reflexivity.
Qed.

Lemma node_xml_body leaf e :
  node_xml leaf e = js "<node" ++ tag_body leaf e ++ [">"%char].
Proof.
  rewrite node_xml_attrs, tag_end_close. unfold tag_body.
  repeat rewrite <- app_assoc. cbn [app]. repeat rewrite <- app_assoc. reflexivity.
Qed.

(** *** The pattern of the scan in a tag *)

Lemma strip_no_gt p : forall u rest,
  forallb (differs false ">") p = true ->
  strip false p (u ++ ">"%char :: rest)
  = if starts_with u p then Some (skipn (length p) u ++ ">"%char :: rest) else None.
Proof.
  induction p as [|a p IH]; intros u rest Hp.
  - destruct u; reflexivity.
  - simpl in Hp. apply andb_prop in Hp. destruct Hp as [Ha Hp].
    destruct u as [|c u]; cbn [app strip starts_with length skipn canon].
    + unfold differs in Ha. cbn [canon] in Ha. apply negb_true_iff in Ha.
      rewrite Ascii.eqb_sym, Ha. reflexivity.
    + destruct (Ascii.eqb a c); [apply IH; exact Hp | reflexivity].
Qed.

Lemma forallb_skipn {X} (f : X -> bool) : forall n l,
  forallb f l = true -> forallb f (skipn n l) = true.
Proof.
  induction n as [|n IH]; intros [|x l] H; try exact H; try reflexivity.
  simpl in H. apply andb_prop in H. apply IH. apply H.
Qed.

Lemma includes_skipn p : forall n s, includes s p = false -> includes (skipn n s) p = false.
Proof.
  induction n as [|n IH]; intros [|c s] H; try exact H.
  rewrite includes_cons in H. apply orb_false_elim in H. apply IH. apply H.
Qed.

Lemma rmatch_to_gt cs k rest : forall w,
  forallb (fun c => negb (Ascii.eqb ">" c)) w = true ->
  rmatch false (seq_of [star_not ">"; lit ">"]) (w ++ ">"%char :: rest) cs k = k rest cs.
Proof.
  intros w Hw. rewrite rmatch_cons. unfold star_not. cbn [rmatch].
  rewrite rep_greedy_all.
  - rewrite rmatch_lit_cons, canon_refl. reflexivity.
  - intros c s' Hc. rewrite rmatch_lit_cons, canon_gt_l.
    rewrite accepts_not_gt in Hc. apply negb_true_iff in Hc. rewrite Hc. reflexivity.
  - rewrite (forallb_pointwise _ (fun c => negb (Ascii.eqb ">" c)) w (accepts_not_gt false)).
    exact Hw.
  - rewrite accepts_not_gt. reflexivity.
Qed.

(** The name between two runs of characters other than [>] is found when
    the tag holds it; every place where it is read leads to the end of the
    tag. *)
Lemma rmatch_in_tag p cs k rest :
  forallb (differs false ">") p = true ->
  forall u, forallb (fun c => negb (Ascii.eqb ">" c)) u = true ->
  rmatch false (seq_of (star_not ">" :: map lit p ++ [star_not ">"; lit ">"]))
    (u ++ ">"%char :: rest) cs k
  = if includes u p then k rest cs else None.
Proof.
  intros Hp u Hu. rewrite rmatch_cons. unfold star_not at 1. cbn [rmatch].
  set (K := fun s' : str =>
    rmatch false (seq_of (map lit p ++ [star_not ">"; lit ">"])) s' cs k).
  set (R := k rest cs).
  set (ok := accepts false (CClass true [">"%char])).
  assert (HK : forall v, forallb (fun c => negb (Ascii.eqb ">" c)) v = true ->
    K (v ++ ">"%char :: rest) = if starts_with v p then R else None).
  { intros v Hv. unfold K. rewrite rmatch_lits, (strip_no_gt p v rest Hp).
    destruct (starts_with v p); [|reflexivity].
    apply rmatch_to_gt. apply forallb_skipn. exact Hv. }
  assert (Hend : ok ">"%char = false).
  { unfold ok. rewrite accepts_not_gt. reflexivity. }
  clearbody K R. induction u as [|c u IH].
  - change (rep_greedy ok ([] ++ ">"%char :: rest) K) with (if ok ">"%char then
      or_else (rep_greedy ok rest K) (K ([] ++ ">"%char :: rest))
      else K ([] ++ ">"%char :: rest)).
    rewrite Hend, (HK [] eq_refl). cbn [includes]. rewrite orb_false_r. reflexivity.
  - simpl in Hu. apply andb_prop in Hu. destruct Hu as [Hc Hu'].
    assert (Hu : forallb (fun c => negb (Ascii.eqb ">" c)) (c :: u) = true)
      by (simpl; rewrite Hc; exact Hu').
    assert (Hok : ok c = true) by (unfold ok; rewrite accepts_not_gt; exact Hc).
    change (rep_greedy ok ((c :: u) ++ ">"%char :: rest) K) with (if ok c then
      or_else (rep_greedy ok (u ++ ">"%char :: rest) K) (K ((c :: u) ++ ">"%char :: rest))
      else K ((c :: u) ++ ">"%char :: rest)).
    rewrite Hok, (IH Hu'), (HK (c :: u) Hu). rewrite includes_cons.
    destruct (starts_with (c :: u) p), (includes u p), R; reflexivity.
Qed.

Lemma rmatch_clickable_here v rest :
  forallb (fun c => negb (Ascii.eqb ">" c)) v = true ->
  rmatch false (re clickable_regex) (v ++ ">"%char :: rest)
    (repeat None (ncaps clickable_regex)) final
  = if starts_with v (js "<node") && includes (skipn 5 v) (js "clickable='true'")
    then Some ([], rest) else None.
Proof.
  intros Hv. rewrite literal_clickable. cbn [re ncaps repeat].
  rewrite rmatch_lits, (strip_no_gt (js "<node") v rest eq_refl).
  destruct (starts_with v (js "<node")); [|reflexivity].
  change (length (js "<node")) with 5.
  rewrite (rmatch_in_tag (js "clickable='true'") [] final rest eq_refl _
             (forallb_skipn _ 5 v Hv)).
  reflexivity.
Qed.

Lemma clickable_dead_tag rest : forall v,
  forallb (fun c => negb (Ascii.eqb ">" c)) v = true ->
  includes v (js "clickable='true'") = false ->
  dead false clickable_regex (v ++ [">"%char]) rest.
Proof.
  induction v as [|x v IH]; intros Hv Hno.
  - split; [|exact I]. vm_compute. reflexivity.
  - pose proof Hv as Hv0. simpl in Hv. apply andb_prop in Hv. destruct Hv as [_ Hv].
    pose proof Hno as Hno0. rewrite includes_cons in Hno. apply orb_false_elim in Hno.
    destruct Hno as [_ Hno].
    split; [|apply IH; assumption].
    change (x :: (v ++ [">"%char]) ++ rest) with ((x :: v ++ [">"%char]) ++ rest).
    change (x :: v ++ [">"%char]) with ((x :: v) ++ [">"%char]).
    rewrite <- app_assoc. cbn [app].
    change (x :: v ++ ">"%char :: rest) with ((x :: v) ++ ">"%char :: rest).
    rewrite (rmatch_clickable_here (x :: v) rest Hv0).
    rewrite (includes_skipn _ 5 (x :: v) Hno0), andb_false_r. reflexivity.
Qed.

(** *** The scan of the dump *)

Lemma exec_text_from_hit ic c s cs s' :
  rmatch ic (re c) s (repeat None (ncaps c)) final = Some (cs, s') ->
  exec_text_from ic c s = Some (consumed s s', s').
Proof. intros H. unfold final in H. destruct s; cbn [exec_text_from]; rewrite H; reflexivity. Qed.

Lemma exec_text_from_dead ic c : forall u rest,
  dead ic c u rest -> exec_text_from ic c (u ++ rest) = exec_text_from ic c rest.
Proof.
  induction u as [|a u IH]; intros rest H; [reflexivity|].
  destruct H as [H1 H2]. unfold final in H1. cbn [app exec_text_from]. rewrite H1.
  apply IH. exact H2.
Qed.

Lemma includes_node_clickable leaf e :
  wf_element e = true ->
  includes (node_xml leaf e) (js "clickable='true'") = reads_clickable e
  /\ includes (tag_body leaf e) (js "clickable='true'") = reads_clickable e.
Proof.
  intros He. split.
  - apply (includes_node "c" (js "lickable") (js "true")); try reflexivity; try exact He.
    + intros c. by_cases_on c.
    + intros rest. simpl. repeat split.
  - apply (includes_tag_body "c" (js "lickable") (js "true")); try reflexivity; try exact He.
    intros c. by_cases_on c.
Qed.

Lemma includes_node_disabled leaf e :
  wf_element e = true ->
  includes (node_xml leaf e) (js "enabled='false'") = reads_disabled e.
Proof.
  intros He.
  apply (includes_node "e" (js "nabled") (js "false")); try reflexivity; try exact He.
  - intros c. by_cases_on c.
  - intros rest. simpl. repeat split.
Qed.

Lemma exec_text_from_node leaf e rest :
  wf_element e = true ->
  exec_text_from false clickable_regex (node_xml leaf e ++ rest)
  = if reads_clickable e then Some (node_xml leaf e, rest)
    else exec_text_from false clickable_regex rest.
Proof.
  intros He. destruct (includes_node_clickable leaf e He) as [Hnode Hbody].
  pose proof (tag_body_no_gt leaf e He) as Hgt.
  destruct (reads_clickable e).
  - rewrite <- (consumed_app (node_xml leaf e) rest) at 2.
    apply (exec_text_from_hit false clickable_regex _ []).
    rewrite node_xml_body. repeat rewrite <- app_assoc. cbn [app].
    rewrite app_assoc.
    rewrite (rmatch_clickable_here (js "<node" ++ tag_body leaf e) rest).
    + rewrite starts_with_more by reflexivity.
      change (skipn 5 (js "<node" ++ tag_body leaf e)) with (tag_body leaf e).
      rewrite Hbody. reflexivity.
    + rewrite forallb_app, Hgt. reflexivity.
  - rewrite node_xml_body, app_assoc.
    apply exec_text_from_dead. apply clickable_dead_tag.
    + rewrite forallb_app, Hgt. reflexivity.
    + rewrite node_xml_body, app_assoc in Hnode.
      destruct (includes (js "<node" ++ tag_body leaf e) (js "clickable='true'")) eqn:E;
        [|reflexivity].
      rewrite (includes_app_l _ _ _ E) in Hnode. discriminate Hnode.
Qed.

Lemma exec_text_loop_from fuel ic c s s' :
  exec_text_from ic c s = exec_text_from ic c s' ->
  exec_text_loop fuel ic c s = exec_text_loop fuel ic c s'.
Proof. intros H. destruct fuel; simpl; [reflexivity | rewrite H; reflexivity]. Qed.

Lemma literal_clickable_head :
  re clickable_regex
  = seq_of (map lit (js "<node") ++ star_not ">" :: map lit (js "clickable='true'")
            ++ [star_not ">"; lit ">"]).
Proof. rewrite literal_clickable. reflexivity. Qed.

Lemma exec_text_from_glue g rest :
  clash_all false (js "<node") g = true ->
  exec_text_from false clickable_regex (g ++ rest) = exec_text_from false clickable_regex rest.
Proof.
  intros H. apply exec_text_from_dead.
  apply (nowhere_dead false clickable_regex (js "<node") _ literal_clickable_head).
  apply clash_all_nowhere. exact H.
Qed.

Lemma exec_text_loop_items : forall items fuel,
  wf_dump items = true -> length items < fuel ->
  exec_text_loop fuel false clickable_regex (concat (map item_xml items) ++ js "</hierarchy>")
  = Some (clickable_tags items).
Proof.
  induction items as [|it items IH]; intros fuel Hwf Hf.
  - destruct fuel as [|f]; [simpl in Hf; lia|]. vm_compute. reflexivity.
  - simpl in Hwf. apply andb_prop in Hwf. destruct Hwf as [He Hes].
    destruct fuel as [|f]; [simpl in Hf; lia|].
    assert (E : exec_text_loop (S f) false clickable_regex
                  (concat (map item_xml items) ++ js "</hierarchy>")
                = Some (clickable_tags items))
      by (apply IH; [exact Hes | simpl in Hf; lia]).
    cbn [map concat]. rewrite <- app_assoc.
    destruct it as [leaf e|].
    + cbn [exec_text_loop item_xml]. rewrite (exec_text_from_node leaf e _ He).
      unfold clickable_tags. cbn [flat_map]. fold (clickable_tags items).
      destruct (reads_clickable e).
      * rewrite (IH f Hes ltac:(simpl in Hf; lia)). reflexivity.
      * cbn [exec_text_loop] in E. exact E.
    + cbn [item_xml].
      rewrite (exec_text_loop_from _ _ _ _ _ (exec_text_from_glue (js "</node>") _ eq_refl)).
      exact E.
Qed.

Lemma clickable_scan items :
  wf_dump items = true ->
  exec_all_text false clickable_regex (dump_xml items) = Some (clickable_tags items).
Proof.
  intros Hwf. unfold exec_all_text, dump_xml.
  rewrite (exec_text_loop_from _ _ _ _ _ (exec_text_from_glue xml_header _ eq_refl)).
  apply exec_text_loop_items; [exact Hwf|].
  pose proof (length_items items). rewrite !length_app. simpl. lia.
Qed.

(** *** The attributes read in a tag *)

Section AttrMatch.
Variables (c : compiled) (p : str).
Hypothesis Hre :
  re c = seq_of (map lit p ++ [RGroup (Some 0) (RSeq (star_not dquote) REmpty); lit dquote]).
Hypothesis Hn : ncaps c = 1.

Lemma String_match_attr s pre rest v post :
  s = pre ++ rest -> rest = p ++ v ++ dquote :: post ->
  nowhere false p pre rest -> value_ok v = true ->
  String_match c s = Some [Some v].
Proof.
  intros -> Hrest Hpre Hv. unfold String_match.
  rewrite (exec_from_skip false c _ _ Hre pre _ Hpre).
  rewrite (exec_from_hit false c _ ([Some v], post)); [reflexivity|].
  rewrite Hre, Hn, rmatch_lits, Hrest, strip_same, rmatch_capture_value by exact Hv.
  reflexivity.
Qed.
End AttrMatch.

Lemma text_of_node leaf e :
  wf_element e = true ->
  String_match text_attr_regex (node_xml leaf e) = Some [Some (el_text e)].
Proof.
  intros He. pose proof (wf_element_parts e He) as (Ht & _).
  apply (String_match_attr text_attr_regex (js "text='") eq_refl eq_refl _
           (text_pre e) (text_core leaf e ++ []) (el_text e)
           (after_text e ++ bounds_attr e ++ tag_end leaf)).
  - rewrite app_nil_r. unfold node_xml, text_pre, text_core.
    repeat rewrite <- app_assoc. reflexivity.
  - rewrite app_nil_r. unfold text_core. repeat rewrite <- app_assoc. reflexivity.
  - apply text_front_nowhere. exact He.
  - exact Ht.
Qed.

Lemma id_front_nowhere e rest :
  wf_element e = true -> nowhere false (js "resource-id='") (id_pre e) rest.
Proof.
  intros He.
  assert (Hp : In (js "resource-id='") scanned_prefixes) by (simpl; tauto).
  assert (Hglue : glue_clashes false (js "resource-id='")
            [js "<node"; js " text='"; js "' "] = true)
    by (vm_compute; reflexivity).
  pose proof (wf_element_parts e He) as (Ht & _ & _ & Hl & _).
  unfold id_pre.
  apply nowhere_app; [glue Hglue|].
  apply nowhere_app; [apply attrs_nowhere; assumption|].
  apply nowhere_app; [glue Hglue|].
  apply nowhere_app;
    [apply (nowhere_value false (js "resource-id") []); [reflexivity | assumption]|].
  glue Hglue.
Qed.

Lemma id_of_node leaf e :
  wf_element e = true ->
  String_match id_attr_regex (node_xml leaf e) = Some [Some (el_id e)].
Proof.
  intros He. pose proof (wf_element_parts e He) as (_ & Hi & _).
  apply (String_match_attr id_attr_regex (js "resource-id='") eq_refl eq_refl _
           (id_pre e) (id_core leaf e) (el_id e)
           (after_id e ++ bounds_attr e ++ tag_end leaf)).
  - unfold node_xml, id_pre, id_core, after_text.
    repeat rewrite <- app_assoc. reflexivity.
  - unfold id_core. repeat rewrite <- app_assoc. reflexivity.
  - apply id_front_nowhere. exact He.
  - exact Hi.
Qed.

Lemma class_front_nowhere e rest :
  wf_element e = true -> class_after_text e = true ->
  nowhere false (js "class='") (class_pre e) rest.
Proof.
  intros He Hc.
  assert (Hglue : glue_clashes false (js "class='")
            [js "<node"; js " text='"; js "'"; js " resource-id='"; js "' "] = true)
    by (vm_compute; reflexivity).
  pose proof (wf_element_parts e He) as (Ht & Hi & _).
  unfold class_pre.
  apply nowhere_app; [glue Hglue|].
  apply nowhere_app; [apply clash_all_nowhere; exact Hc|].
  apply nowhere_app; [glue Hglue|].
  apply nowhere_app;
    [apply (nowhere_value false (js "class") []); [reflexivity | assumption]|].
  apply nowhere_app; [glue Hglue|].
  apply nowhere_app; [glue Hglue|].
  apply nowhere_app;
    [apply (nowhere_value false (js "class") []); [reflexivity | assumption]|].
  glue Hglue.
Qed.

Lemma class_of_node leaf e :
  wf_element e = true -> class_after_text e = true ->
  String_match class_attr_regex (node_xml leaf e) = Some [Some (el_class e)].
Proof.
  intros He Hc. pose proof (wf_element_parts e He) as (_ & _ & Hcl & _).
  apply (String_match_attr class_attr_regex (js "class='") eq_refl eq_refl _
           (class_pre e)
           (js "class='" ++ el_class e
            ++ dquote :: attrs_xml (el_more e) ++ js " " ++ bounds_attr e ++ tag_end leaf)
           (el_class e)
           (attrs_xml (el_more e) ++ js " " ++ bounds_attr e ++ tag_end leaf)).
  - unfold node_xml, class_pre, after_text, after_id.
    repeat rewrite <- app_assoc. reflexivity.
  - reflexivity.
  - apply class_front_nowhere; assumption.
  - exact Hcl.
Qed.

Lemma bounds_of_node leaf e :
  wf_element e = true ->
  String_match bounds_regex (node_xml leaf e) = Some (rect_caps e).
Proof.
  intros He. unfold String_match.
  assert (E : node_xml leaf e = bounds_pre e ++ bounds_attr e ++ tag_end leaf).
  { unfold node_xml, bounds_pre. repeat rewrite <- app_assoc. reflexivity. }
  rewrite E, literal_bounds.
  rewrite (exec_from_skip false {| re := seq_of (tail_items 0); ncaps := 4 |}
             (js "bounds='[")
             [digits_group 0; lit ","; digits_group 1; lit "]"; lit "[";
              digits_group 2; lit ","; digits_group 3; lit "]"; lit dquote]
             eq_refl _ _ (bounds_front_nowhere e _ He)).
  rewrite (exec_from_hit false _ _ (rect_caps e, tag_end leaf)); [reflexivity|].
  cbn [re ncaps]. apply (rmatch_tail false 0 e (tag_end leaf)).
Qed.

Lemma clickable_of_node leaf e :
  wf_element e = true -> class_after_text e = true ->
  clickable_of (node_xml leaf e) = [el_clickable e].
Proof.
  intros He Hc. unfold clickable_of.
  rewrite (text_of_node leaf e He), (id_of_node leaf e He), (class_of_node leaf e He Hc),
    (bounds_of_node leaf e He).
  destruct (center_of_caps e) as [Cx Cy]. rewrite Cx, Cy. reflexivity.
Qed.

Lemma entries_of_tags includeDisabled : forall items,
  wf_dump items = true -> forallb class_after_text (elements items) = true ->
  flat_map (fun node =>
    if negb includeDisabled && includes node (js "enabled='false'") then []
    else clickable_of node) (clickable_tags items)
  = map el_clickable (filter (clickable_listed includeDisabled) (elements items)).
Proof.
  induction items as [|it items IH]; intros Hwf Hcl; [reflexivity|].
  simpl in Hwf. apply andb_prop in Hwf. destruct Hwf as [He Hes].
  destruct it as [leaf e|].
  - cbn [elements flat_map app] in Hcl. fold (elements items) in Hcl.
    cbn [forallb] in Hcl. apply andb_prop in Hcl. destruct Hcl as [Hc Hcs].
    unfold clickable_tags. cbn [flat_map]. fold (clickable_tags items).
    rewrite flat_map_app, (IH Hes Hcs).
    cbn [elements flat_map app filter]. fold (elements items).
    unfold clickable_listed at 2.
    destruct (reads_clickable e); [|reflexivity].
    cbn [flat_map andb]. rewrite (includes_node_disabled leaf e He), app_nil_r.
    destruct includeDisabled, (reads_disabled e); cbn [negb andb orb map app];
      try rewrite (clickable_of_node leaf e He Hc); reflexivity.
  - cbn [elements flat_map app] in Hcl |- *. fold (elements items) in Hcl |- *.
    apply IH; assumption.
Qed.

Lemma get_clickable_elements_wf items includeDisabled :
  wf_dump items = true -> forallb class_after_text (elements items) = true ->
  get_clickable_elements includeDisabled (dump_xml items)
  = Some (array_sort by_center
            (map el_clickable
               (filter
                  (clickable_listed (match includeDisabled with Some b => b | None => false end))
                  (elements items)))).
Proof.
  intros Hwf Hcl. unfold get_clickable_elements.
  rewrite (clickable_scan items Hwf). cbn [option_map].
  rewrite (entries_of_tags _ items Hwf Hcl). reflexivity.
Qed.

Lemma by_center_le a b :
  (exists x y, ck_centerX a = Int x /\ ck_centerY a = Int y) ->
  (exists x y, ck_centerX b = Int x /\ ck_centerY b = Int y) ->
  (by_center a b <= 0)%Z -> ck_before a b.
Proof.
  intros (xa & ya & Ea & Fa) (xb & yb & Eb & Fb). unfold by_center, ck_before.
  rewrite Ea, Fa, Eb, Fb. cbn [num_sub].
  destruct (ya - yb =? 0)%Z eqn:E; [apply Z.eqb_eq in E | apply Z.eqb_neq in E]; lia.
Qed.

Lemma by_center_gt a b :
  (exists x y, ck_centerX a = Int x /\ ck_centerY a = Int y) ->
  (exists x y, ck_centerX b = Int x /\ ck_centerY b = Int y) ->
  (0 < by_center a b)%Z -> ck_before b a.
Proof.
  intros (xa & ya & Ea & Fa) (xb & yb & Eb & Fb). unfold by_center, ck_before.
  rewrite Ea, Fa, Eb, Fb. cbn [num_sub].
  destruct (ya - yb =? 0)%Z eqn:E; [apply Z.eqb_eq in E | apply Z.eqb_neq in E]; lia.
Qed.

Lemma ck_before_trans a b c : ck_before a b -> ck_before b c -> ck_before a c.
Proof.
  unfold ck_before.
  destruct (ck_centerY a), (ck_centerY b), (ck_centerY c),
    (ck_centerX a), (ck_centerX b), (ck_centerX c); try tauto; lia.
Qed.

(** X20: [get_clickable_elements] on a well-formed dump lists, once each and
    with text, resource-id, last part of the class and center, the nodes
    with an attribute whose name ends with [clickable] and whose value is
    [true] and, unless [includeDisabled], without an attribute whose name
    ends with [enabled] and whose value is [false]; the list is in order,
    top to bottom and left to right among the entries of one height. *)
Theorem get_clickable_elements_lists_nodes_in_order
  (items : list item) (includeDisabled : option bool) :
  wf_dump items = true ->
  forallb class_after_text (elements items) = true ->
  exists listed,
    get_clickable_elements includeDisabled (dump_xml items) = Some listed
    /\ Permutation listed
         (map el_clickable
            (filter
               (clickable_listed (match includeDisabled with Some b => b | None => false end))
               (elements items)))
    /\ StronglySorted ck_before listed.
Proof.
  intros Hwf Hcl. rewrite (get_clickable_elements_wf items includeDisabled Hwf Hcl).
  eexists. split; [reflexivity|]. split.
  - apply array_sort_perm.
  - apply Sorted_StronglySorted; [exact ck_before_trans|].
    apply (array_sort_sorted by_center
             (fun a => exists x y, ck_centerX a = Int x /\ ck_centerY a = Int y)
             ck_before by_center_le by_center_gt).
    apply Forall_forall. intros a Ha. apply in_map_iff in Ha.
    destruct Ha as (e & <- & _). do 2 eexists. split; reflexivity.
Qed.

Lemma get_clickable_elements_lists_nodes_in_order_witness :
  exists listed,
    get_clickable_elements None (dump_xml login_screen) = Some listed
    /\ Permutation listed
         (map el_clickable (filter (clickable_listed false) (elements login_screen)))
    /\ StronglySorted ck_before listed.
Proof.
  apply (get_clickable_elements_lists_nodes_in_order login_screen None);
    vm_compute; reflexivity.
Defined.

(** X21: A node that is not clickable is listed by [get_clickable_elements]
    when it can be pressed long and is not disabled: the name
    [long-clickable] ends with [clickable]. *)
Theorem get_clickable_elements_lists_long_clickable
  (items : list item) (e : element) (includeDisabled : option bool) :
  wf_dump items = true ->
  forallb class_after_text (elements items) = true ->
  In e (elements items) ->
  In (js "long-clickable", js "true") (el_more e) ->
  reads_disabled e = false ->
  exists listed,
    get_clickable_elements includeDisabled (dump_xml items) = Some listed
    /\ In (el_clickable e) listed.
Proof.
  intros Hwf Hcl He Hlong Hen. rewrite (get_clickable_elements_wf items _ Hwf Hcl).
  eexists. split; [reflexivity|].
  apply (Permutation_in _ (Permutation_sym (array_sort_perm by_center _))).
  apply in_map. apply filter_In. split; [exact He|].
  unfold clickable_listed. rewrite Hen. cbn [negb]. rewrite orb_true_r, andb_true_r.
  unfold reads_clickable. apply existsb_exists.
  exists (js "long-clickable", js "true"). split; [|reflexivity].
  unfold el_attrs. apply in_or_app. right. do 3 right. exact Hlong.
Qed.

Lemma get_clickable_elements_lists_long_clickable_witness :
  In (js "clickable", js "false") (el_more long_press_label)
  /\ exists listed,
       get_clickable_elements None (dump_xml long_press_screen) = Some listed
       /\ In (el_clickable long_press_label) listed.
Proof.
  split; [do 4 right; left; reflexivity|].
  apply (get_clickable_elements_lists_long_clickable long_press_screen long_press_label).
  - vm_compute; reflexivity.
  - vm_compute; reflexivity.
  - right. left. reflexivity.
  - unfold long_press_label, long_press_flags. cbn [el_more]. do 9 right. left. reflexivity.
  - vm_compute; reflexivity.
Defined.
